(** * DentalDesk: the conversation orchestration engine

    A shallow embedding of [src/app/agent.py] and of the accessors of
    [src/shared/db.py] it calls: the intake path ([enqueue_message]), the
    worker loop ([consume_messages]) with rehydration and persistence of the
    turn's artifacts, the agent graph of [create_graph], and the timeout
    sweep ([conversation_cleanup_task]).

    The process state is passed explicitly: the store (three tables), the
    checkpointer, the queue, the outbox and the error log.  The external
    collaborators (the language model, the tool executor, the outbound HTTP
    channel, the wall clock, the configured timeout) are the fields of the
    record [Env]; the theorems quantify over it, and say so where they need
    something of it (a clock that moves forward, tools that leave the message
    log alone). *)

From stdpp Require Import gmap strings list.
From Stdlib Require Import ZArith Ascii String DecimalString DecimalZ Lia Sorted.
From Stdlib Require DecimalN DecimalFacts.

Open Scope Z_scope.

(** ** JSON text: Python's [json.dumps] and [json.loads]

    A Python [str] is held as the bytes of its UTF-8 encoding, one [ascii]
    per byte; the values are [None], booleans, integers, floats, strings,
    lists and dicts with string keys, a dict keeping its members in order.

    [dumps] writes what [json.dumps] writes with its default arguments:
    ", " and ": " as separators; in a string, the quote and the backslash
    escaped, the short escapes for backspace, tab, newline, form feed and
    carriage return, and a [\uXXXX] escape (lower-case digits) for every
    other character outside the range from the space to the tilde, which
    is a surrogate pair for a character above U+FFFF.

    [loads] reads the grammar of [json.loads] with its default arguments:
    white space is blank, tab, newline and carriage return; a number is an
    optional minus sign, then a zero or a digit from 1 to 9 followed by any
    digits, then optionally a point and digits, then optionally [e] or [E],
    a sign or none, and digits, so that a leading zero ends the number;
    [NaN], [Infinity] and [-Infinity] are read too; a
    string may hold any character but the quote, the backslash and the
    control characters below the space, and the escapes of the quote, the
    backslash and the slash, [\b], [\f], [\n], [\r], [\t] and [\uXXXX],
    two of the latter being read as one character when they are a surrogate
    pair.  It answers [None] where [json.loads] raises [JSONDecodeError].

    Two things are abstracted.  A float is kept as the literal that denotes
    it, since nothing in the worker computes with one: [loads] keeps the
    literal it reads and [dumps] writes the literal back, where Python
    writes the [repr] of the float.  Bytes that are not part of a
    well-formed UTF-8 sequence stand for no Python string; [dumps] writes
    them as they are, and [loads] encodes a surrogate that is not part of a
    pair in the three-byte form.  The limits of CPython on the depth of
    nesting and on the number of digits of an integer are not modelled. *)

Module Json.

Inductive digit : Type := d0 | d1 | d2 | d3 | d4 | d5 | d6 | d7 | d8 | d9.

(** The exponent of a float literal: [e] or [E], a sign or none, digits. *)
Record exponent : Type := Exponent {
  exp_capital : bool;
  exp_sign : option bool;          (* [Some true] is the minus sign *)
  exp_digit : digit;
  exp_digits : list digit }.

(** A float, by its literal. *)
Inductive float : Type :=
| NaN
| Infinity (negative : bool)
| Fraction (negative : bool) (int : N) (d : digit) (ds : list digit) (exp : option exponent)
| Power (negative : bool) (int : N) (exp : exponent).

Unset Elimination Schemes.
Inductive value : Type :=
| Null
| Bool (b : bool)
| Num (n : Z)
| Float (f : float)
| Str (s : string)
| Arr (items : list value)
| Obj (members : list (string * value)).
Set Elimination Schemes.

Definition dq : ascii := "034"%char.   (* the double quote *)
Definition bs : ascii := "092"%char.   (* the backslash *)

Definition chars := list ascii.

Definition is_ws (c : ascii) : bool :=
  (Ascii.eqb c " " || Ascii.eqb c "009" || Ascii.eqb c "010" || Ascii.eqb c "013")%char.

(** *** Digits *)

Definition digit_char (d : digit) : ascii :=
  match d with
  | d0 => "0" | d1 => "1" | d2 => "2" | d3 => "3" | d4 => "4"
  | d5 => "5" | d6 => "6" | d7 => "7" | d8 => "8" | d9 => "9"
  end%char.

Definition char_digit (c : ascii) : option digit :=
  match c with
  | "0" => Some d0 | "1" => Some d1 | "2" => Some d2 | "3" => Some d3 | "4" => Some d4
  | "5" => Some d5 | "6" => Some d6 | "7" => Some d7 | "8" => Some d8 | "9" => Some d9
  | _ => None
  end%char.

Fixpoint uint_of_digits (ds : list digit) : Decimal.uint :=
  match ds with
  | [] => Decimal.Nil
  | d :: r =>
      let u := uint_of_digits r in
      match d with
      | d0 => Decimal.D0 u | d1 => Decimal.D1 u | d2 => Decimal.D2 u | d3 => Decimal.D3 u
      | d4 => Decimal.D4 u | d5 => Decimal.D5 u | d6 => Decimal.D6 u | d7 => Decimal.D7 u
      | d8 => Decimal.D8 u | d9 => Decimal.D9 u
      end
  end.

Fixpoint digits_of_uint (u : Decimal.uint) : list digit :=
  match u with
  | Decimal.Nil => []
  | Decimal.D0 r => d0 :: digits_of_uint r | Decimal.D1 r => d1 :: digits_of_uint r
  | Decimal.D2 r => d2 :: digits_of_uint r | Decimal.D3 r => d3 :: digits_of_uint r
  | Decimal.D4 r => d4 :: digits_of_uint r | Decimal.D5 r => d5 :: digits_of_uint r
  | Decimal.D6 r => d6 :: digits_of_uint r | Decimal.D7 r => d7 :: digits_of_uint r
  | Decimal.D8 r => d8 :: digits_of_uint r | Decimal.D9 r => d9 :: digits_of_uint r
  end.

(** *** Hexadecimal digits and UTF-8

    A [nibble] is four bits, the most significant first; a [code_unit] is
    the sixteen bits of a [\uXXXX] escape.  The bits of a byte come the
    other way round, as in [Ascii]: the least significant first. *)

Definition nibble : Type := bool * bool * bool * bool.
Definition code_unit : Type := nibble * nibble * nibble * nibble.

Definition zero : nibble := (false, false, false, false).

Definition nibble_value (n : nibble) : nat :=
  let '(a, b, c, d) := n in
  ((if a then 8 else 0) + (if b then 4 else 0) + (if c then 2 else 0) + (if d then 1 else 0))%nat.

Definition nibble_of_nat (k : nat) : nibble :=
  (Nat.testbit k 3, Nat.testbit k 2, Nat.testbit k 1, Nat.testbit k 0).

Definition hex (n : nibble) : ascii :=
  nth (nibble_value n) (list_ascii_of_string "0123456789abcdef") "0"%char.

Definition unhex (c : ascii) : option nibble :=
  match char_digit c with
  | Some d => Some (nibble_of_nat (nat_of_ascii c - 48))
  | None =>
      let n := nat_of_ascii c in
      if (97 <=? n)%nat && (n <=? 102)%nat then Some (nibble_of_nat (n - 87))
      else if (65 <=? n)%nat && (n <=? 70)%nat then Some (nibble_of_nat (n - 55))
      else None
  end.

Definition low (c : ascii) : nibble :=
  let 'Ascii b0 b1 b2 b3 _ _ _ _ := c in (b3, b2, b1, b0).

Definition high (c : ascii) : nibble :=
  let 'Ascii _ _ _ _ b4 b5 b6 b7 := c in (b7, b6, b5, b4).

(** Five bits that count from 1 to 16: the planes above the first one. *)
Definition pred5 (u4 : bool) (u : nibble) : option nibble :=
  match ((if u4 then 16 else 0) + nibble_value u)%nat with
  | O => None
  | S k => if (k <? 16)%nat then Some (nibble_of_nat k) else None
  end.

Definition succ4 (w : nibble) : bool * nibble :=
  let v := S (nibble_value w) in (Nat.testbit v 4, nibble_of_nat v).

(** [110xxxxx 10yyyyyy], from U+0080 on. *)
Definition utf8_2 (c1 c2 : ascii) : option code_unit :=
  match c1, c2 with
  | Ascii x0 x1 x2 x3 x4 false true true, Ascii y0 y1 y2 y3 y4 y5 false true =>
      if x1 || x2 || x3 || x4
      then Some (zero, (false, x4, x3, x2), (x1, x0, y5, y4), (y3, y2, y1, y0))
      else None
  | _, _ => None
  end.

(** [1110zzzz 10xxxxxx 10yyyyyy], from U+0800 on, the surrogates left out. *)
Definition utf8_3 (c1 c2 c3 : ascii) : option code_unit :=
  match c1, c2, c3 with
  | Ascii z0 z1 z2 z3 false true true true,
    Ascii x0 x1 x2 x3 x4 x5 false true,
    Ascii y0 y1 y2 y3 y4 y5 false true =>
      if (z3 || z2 || z1 || z0 || x5) && negb (z3 && z2 && negb z1 && z0 && x5)
      then Some ((z3, z2, z1, z0), (x5, x4, x3, x2), (x1, x0, y5, y4), (y3, y2, y1, y0))
      else None
  | _, _, _ => None
  end.

(** [11110uuu 10uuzzzz 10xxxxxx 10yyyyyy], from U+10000 to U+10FFFF: the
    high and the low surrogate of the pair that stands for it. *)
Definition utf8_4 (c1 c2 c3 c4 : ascii) : option (code_unit * code_unit) :=
  match c1, c2, c3, c4 with
  | Ascii u2 u3 u4 false true true true true,
    Ascii z0 z1 z2 z3 u0 u1 false true,
    Ascii x0 x1 x2 x3 x4 x5 false true,
    Ascii y0 y1 y2 y3 y4 y5 false true =>
      match pred5 u4 (u3, u2, u1, u0) with
      | Some (w3, w2, w1, w0) =>
          Some (((true, true, false, true), (true, false, w3, w2),
                 (w1, w0, z3, z2), (z1, z0, x5, x4)),
                ((true, true, false, true), (true, true, x3, x2),
                 (x1, x0, y5, y4), (y3, y2, y1, y0)))
      | None => None
      end
  | _, _, _, _ => None
  end.

Definition is_high_surrogate (u : code_unit) : bool :=
  match u with
  | ((true, true, false, true), (true, false, _, _), _, _) => true
  | _ => false
  end.

Definition is_low_surrogate (u : code_unit) : bool :=
  match u with
  | ((true, true, false, true), (true, true, _, _), _, _) => true
  | _ => false
  end.

(** The UTF-8 bytes of the character a [\uXXXX] escape names. *)
Definition utf8_unit (u : code_unit) : chars :=
  let '((a3, a2, a1, a0), (b3, b2, b1, b0), (c3, c2, c1, c0), (e3, e2, e1, e0)) := u in
  if negb (a3 || a2 || a1 || a0 || b3 || b2 || b1 || b0 || c3) then
    [Ascii e0 e1 e2 e3 c0 c1 c2 false]
  else if negb (a3 || a2 || a1 || a0 || b3) then
    [Ascii c2 c3 b0 b1 b2 false true true; Ascii e0 e1 e2 e3 c0 c1 false true]
  else
    [Ascii a0 a1 a2 a3 false true true true; Ascii c2 c3 b0 b1 b2 b3 false true;
     Ascii e0 e1 e2 e3 c0 c1 false true].

(** The UTF-8 bytes of the character a surrogate pair names. *)
Definition utf8_pair (hi lo : code_unit) : chars :=
  let '(_, (_, _, w3, w2), (w1, w0, z3, z2), (z1, z0, x5, x4)) := hi in
  let '(_, (_, _, x3, x2), (x1, x0, y5, y4), (y3, y2, y1, y0)) := lo in
  let '(u4, (u3, u2, u1, u0)) := succ4 (w3, w2, w1, w0) in
  [Ascii u2 u3 u4 false true true true true; Ascii z0 z1 z2 z3 u0 u1 false true;
   Ascii x0 x1 x2 x3 x4 x5 false true; Ascii y0 y1 y2 y3 y4 y5 false true].

(** *** Encoding *)

Definition u_escape (u : code_unit) : chars :=
  let '(n1, n2, n3, n4) := u in [bs; "u"%char; hex n1; hex n2; hex n3; hex n4].

Definition is_control (c : ascii) : bool := (nat_of_ascii c <? 32)%nat.

(** One byte that is not part of a longer sequence. *)
Definition escape_byte (c : ascii) : chars :=
  if Ascii.eqb c dq then [bs; dq]
  else if Ascii.eqb c bs then [bs; bs]
  else if Ascii.eqb c "010" then [bs; "n"%char]
  else if Ascii.eqb c "013" then [bs; "r"%char]
  else if Ascii.eqb c "009" then [bs; "t"%char]
  else if Ascii.eqb c "012" then [bs; "f"%char]
  else if Ascii.eqb c "008" then [bs; "b"%char]
  else if is_control c || Ascii.eqb c "127" then u_escape (zero, zero, high c, low c)
  else [c].

Fixpoint escape (s : string) : chars :=
  match s with
  | EmptyString => []
  | String c1 r1 =>
      let single := escape_byte c1 ++ escape r1 in
      match r1 with
      | String c2 r2 =>
          match utf8_2 c1 c2 with
          | Some u => u_escape u ++ escape r2
          | None =>
              match r2 with
              | String c3 r3 =>
                  match utf8_3 c1 c2 c3 with
                  | Some u => u_escape u ++ escape r3
                  | None =>
                      match r3 with
                      | String c4 r4 =>
                          match utf8_4 c1 c2 c3 c4 with
                          | Some (hi, lo) => u_escape hi ++ u_escape lo ++ escape r4
                          | None => single
                          end
                      | EmptyString => single
                      end
                  end
              | EmptyString => single
              end
          end
      | EmptyString => single
      end
  end.

Definition quote (s : string) : chars := dq :: escape s ++ [dq].

Definition print_digits (ds : list digit) : chars := map digit_char ds.

Definition print_N (n : N) : chars := print_digits (digits_of_uint (N.to_uint n)).

Definition print_sign (negative : bool) : chars := if negative then ["-"%char] else [].

Definition print_Z (n : Z) : chars := print_sign (n <? 0) ++ print_N (Z.abs_N n).

Definition print_exponent (e : exponent) : chars :=
  (if exp_capital e then "E" else "e")%char ::
  match exp_sign e with
  | Some true => ["-"%char]
  | Some false => ["+"%char]
  | None => []
  end ++ print_digits (exp_digit e :: exp_digits e).

Definition print_float (f : float) : chars :=
  match f with
  | NaN => list_ascii_of_string "NaN"
  | Infinity negative => print_sign negative ++ list_ascii_of_string "Infinity"
  | Fraction negative int d ds exp =>
      print_sign negative ++ print_N int ++ "."%char :: print_digits (d :: ds) ++
      match exp with Some e => print_exponent e | None => [] end
  | Power negative int e => print_sign negative ++ print_N int ++ print_exponent e
  end.

Fixpoint join (sep : chars) (parts : list chars) : chars :=
  match parts with
  | [] => []
  | [p] => p
  | p :: ps => p ++ sep ++ join sep ps
  end.

Definition item_sep : chars := ["," ; " "]%char.
Definition key_sep : chars := [":" ; " "]%char.

Fixpoint print (v : value) : chars :=
  match v with
  | Null => list_ascii_of_string "null"
  | Bool true => list_ascii_of_string "true"
  | Bool false => list_ascii_of_string "false"
  | Num n => print_Z n
  | Float f => print_float f
  | Str s => quote s
  | Arr items => "["%char :: join item_sep (map print items) ++ ["]"%char]
  | Obj members =>
      "{"%char ::
        join item_sep (map (fun kv => quote (fst kv) ++ key_sep ++ print (snd kv)) members)
        ++ ["}"%char]
  end.

(** [json.dumps] *)
Definition dumps (v : value) : string := string_of_list_ascii (print v).

(** *** Decoding *)

Fixpoint skip_ws (s : chars) : chars :=
  match s with
  | c :: r => if is_ws c then skip_ws r else s
  | [] => []
  end.

Definition unescape (c : ascii) : option ascii :=
  if Ascii.eqb c dq then Some dq
  else if Ascii.eqb c bs then Some bs
  else if Ascii.eqb c "/" then Some "/"%char
  else if Ascii.eqb c "n" then Some "010"%char
  else if Ascii.eqb c "t" then Some "009"%char
  else if Ascii.eqb c "r" then Some "013"%char
  else if Ascii.eqb c "b" then Some "008"%char
  else if Ascii.eqb c "f" then Some "012"%char
  else None.

Definition unhex4 (h1 h2 h3 h4 : ascii) : option code_unit :=
  match unhex h1, unhex h2, unhex h3, unhex h4 with
  | Some n1, Some n2, Some n3, Some n4 => Some (n1, n2, n3, n4)
  | _, _, _, _ => None
  end.

Fixpoint prepend (cs : chars) (s : string) : string :=
  match cs with
  | [] => s
  | c :: r => String c (prepend r s)
  end.

Definition decoded (cs : chars) (tail : option (string * chars)) : option (string * chars) :=
  match tail with
  | Some (t, rest) => Some (prepend cs t, rest)
  | None => None
  end.

(** The body of a string literal, after its opening quote. *)
Fixpoint parse_chars (s : chars) : option (string * chars) :=
  match s with
  | [] => None
  | c :: r =>
      if Ascii.eqb c dq then Some (EmptyString, r)
      else if Ascii.eqb c bs then
        match r with
        | e :: r' =>
            if Ascii.eqb e "u" then
              match r' with
              | h1 :: h2 :: h3 :: h4 :: r4 =>
                  match unhex4 h1 h2 h3 h4 with
                  | Some u =>
                      let alone := decoded (utf8_unit u) (parse_chars r4) in
                      if is_high_surrogate u then
                        match r4 with
                        | b :: r5 =>
                            if Ascii.eqb b bs then
                              match r5 with
                              | u' :: r6 =>
                                  if Ascii.eqb u' "u" then
                                    match r6 with
                                    | k1 :: k2 :: k3 :: k4 :: r10 =>
                                        match unhex4 k1 k2 k3 k4 with
                                        | Some u2 =>
                                            if is_low_surrogate u2
                                            then decoded (utf8_pair u u2) (parse_chars r10)
                                            else alone
                                        | None => None
                                        end
                                    | _ => None
                                    end
                                  else alone
                              | [] => alone
                              end
                            else alone
                        | [] => alone
                        end
                      else alone
                  | None => None
                  end
              | _ => None
              end
            else
              match unescape e with
              | Some c' => decoded [c'] (parse_chars r')
              | None => None
              end
        | [] => None
        end
      else if is_control c then None
      else decoded [c] (parse_chars r)
  end.

Fixpoint span_digits (s : chars) : list digit * chars :=
  match s with
  | c :: r =>
      match char_digit c with
      | Some d => let '(ds, rest) := span_digits r in (d :: ds, rest)
      | None => ([], s)
      end
  | [] => ([], [])
  end.

(** The integer part: a zero, or a digit from 1 to 9 and any digits. *)
Definition scan_int (s : chars) : option (N * chars) :=
  match s with
  | c :: r =>
      match char_digit c with
      | Some d0 => Some (0%N, r)
      | Some d => let '(ds, rest) := span_digits r in
                  Some (N.of_uint (uint_of_digits (d :: ds)), rest)
      | None => None
      end
  | [] => None
  end.

(** The fraction: a point and at least one digit. *)
Definition scan_frac (s : chars) : option (digit * list digit * chars) :=
  match s with
  | c :: r =>
      if Ascii.eqb c "." then
        match span_digits r with
        | (d :: ds, rest) => Some (d, ds, rest)
        | ([], _) => None
        end
      else None
  | [] => None
  end.

(** The exponent: [e] or [E], a sign or none, at least one digit. *)
Definition scan_exp (s : chars) : option (exponent * chars) :=
  match s with
  | c :: r =>
      if Ascii.eqb c "e" || Ascii.eqb c "E" then
        let '(sign, r') :=
          match r with
          | c' :: r' =>
              if Ascii.eqb c' "-" then (Some true, r')
              else if Ascii.eqb c' "+" then (Some false, r')
              else (None, r)
          | [] => (None, r)
          end in
        match span_digits r' with
        | (d :: ds, rest) => Some (Exponent (Ascii.eqb c "E") sign d ds, rest)
        | ([], _) => None
        end
      else None
  | [] => None
  end.

Definition parse_number (s : chars) : option (value * chars) :=
  let '(negative, s1) :=
    match s with
    | c :: r => if Ascii.eqb c "-" then (true, r) else (false, s)
    | [] => (false, s)
    end in
  match scan_int s1 with
  | Some (n, s2) =>
      match scan_frac s2 with
      | Some (d, ds, s3) =>
          match scan_exp s3 with
          | Some (e, s4) => Some (Float (Fraction negative n d ds (Some e)), s4)
          | None => Some (Float (Fraction negative n d ds None), s3)
          end
      | None =>
          match scan_exp s2 with
          | Some (e, s4) => Some (Float (Power negative n e), s4)
          | None => Some (Num (if negative then - Z.of_N n else Z.of_N n), s2)
          end
      end
  | None => None
  end.

Fixpoint expect (word : chars) (s : chars) : option chars :=
  match word, s with
  | [], _ => Some s
  | w :: ws, c :: r => if Ascii.eqb w c then expect ws r else None
  | _ :: _, [] => None
  end.

Definition keyword (word : string) (v : value) (s : chars) : option (value * chars) :=
  match expect (list_ascii_of_string word) s with
  | Some rest => Some (v, rest)
  | None => None
  end.

Definition is_digit (c : ascii) : bool :=
  match char_digit c with Some _ => true | None => false end.

Fixpoint parse_value (fuel : nat) (s : chars) : option (value * chars) :=
  match fuel with
  | O => None
  | S fuel' =>
      match skip_ws s with
      | [] => None
      | c :: r =>
          if Ascii.eqb c "[" then
            match skip_ws r with
            | c' :: r' =>
                if Ascii.eqb c' "]" then Some (Arr [], r')
                else match parse_items fuel' r with
                     | Some (vs, rest) => Some (Arr vs, rest)
                     | None => None
                     end
            | [] => None
            end
          else if Ascii.eqb c "{" then
            match skip_ws r with
            | c' :: r' =>
                if Ascii.eqb c' "}" then Some (Obj [], r')
                else match parse_members fuel' r with
                     | Some (kvs, rest) => Some (Obj kvs, rest)
                     | None => None
                     end
            | [] => None
            end
          else if Ascii.eqb c dq then
            match parse_chars r with
            | Some (t, rest) => Some (Str t, rest)
            | None => None
            end
          else if Ascii.eqb c "n" then keyword "ull" Null r
          else if Ascii.eqb c "t" then keyword "rue" (Bool true) r
          else if Ascii.eqb c "f" then keyword "alse" (Bool false) r
          else if is_digit c then parse_number (c :: r)
          else if Ascii.eqb c "-" then
            match parse_number (c :: r) with
            | Some number => Some number
            | None => keyword "Infinity" (Float (Infinity true)) r
            end
          else if Ascii.eqb c "N" then keyword "aN" (Float NaN) r
          else if Ascii.eqb c "I" then keyword "nfinity" (Float (Infinity false)) r
          else None
      end
  end

with parse_items (fuel : nat) (s : chars) : option (list value * chars) :=
  match fuel with
  | O => None
  | S fuel' =>
      match parse_value fuel' s with
      | Some (v, r) =>
          match skip_ws r with
          | c :: r' =>
              if Ascii.eqb c "," then
                match parse_items fuel' r' with
                | Some (vs, rest) => Some (v :: vs, rest)
                | None => None
                end
              else if Ascii.eqb c "]" then Some ([v], r')
              else None
          | [] => None
          end
      | None => None
      end
  end

with parse_members (fuel : nat) (s : chars) : option (list (string * value) * chars) :=
  match fuel with
  | O => None
  | S fuel' =>
      match skip_ws s with
      | c :: r =>
          if Ascii.eqb c dq then
            match parse_chars r with
            | Some (k, r1) =>
                match skip_ws r1 with
                | c1 :: r2 =>
                    if Ascii.eqb c1 ":" then
                      match parse_value fuel' r2 with
                      | Some (v, r3) =>
                          match skip_ws r3 with
                          | c3 :: r4 =>
                              if Ascii.eqb c3 "," then
                                match parse_members fuel' r4 with
                                | Some (kvs, rest) => Some ((k, v) :: kvs, rest)
                                | None => None
                                end
                              else if Ascii.eqb c3 "}" then Some ([(k, v)], r4)
                              else None
                          | [] => None
                          end
                      | None => None
                      end
                    else None
                | [] => None
                end
            | None => None
            end
          else None
      | [] => None
      end
  end.

(** [json.loads]: [None] stands for [json.JSONDecodeError]. *)
Definition loads (s : string) : option value :=
  let cs := list_ascii_of_string s in
  match parse_value (S (List.length cs)) cs with
  | Some (v, rest) => match skip_ws rest with [] => Some v | _ :: _ => None end
  | None => None
  end.

(** Subscription of a decoded object by key, [d[key]]: the last member
    wins when a key is repeated, as in a Python dict built by [json.loads]. *)
Fixpoint get (key : string) (members : list (string * value)) : option value :=
  match members with
  | [] => None
  | (k, v) :: rest =>
      match get key rest with
      | Some v' => Some v'
      | None => if String.eqb k key then Some v else None
      end
  end.

(** *** Measures and predicates used to reason about the decoder *)

(** Recursion depth the decoder needs on the text of [v]. *)
Fixpoint need (v : value) : nat :=
  match v with
  | Arr items => S (list_sum (map (fun x => S (need x)) items))
  | Obj members => S (list_sum (map (fun kv => S (need (snd kv))) members))
  | _ => 1
  end.

(** Induction over values, with the hypothesis on every item and member. *)
Definition value_ind (P : value -> Prop)
  (HNull : P Null) (HBool : forall b, P (Bool b)) (HNum : forall n, P (Num n))
  (HFloat : forall f, P (Float f)) (HStr : forall s, P (Str s))
  (HArr : forall items, Forall P items -> P (Arr items))
  (HObj : forall members, Forall (fun kv => P (snd kv)) members -> P (Obj members)) :
  forall v, P v :=
  fix go (v : value) : P v :=
    match v with
    | Null => HNull
    | Bool b => HBool b
    | Num n => HNum n
    | Float f => HFloat f
    | Str s => HStr s
    | Arr items =>
        HArr items (list_ind (Forall P) (List.Forall_nil P)
                      (fun x xs IH => @List.Forall_cons _ P x xs (go x) IH) items)
    | Obj members =>
        HObj members (list_ind (Forall (fun kv => P (snd kv))) (List.Forall_nil _)
                        (fun x xs IH => @List.Forall_cons _ (fun kv => P (snd kv)) x xs (go (snd x)) IH) members)
    end.

(** What follows a value in a text: a comma, a closing bracket, or nothing. *)
Definition is_stop (c : ascii) : bool :=
  Ascii.eqb c "," || Ascii.eqb c "]" || Ascii.eqb c "}".

Definition stop (rest : chars) : Prop :=
  match rest with [] => True | c :: _ => is_stop c = true end.

(** No digit follows. *)
Definition ends (rest : chars) : Prop :=
  match rest with [] => True | c :: _ => char_digit c = None end.

(** The first character of an encoded value: no blank, no closing bracket. *)
Definition opens (c : ascii) : Prop :=
  is_ws c = false /\ Ascii.eqb c "]" = false /\ Ascii.eqb c "}" = false.

(** The text of a string literal whose body is [body]. *)
Definition quoted (body : string) : string := String dq (body +:+ String dq EmptyString).

Definition items_need (items : list value) : nat :=
  list_sum (map (fun x => S (need x)) items).

Definition members_need (members : list (string * value)) : nat :=
  list_sum (map (fun kv => S (need (snd kv))) members).

(** [parses v]: the decoder recovers [v] from its text, whatever follows it. *)
Definition parses (v : value) : Prop :=
  forall rest f, (need v <= f)%nat -> stop rest ->
                 parse_value f (print v ++ rest) = Some (v, rest).

End Json.


(** ** Exceptions *)

(** The Python exceptions the modelled code can meet.  Every one of them is
    an instance of [Exception], so the worker's [except Exception] catches it. *)
Inductive exn : Type :=
| JSONDecodeError                 (* json.loads on malformed text *)
| KeyError (key : string)         (* d[key] on a dict without that key *)
| TypeError                       (* subscript of a decoded value that is no dict *)
| ValidationError                 (* a message built from a field of the wrong type *)
| IndexError                      (* [][-1] *)
| HTTPException (status : Z)      (* raised by send_message *)
| GraphRecursionError             (* the graph ran past its step limit *)
| ExternalError (what : string).  (* the language model or a tool transport failed *)

Inductive result (A : Type) : Type :=
| Ok (a : A)
| Raise (e : exn).
Arguments Ok {A} a.
Arguments Raise {A} e.

(** ** shared/models.py *)

(** Times are [datetime] values counted in microseconds; the ISO strings the
    store keeps compare as the times they denote. *)
Definition datetime := Z.

Record Patient : Type := {
  patient_id : option Z;
  patient_name : string;
  patient_age : option Z;
  patient_gender : option string;
  patient_phone_number : string;
}.

Record Conversation : Type := {
  conversation_id : Z;
  conversation_patient_id : option Z;
  conversation_status : string;            (* "open" / "closed" *)
  conversation_started_at : datetime;
  conversation_ended_at : option datetime;
  conversation_closed_reason : option string;
}.

Record Message : Type := {
  message_id : Z;
  message_conversation_id : Z;
  message_sender : string;      (* "user", "agent", "tool" or "agent_tool_call" *)
  message_message : string;
  message_created_at : datetime;
}.

(** ** shared/db.py *)

(** The three tables the engine touches, rows in rowid order, each with the
    last rowid handed out ([AUTOINCREMENT]). *)
Record Db : Type := {
  patients : list Patient;
  patients_seq : Z;
  conversations : list Conversation;
  conversations_seq : Z;
  messages : list Message;
  messages_seq : Z;
}.

Definition set_patients (rows : list Patient) (seq : Z) (d : Db) : Db :=
  {| patients := rows; patients_seq := seq;
     conversations := conversations d; conversations_seq := conversations_seq d;
     messages := messages d; messages_seq := messages_seq d |}.

Definition set_conversations (rows : list Conversation) (seq : Z) (d : Db) : Db :=
  {| patients := patients d; patients_seq := patients_seq d;
     conversations := rows; conversations_seq := seq;
     messages := messages d; messages_seq := messages_seq d |}.

Definition set_messages (rows : list Message) (seq : Z) (d : Db) : Db :=
  {| patients := patients d; patients_seq := patients_seq d;
     conversations := conversations d; conversations_seq := conversations_seq d;
     messages := rows; messages_seq := seq |}.

(** SQL [column = ?] on a nullable column: NULL matches nothing. *)
Definition sql_eq (column param : option Z) : bool :=
  match column, param with
  | Some a, Some b => Z.eqb a b
  | _, _ => false
  end.

(** [create_patient]: insert, then set [patient.id = cur.lastrowid]. *)
Definition create_patient (patient : Patient) (d : Db) : Db * Patient :=
  let lastrowid := patients_seq d + 1 in
  let stored :=
    {| patient_id := Some lastrowid;
       patient_name := patient_name patient;
       patient_age := patient_age patient;
       patient_gender := patient_gender patient;
       patient_phone_number := patient_phone_number patient |} in
  (set_patients (patients d ++ [stored]) lastrowid d, stored).

(** [get_patient_by_phone]: [fetchone] of the rows with that phone number. *)
Definition get_patient_by_phone (phone_number : string) (d : Db) : option Patient :=
  List.find (fun p => String.eqb (patient_phone_number p) phone_number) (patients d).

(** [create_conversation]: the row is stamped with one reading of the clock,
    the returned object with a second one. *)
Definition create_conversation (patient_id : option Z) (now1 now2 : datetime) (d : Db)
  : Db * Conversation :=
  let lastrowid := conversations_seq d + 1 in
  let row :=
    {| conversation_id := lastrowid; conversation_patient_id := patient_id;
       conversation_status := "open"; conversation_started_at := now1;
       conversation_ended_at := None; conversation_closed_reason := None |} in
  let conv :=
    {| conversation_id := lastrowid; conversation_patient_id := patient_id;
       conversation_status := "open"; conversation_started_at := now2;
       conversation_ended_at := None; conversation_closed_reason := None |} in
  (set_conversations (conversations d ++ [row]) lastrowid d, conv).

(** [close_conversation]: [UPDATE ... WHERE id=?], whatever the row's status. *)
Definition close_row (conversation_id' : Z) (reason : string) (now : datetime)
  (c : Conversation) : Conversation :=
  if Z.eqb (conversation_id c) conversation_id' then
    {| conversation_id := conversation_id c;
       conversation_patient_id := conversation_patient_id c;
       conversation_status := "closed";
       conversation_started_at := conversation_started_at c;
       conversation_ended_at := Some now;
       conversation_closed_reason := Some reason |}
  else c.

Definition close_conversation (conversation_id' : Z) (reason : string) (now : datetime)
  (d : Db) : Db :=
  set_conversations (map (close_row conversation_id' reason now) (conversations d))
    (conversations_seq d) d.

(** [add_message] *)
Definition add_message (conversation_id' : Z) (sender message : string)
  (now1 now2 : datetime) (d : Db) : Db * Message :=
  let lastrowid := messages_seq d + 1 in
  let row :=
    {| message_id := lastrowid; message_conversation_id := conversation_id';
       message_sender := sender; message_message := message;
       message_created_at := now1 |} in
  let msg :=
    {| message_id := lastrowid; message_conversation_id := conversation_id';
       message_sender := sender; message_message := message;
       message_created_at := now2 |} in
  (set_messages (messages d ++ [row]) lastrowid d, msg).

(** [ORDER BY created_at]: rows with equal keys keep their rowid order. *)
Fixpoint insert_by_created_at (m : Message) (sorted : list Message) : list Message :=
  match sorted with
  | [] => [m]
  | x :: rest =>
      if Z.ltb (message_created_at m) (message_created_at x) then m :: x :: rest
      else x :: insert_by_created_at m rest
  end.

Definition order_by_created_at (rows : list Message) : list Message :=
  fold_left (fun sorted m => insert_by_created_at m sorted) rows [].

(** [get_messages] *)
Definition get_messages (conversation_id' : Z) (d : Db) : list Message :=
  order_by_created_at
    (List.filter (fun m => Z.eqb (message_conversation_id m) conversation_id') (messages d)).

(** [get_conversation] *)
Definition get_conversation (conversation_id' : Z) (d : Db) : option Conversation :=
  List.find (fun c => Z.eqb (conversation_id c) conversation_id') (conversations d).

(** The rows [WHERE patient_id=? AND status='open'] selects. *)
Definition is_open_for (patient_id : option Z) (c : Conversation) : bool :=
  sql_eq (conversation_patient_id c) patient_id
  && String.eqb (conversation_status c) "open".

(** [ORDER BY started_at DESC LIMIT 1]: the latest of the rows, the first one
    met when several share the latest time. *)
Fixpoint latest_started (rows : list Conversation) : option Conversation :=
  match rows with
  | [] => None
  | c :: rest =>
      match latest_started rest with
      | Some c' =>
          if Z.ltb (conversation_started_at c) (conversation_started_at c')
          then Some c' else Some c
      | None => Some c
      end
  end.

(** [get_open_conversation] *)
Definition get_open_conversation (patient_id : option Z) (d : Db) : option Conversation :=
  latest_started (List.filter (is_open_for patient_id) (conversations d)).

(** ** The agent's state *)

(** The transcript messages of [langchain_core.messages], with the fields the
    engine reads or writes: text, tool-call list, tool-call id.  The content
    is text (a content made of blocks is left out); a tool call is the JSON
    object the model produced, with its name, arguments and id. *)
Inductive Msg : Type :=
| HumanMessage (content : string)
| AIMessage (content : string) (tool_calls : list Json.value)
| ToolMessage (content : string) (tool_call_id : string).

(** [StateSnapshot.values] of the graph's [State]: a dict that holds a key
    only once the channel has been written. *)
Record StateValues : Type := {
  sv_messages : option (list Msg);
  sv_patient : option Patient;
  sv_conversation_id : option Z;
  sv_last_interaction_time : option datetime;
}.

Definition empty_values : StateValues :=
  {| sv_messages := None; sv_patient := None;
     sv_conversation_id := None; sv_last_interaction_time := None |}.

(** Truth value of the dict: false exactly when it has no key. *)
Definition values_truthy (v : StateValues) : bool :=
  match sv_messages v, sv_patient v, sv_conversation_id v, sv_last_interaction_time v with
  | None, None, None, None => false
  | _, _, _, _ => true
  end.

(** [values.get("messages")], with a missing key read as the empty list. *)
Definition messages_of (v : StateValues) : list Msg :=
  match sv_messages v with Some l => l | None => [] end.

(** The unit of work put on [message_queue]. *)
Record QueueItem : Type := {
  qi_conversation_id : Z;
  qi_patient : Patient;
  qi_message : string;
  qi_timestamp : datetime;
}.

(** What [logger.error] records. *)
Inductive LogRecord : Type :=
| AgentError (conversation_id' : Z) (e : exn).

(** The process: the store, the checkpointer (an [InMemorySaver], keyed by
    thread id; the thread id of a conversation is [str(conversation_id)], read
    back with [int], so the key is the conversation id), the queue, the
    messages handed to the outbound channel, the error log, and the count of
    external events so far. *)
Record World : Type := {
  db : Db;
  checkpoints : gmap Z StateValues;
  message_queue : list QueueItem;
  outbox : list (string * string);
  error_log : list LogRecord;
  ticks : nat;
}.

Definition set_db (d : Db) (w : World) : World :=
  {| db := d; checkpoints := checkpoints w; message_queue := message_queue w;
     outbox := outbox w; error_log := error_log w; ticks := ticks w |}.

Definition set_checkpoints (c : gmap Z StateValues) (w : World) : World :=
  {| db := db w; checkpoints := c; message_queue := message_queue w;
     outbox := outbox w; error_log := error_log w; ticks := ticks w |}.

Definition set_message_queue (q : list QueueItem) (w : World) : World :=
  {| db := db w; checkpoints := checkpoints w; message_queue := q;
     outbox := outbox w; error_log := error_log w; ticks := ticks w |}.

Definition set_outbox (o : list (string * string)) (w : World) : World :=
  {| db := db w; checkpoints := checkpoints w; message_queue := message_queue w;
     outbox := o; error_log := error_log w; ticks := ticks w |}.

Definition set_error_log (l : list LogRecord) (w : World) : World :=
  {| db := db w; checkpoints := checkpoints w; message_queue := message_queue w;
     outbox := outbox w; error_log := l; ticks := ticks w |}.

Definition set_ticks (n : nat) (w : World) : World :=
  {| db := db w; checkpoints := checkpoints w; message_queue := message_queue w;
     outbox := outbox w; error_log := error_log w; ticks := n |}.

(** The external collaborators.  Each answer may depend on the moment of the
    call, given as the number of external events before it. *)
Record Env : Type := {
  (** [datetime.now()] *)
  clock : nat -> datetime;
  (** [llm_with_tools.invoke]: patient, conversation id and transcript in,
      text and tool calls out *)
  llm : nat -> option Patient -> option Z -> list Msg -> result (string * list Json.value);
  (** one tool call run by the [ToolNode]: it may write to the store *)
  call_tool : nat -> Json.value -> Db -> Db * result string;
  (** the HTTP request of [send_message] *)
  channel : nat -> string -> string -> result unit;
  (** [CONVERSATION_TIMEOUT_MINUTES] *)
  interval_minutes : Z;
  (** the graph's step limit *)
  recursion_limit : nat;
}.

(** ** Computations: state passing with exceptions *)

(** A computation runs on the process state and ends with a value or a raised
    exception; what it wrote before raising stays written. *)
Definition M (A : Type) : Type := World -> World * result A.

#[global] Instance M_ret : MRet M := fun A a w => (w, Ok a).

#[global] Instance M_bind : MBind M := fun A B f m w =>
  match m w with
  | (w', Ok a) => f a w'
  | (w', Raise e) => (w', Raise e)
  end.

#[global] Instance M_throw : MThrow exn M := fun A e w => (w, Raise e).

Definition gets {A : Type} (f : World -> A) : M A := fun w => (w, Ok (f w)).

Definition modify (f : World -> World) : M unit := fun w => (f w, Ok tt).

Definition lift {A : Type} (r : result A) : M A := fun w => (w, r).

(** One more external event: its index. *)
Definition tick : M nat := fun w => (set_ticks (S (ticks w)) w, Ok (ticks w)).

(** ** app/agent.py: rehydration of a transcript from the stored log *)

(** The body of the loop over [history]: one stored entry appended to
    [history_messages] in its typed form.  [json.loads] raises on malformed
    text; a decoded value of the wrong shape makes the subscript or the
    message constructor raise.  An entry with any other sender is passed
    over: the [if]/[elif] chain has no [else]. *)
Definition rehydrate_entry (history_messages : list Msg) (msg : Message) : result (list Msg) :=
  if String.eqb (message_sender msg) "user" then
    Ok (history_messages ++ [HumanMessage (message_message msg)])
  else if String.eqb (message_sender msg) "agent" then
    Ok (history_messages ++ [AIMessage (message_message msg) []])
  else if String.eqb (message_sender msg) "agent_tool_call" then
    match Json.loads (message_message msg) with
    | None => Raise JSONDecodeError
    | Some (Json.Arr tool_calls) => Ok (history_messages ++ [AIMessage "" tool_calls])
    | Some _ => Raise ValidationError
    end
  else if String.eqb (message_sender msg) "tool" then
    match Json.loads (message_message msg) with
    | None => Raise JSONDecodeError
    | Some (Json.Obj tool_data) =>
        match Json.get "content" tool_data with
        | None => Raise (KeyError "content")
        | Some content =>
            match Json.get "tool_call_id" tool_data with
            | None => Raise (KeyError "tool_call_id")
            | Some tool_call_id =>
                match content, tool_call_id with
                | Json.Str c, Json.Str i => Ok (history_messages ++ [ToolMessage c i])
                | _, _ => Raise ValidationError
                end
            end
        end
    | Some _ => Raise TypeError
    end
  else Ok history_messages.

Fixpoint rehydrate_from (history : list Message) (history_messages : list Msg)
  : result (list Msg) :=
  match history with
  | [] => Ok history_messages
  | msg :: rest =>
      match rehydrate_entry history_messages msg with
      | Ok history_messages' => rehydrate_from rest history_messages'
      | Raise e => Raise e
      end
  end.

(** [history_messages = []], then the loop. *)
Definition rehydrate (history : list Message) : result (list Msg) :=
  rehydrate_from history [].

(** ** app/agent.py: the messages of the current turn *)

Definition is_human (msg : Msg) : bool :=
  match msg with HumanMessage _ => true | _ => false end.

Definition content_of (msg : Msg) : string :=
  match msg with
  | HumanMessage content => content
  | AIMessage content _ => content
  | ToolMessage content _ => content
  end.

Definition enumerate {A : Type} (l : list A) : list (nat * A) :=
  combine (seq 0 (List.length l)) l.

(** The loop with [break] over [reversed(list(enumerate(...)))]. *)
Fixpoint first_human (indexed : list (nat * Msg)) : Z :=
  match indexed with
  | [] => -1
  | (i, msg) :: rest => if is_human msg then Z.of_nat i else first_human rest
  end.

Definition last_human_message_index (response_messages : list Msg) : Z :=
  first_human (rev (enumerate response_messages)).

(** [response["messages"][last_human_message_index + 1:]] *)
Definition messages_this_turn (response_messages : list Msg) : list Msg :=
  drop (Z.to_nat (last_human_message_index response_messages + 1)) response_messages.

(** Python's truth value of a string and of a list. *)
Definition nonempty_string (s : string) : bool :=
  match s with EmptyString => false | String _ _ => true end.

Definition nonempty_list {A : Type} (l : list A) : bool :=
  match l with [] => false | _ :: _ => true end.

(** The JSON text stored for a tool result. *)
Definition tool_data (content tool_call_id : string) : Json.value :=
  Json.Obj [("content", Json.Str content); ("tool_call_id", Json.Str tool_call_id)].

(** [call["id"]] of a tool call. *)
Definition tool_call_id_of (call : Json.value) : string :=
  match call with
  | Json.Obj members =>
      match Json.get "id" members with Some (Json.Str s) => s | _ => "" end
  | _ => ""
  end.

Section Engine.

Context (E : Env).

(** [datetime.now()] *)
Definition now : M datetime := n ← tick; mret (clock E n).

(** *** The store, called from the process *)

(** A writing accessor of the store, run on the store of the process. *)
Definition on_db {A : Type} (f : Db -> Db * A) : M A :=
  fun w => let '(d', a) := f (db w) in (set_db d' w, Ok a).

Definition db_add_message (conversation_id' : Z) (sender message : string) : M Message :=
  now1 ← now;
  now2 ← now;
  on_db (add_message conversation_id' sender message now1 now2).

Definition db_create_patient (patient : Patient) : M Patient :=
  on_db (create_patient patient).

Definition db_create_conversation (patient_id' : option Z) : M Conversation :=
  now1 ← now;
  now2 ← now;
  on_db (create_conversation patient_id' now1 now2).

Definition db_close_conversation (conversation_id' : Z) (reason : string) : M unit :=
  t ← now;
  on_db (fun d => (close_conversation conversation_id' reason t d, tt)).

(** *** app/whatsapp.py: [send_message] *)

(** The request either goes through, and the message is out, or raises. *)
Definition send_message (phone_number message : string) : M unit :=
  n ← tick;
  match channel E n phone_number message with
  | Ok _ => modify (fun w => set_outbox (outbox w ++ [(phone_number, message)]) w)
  | Raise e => mthrow e
  end.

(** *** The checkpointer *)

(** [agent.aget_state]: a thread without a checkpoint has empty values. *)
Definition get_values (thread_id : Z) (w : World) : StateValues :=
  match checkpoints w !! thread_id with Some v => v | None => empty_values end.

Definition aget_state (thread_id : Z) : M StateValues := gets (get_values thread_id).

(** A write to the channels of a thread: the update is applied to the
    values the checkpointer holds at that moment. *)
Definition update_values (thread_id : Z) (f : StateValues -> StateValues) : M unit :=
  modify (fun w =>
    set_checkpoints (<[thread_id := f (get_values thread_id w)]> (checkpoints w)) w).

(** [checkpointer.delete_thread] *)
Definition delete_thread (thread_id : Z) : M unit :=
  modify (fun w => set_checkpoints (delete thread_id (checkpoints w)) w).

(** The [messages] channel appends what is written to it. *)
Definition add_messages (v : StateValues) (new : list Msg) : StateValues :=
  {| sv_messages := Some (messages_of v ++ new);
     sv_patient := sv_patient v;
     sv_conversation_id := sv_conversation_id v;
     sv_last_interaction_time := sv_last_interaction_time v |}.

(** [agent.aupdate_state(config, update_payload, START)] *)
Definition aupdate_state (thread_id : Z) (history_messages : list Msg)
  (patient : Patient) (conversation_id' : Z) : M unit :=
  update_values thread_id (fun state =>
    {| sv_messages := Some (messages_of state ++ history_messages);
       sv_patient := Some patient;
       sv_conversation_id := Some conversation_id';
       sv_last_interaction_time := sv_last_interaction_time state |}).

(** *** [create_graph]: the nodes and the edges *)

(** Node [assistant]: one call of the model on the patient context and the
    transcript; its answer is appended to the transcript. *)
Definition assistant (thread_id : Z) : M Msg :=
  state ← aget_state thread_id;
  n ← tick;
  '(content, tool_calls) ←
    lift (llm E n (sv_patient state) (sv_conversation_id state) (messages_of state));
  let response := AIMessage content tool_calls in
  update_values thread_id (fun state => add_messages state [response]);;
  mret response.

(** [tools_condition]: to the tools when the answer carries tool calls. *)
Definition tools_condition (response : Msg) : bool :=
  match response with
  | AIMessage _ tool_calls => nonempty_list tool_calls
  | _ => false
  end.

Definition tool_calls_of (response : Msg) : list Json.value :=
  match response with
  | AIMessage _ tool_calls => tool_calls
  | _ => []
  end.

(** One tool call: the executor runs on the store and answers with the
    payload, or fails. *)
Definition run_tool (call : Json.value) : M string :=
  n ← tick;
  outcome ← on_db (call_tool E n call);
  lift outcome.

Fixpoint run_tools (calls : list Json.value) : M (list Msg) :=
  match calls with
  | [] => mret []
  | call :: rest =>
      content ← run_tool call;
      outcomes ← run_tools rest;
      mret (ToolMessage content (tool_call_id_of call) :: outcomes)
  end.

(** Node [tools]: one tool message per requested call, appended in order. *)
Definition tools (thread_id : Z) (calls : list Json.value) : M unit :=
  outcomes ← run_tools calls;
  update_values thread_id (fun state => add_messages state outcomes).

(** Node [update_timestamp] *)
Definition update_timestamp_node (thread_id : Z) : M unit :=
  t ← now;
  update_values thread_id (fun state =>
    {| sv_messages := sv_messages state;
       sv_patient := sv_patient state;
       sv_conversation_id := sv_conversation_id state;
       sv_last_interaction_time := Some t |}).

(** START -> assistant -> (tools -> assistant)* -> update_timestamp -> END,
    at most [steps] visits of [assistant]. *)
Fixpoint run_graph (steps : nat) (thread_id : Z) : M unit :=
  match steps with
  | O => mthrow GraphRecursionError
  | S steps' =>
      response ← assistant thread_id;
      if tools_condition response then
        tools thread_id (tool_calls_of response);;
        run_graph steps' thread_id
      else update_timestamp_node thread_id
  end.

(** [agent.ainvoke({"messages": [...]}, config)]: the final state values. *)
Definition ainvoke (thread_id : Z) (input : list Msg) : M StateValues :=
  update_values thread_id (fun state => add_messages state input);;
  run_graph (recursion_limit E) thread_id;;
  aget_state thread_id.

(** *** [enqueue_message] *)

Definition enqueue_message (patient_phone message : string) : M unit :=
  d ← gets db;
  patient ←
    match get_patient_by_phone patient_phone d with
    | Some p => mret p
    | None =>
        db_create_patient
          {| patient_id := None; patient_name := "New Patient"; patient_age := None;
             patient_gender := None; patient_phone_number := patient_phone |}
    end;
  d ← gets db;
  conversation ←
    match get_open_conversation (patient_id patient) d with
    | Some c => mret c
    | None => db_create_conversation (patient_id patient)
    end;
  timestamp ← now;
  modify (fun w =>
    set_message_queue
      (message_queue w ++
         [{| qi_conversation_id := conversation_id conversation;
             qi_patient := patient;
             qi_message := message;
             qi_timestamp := timestamp |}]) w).

(** *** [consume_messages] *)

(** The body of the loop over [messages_this_turn]. *)
Definition save_generated (conversation_id' : Z) (patient_phone_for_reply : string)
  (msg : Msg) : M unit :=
  match msg with
  | AIMessage content tool_calls =>
      if nonempty_list tool_calls then
        db_add_message conversation_id' "agent_tool_call" (Json.dumps (Json.Arr tool_calls));;
        mret tt
      else if nonempty_string content then
        db_add_message conversation_id' "agent" content;;
        send_message patient_phone_for_reply content
      else mret tt
  | ToolMessage content tool_call_id =>
      db_add_message conversation_id' "tool" (Json.dumps (tool_data content tool_call_id));;
      mret tt
  | HumanMessage _ => mret tt
  end.

Fixpoint save_turn (conversation_id' : Z) (patient_phone_for_reply : string)
  (msgs : list Msg) : M unit :=
  match msgs with
  | [] => mret tt
  | msg :: rest =>
      save_generated conversation_id' patient_phone_for_reply msg;;
      save_turn conversation_id' patient_phone_for_reply rest
  end.

(** What the worker does with [response["messages"]]. *)
Definition process_response (conversation_id' : Z) (patient_phone_for_reply : string)
  (response_messages : list Msg) : M unit :=
  if negb (Z.eqb (last_human_message_index response_messages) (-1)) then
    save_turn conversation_id' patient_phone_for_reply (messages_this_turn response_messages)
  else
    match last response_messages with
    | None => mthrow IndexError
    | Some msg =>
        let reply := content_of msg in
        db_add_message conversation_id' "agent" reply;;
        send_message patient_phone_for_reply reply
    end.

(** The state is loaded from the store when the checkpoint has no messages. *)
Definition load_history (conversation_id' : Z) (patient : Patient) : M unit :=
  current_state ← aget_state conversation_id';
  if negb (nonempty_list (messages_of current_state)) then
    history ← gets (fun w => get_messages conversation_id' (db w));
    history_messages ← lift (rehydrate history);
    aupdate_state conversation_id' history_messages patient conversation_id'
  else mret tt.

(** The [try] block of one iteration. *)
Definition process_item (task : QueueItem) : M unit :=
  let conversation_id' := qi_conversation_id task in
  let patient := qi_patient task in
  let message := qi_message task in
  let patient_phone_for_reply := patient_phone_number patient in
  load_history conversation_id' patient;;
  db_add_message conversation_id' "user" message;;
  response ← ainvoke conversation_id' [HumanMessage message];
  process_response conversation_id' patient_phone_for_reply (messages_of response).

(** One iteration of [while True]: [None] while the queue is empty (the
    worker waits in [message_queue.get()]); otherwise the item is taken, the
    [try] block run, and an exception logged with the conversation id. *)
Definition consume_one (w : World) : option World :=
  match message_queue w with
  | [] => None
  | task :: rest =>
      let '(w', outcome) := process_item task (set_message_queue rest w) in
      match outcome with
      | Ok _ => Some w'
      | Raise e =>
          Some (set_error_log (error_log w' ++ [AgentError (qi_conversation_id task) e]) w')
      end
  end.

(** [n] iterations, stopping early where the worker would wait. *)
Fixpoint consume_messages (n : nat) (w : World) : World :=
  match n with
  | O => w
  | S n' =>
      match consume_one w with
      | Some w' => consume_messages n' w'
      | None => w
      end
  end.

(** *** [conversation_cleanup_task] *)

(** The idle threshold, in microseconds. *)
Definition idle_threshold : Z := interval_minutes E * 60 * 1000000.

(** The body of the loop over [all_thread_ids].  The state snapshot itself
    is never [None] and the stored times are [datetime] values, so the tests
    on [state] and the [fromisoformat] branch do not show; none of the
    modelled operations raises, so neither does the [try] around the loop. *)
Definition cleanup_thread (thread_id : Z) : M unit :=
  state ← aget_state thread_id;
  let lingering : M unit :=
    if negb (values_truthy state) then delete_thread thread_id else mret tt in
  match sv_last_interaction_time state with
  | Some last_interaction =>
      if values_truthy state then
        now' ← now;
        if Z.ltb idle_threshold (now' - last_interaction) then
          conversation ← gets (fun w => get_conversation thread_id (db w));
          match conversation with
          | Some c =>
              if String.eqb (conversation_status c) "open"
              then db_close_conversation thread_id "timed_out"
              else mret tt
          | None => mret tt
          end;;
          delete_thread thread_id
        else mret tt
      else lingering
  | None => lingering
  end.

Fixpoint cleanup_threads (thread_ids : list Z) : M unit :=
  match thread_ids with
  | [] => mret tt
  | thread_id :: rest => cleanup_thread thread_id;; cleanup_threads rest
  end.

(** The thread ids the checkpointer lists, gathered in a set. *)
Definition all_thread_ids (w : World) : list Z := elements (dom (checkpoints w)).

(** One cycle of the sweep, after its sleep. *)
Definition conversation_cleanup_cycle : M unit :=
  thread_ids ← gets all_thread_ids;
  if nonempty_list thread_ids then cleanup_threads thread_ids else mret tt.

(** *** The process as a whole *)

(** What can happen next: a webhook enqueues a message, the worker runs one
    iteration, or the sweep runs one cycle. *)
Inductive Event : Type :=
| EvEnqueue (patient_phone message : string)
| EvConsume
| EvSweep.

Definition step (ev : Event) (w : World) : World :=
  match ev with
  | EvEnqueue patient_phone message => fst (enqueue_message patient_phone message w)
  | EvConsume => match consume_one w with Some w' => w' | None => w end
  | EvSweep => fst (conversation_cleanup_cycle w)
  end.

Definition run (evs : list Event) (w : World) : World :=
  fold_left (fun w ev => step ev w) evs w.

End Engine.

(** ** Properties of states and traces *)

(** A computation keeps a relation between the state it starts from and the
    state it leaves, whether it ends with a value or an exception. *)
Definition preserves {A : Type} (R : World -> World -> Prop) (m : M A) : Prop :=
  forall w, R w (fst (m w)).

(** The tools of the MCP server write patients, appointments and
    conversations, never the message log. *)
Definition tools_keep_messages (E : Env) : Prop :=
  forall n call d,
    messages (fst (call_tool E n call d)) = messages d /\
    messages_seq (fst (call_tool E n call d)) = messages_seq d.

(** Later readings of the clock are later times. *)
Definition clock_increasing (E : Env) : Prop :=
  forall i j, (i < j)%nat -> clock E i < clock E j.

(** Every stored message is older than the next reading of the clock. *)
Definition timely (E : Env) (w : World) : Prop :=
  Forall (fun m => message_created_at m < clock E (ticks w)) (messages (db w)).

(** What a turn never touches: the queue and the error log. *)
Definition same_queue (w w' : World) : Prop :=
  message_queue w' = message_queue w /\ error_log w' = error_log w.

(** Nothing is stored in the message log and nothing is sent; time moves on. *)
Definition quiet (w w' : World) : Prop :=
  messages (db w') = messages (db w) /\ outbox w' = outbox w /\
  (ticks w <= ticks w')%nat.

(** The message log only grows, by rows of conversation [c]. *)
Definition log_grows (c : Z) (w w' : World) : Prop :=
  exists rows, messages (db w') = messages (db w) ++ rows /\
               Forall (fun m => message_conversation_id m = c) rows.

(** The checkpoints are left as they are; time moves on. *)
Definition same_checkpoints (w w' : World) : Prop :=
  checkpoints w' = checkpoints w /\ (ticks w <= ticks w')%nat.

(** The transcript of thread [c] only grows, and not by user turns. *)
Definition transcript_grows (c : Z) (w w' : World) : Prop :=
  exists generated,
    messages_of (get_values c w') = messages_of (get_values c w) ++ generated /\
    Forall (fun msg => is_human msg = false) generated.

(** The rows added to the log with sender [agent], and the messages sent,
    all carry a text for which [P] holds. *)
Definition speaks (P : string -> Prop) (w w' : World) : Prop :=
  exists rows sends,
    messages (db w') = messages (db w) ++ rows /\
    outbox w' = outbox w ++ sends /\
    Forall (fun m => message_sender m = "agent" -> P (message_message m)) rows /\
    Forall (fun s => P (snd s)) sends.

(** What the sweep can change for a thread: its checkpoint and the stored
    conversation of the same id. *)
Definition view (thread_id : Z) (w : World) : option StateValues * option Conversation :=
  (checkpoints w !! thread_id, get_conversation thread_id (db w)).

(** Work on other threads leaves the view of [thread_id] as it is, and time
    only moves forward. *)
Definition frame (thread_id : Z) (w w' : World) : Prop :=
  view thread_id w' = view thread_id w /\ (ticks w <= ticks w')%nat.

(** The order of [ORDER BY created_at]. *)
Definition created_le (a b : Message) : Prop :=
  message_created_at a <= message_created_at b.

(** The stored log of [c] rehydrates to [transcript], and was written in
    time. *)
Definition logged (E : Env) (c : Z) (w : World) (transcript : list Msg) : Prop :=
  rehydrate (get_messages c (db w)) = Ok transcript /\ timely E w.

(** The texts a turn sends: those of its assistant messages that carry a
    text and no tool call, in order. *)
Fixpoint replies (msgs : list Msg) : list string :=
  match msgs with
  | [] => []
  | AIMessage (String ch content) [] :: rest => String ch content :: replies rest
  | _ :: rest => replies rest
  end.

(** The invariant of the intake path: no patient with two open conversations. *)
Definition one_open_per_patient (d : Db) : Prop :=
  forall pid : Z,
    (List.length (List.filter (is_open_for (Some pid)) (conversations d)) <= 1)%nat.

(** An assistant message the log can hold as it is: tool calls and no text,
    or text and no tool call. *)
Definition faithful (msg : Msg) : Prop :=
  match msg with
  | AIMessage content tool_calls =>
      (tool_calls <> [] /\ content = EmptyString) \/
      (tool_calls = [] /\ content <> EmptyString)
  | _ => True
  end.

(** The items a trace puts on the queue, in the order it puts them. *)
Fixpoint trace_enqueued (E : Env) (evs : list Event) (w : World) : list QueueItem :=
  match evs with
  | [] => []
  | ev :: rest =>
      match ev with
      | EvEnqueue _ _ =>
          drop (List.length (message_queue w)) (message_queue (step E ev w))
      | _ => []
      end ++ trace_enqueued E rest (step E ev w)
  end.

(** The turns a trace runs, in the order it runs them: the item taken and the
    rows the turn added to the message log. *)
Fixpoint trace_turns (E : Env) (evs : list Event) (w : World)
  : list (QueueItem * list Message) :=
  match evs with
  | [] => []
  | ev :: rest =>
      match ev, message_queue w with
      | EvConsume, task :: _ =>
          [(task, drop (List.length (messages (db w))) (messages (db (step E ev w))))]
      | _, _ => []
      end ++ trace_turns E rest (step E ev w)
  end.

(** *** The mapping of stored entries to transcript turns, in the spec's words *)

Inductive SenderKind : Type :=
| KindUser              (* user *)
| KindAgentText         (* agent_text *)
| KindAgentToolRequest  (* agent_tool_request *)
| KindToolResult.       (* tool_result *)

(** The sender strings the store holds for the four kinds. *)
Definition sender_kind (sender : string) : option SenderKind :=
  if String.eqb sender "user" then Some KindUser
  else if String.eqb sender "agent" then Some KindAgentText
  else if String.eqb sender "agent_tool_call" then Some KindAgentToolRequest
  else if String.eqb sender "tool" then Some KindToolResult
  else None.

(** The invocation list of a tool request, deserialized. *)
Definition decode_invocations (payload : string) : result (list Json.value) :=
  match Json.loads payload with
  | None => Raise JSONDecodeError
  | Some (Json.Arr calls) => Ok calls
  | Some _ => Raise ValidationError
  end.

(** The call id and the payload of a tool result, deserialized. *)
Definition decode_outcome (payload : string) : result (string * string) :=
  match Json.loads payload with
  | None => Raise JSONDecodeError
  | Some (Json.Obj members) =>
      match Json.get "content" members, Json.get "tool_call_id" members with
      | None, _ => Raise (KeyError "content")
      | Some _, None => Raise (KeyError "tool_call_id")
      | Some (Json.Str c), Some (Json.Str i) => Ok (c, i)
      | Some _, Some _ => Raise ValidationError
      end
  | Some _ => Raise TypeError
  end.

(** user -> user turn, agent_text -> assistant text turn, agent_tool_request
    -> assistant tool-call turn, tool_result -> tool-outcome turn. *)
Definition typed_form (entry : Message) : result (option Msg) :=
  match sender_kind (message_sender entry) with
  | Some KindUser => Ok (Some (HumanMessage (message_message entry)))
  | Some KindAgentText => Ok (Some (AIMessage (message_message entry) []))
  | Some KindAgentToolRequest =>
      match decode_invocations (message_message entry) with
      | Ok calls => Ok (Some (AIMessage "" calls))
      | Raise e => Raise e
      end
  | Some KindToolResult =>
      match decode_outcome (message_message entry) with
      | Ok (c, i) => Ok (Some (ToolMessage c i))
      | Raise e => Raise e
      end
  | None => Ok None
  end.

(** The typed forms of a log, entry by entry and in the log's order; the
    first entry that does not deserialize decides the outcome. *)
Fixpoint typed_transcript (log : list Message) : result (list Msg) :=
  match log with
  | [] => Ok []
  | entry :: rest =>
      match typed_form entry with
      | Raise e => Raise e
      | Ok turn =>
          match typed_transcript rest with
          | Raise e => Raise e
          | Ok turns => Ok (match turn with Some t => t :: turns | None => turns end)
          end
      end
  end.

(** ** Sample collaborators and states *)

Definition list_dentists_call : Json.value :=
  Json.Obj [("name", Json.Str "list_dentists"); ("args", Json.Obj []);
            ("id", Json.Str "call_1"); ("type", Json.Str "tool_call")].

(** A model that asks for a tool on "book", fails on "boom", says nothing on
    "mute", answers a tool result with "done" and anything else with "hello". *)
Definition scripted_llm (n : nat) (p : option Patient) (c : option Z) (msgs : list Msg)
  : result (string * list Json.value) :=
  match last msgs with
  | Some (HumanMessage "book") => Ok (EmptyString, [list_dentists_call])
  | Some (HumanMessage "check") => Ok ("Let me check", [list_dentists_call])
  | Some (HumanMessage "boom") => Raise (ExternalError "model unreachable")
  | Some (HumanMessage "mute") => Ok (EmptyString, [])
  | Some (ToolMessage _ _) => Ok ("done", [])
  | _ => Ok ("hello", [])
  end.

Definition sample_env : Env :=
  {| clock := fun n => 1000000000 * Z.of_nat n;
     llm := scripted_llm;
     call_tool := fun _ _ d => (d, Ok "5 dentists");
     channel := fun _ _ _ => Ok tt;
     interval_minutes := 30;
     recursion_limit := 25 |}.

Definition empty_db : Db :=
  {| patients := []; patients_seq := 0; conversations := []; conversations_seq := 0;
     messages := []; messages_seq := 0 |}.

Definition empty_world : World :=
  {| db := empty_db; checkpoints := ∅; message_queue := []; outbox := [];
     error_log := []; ticks := 0 |}.

Definition sample_patient : Patient :=
  {| patient_id := Some 1; patient_name := "New Patient"; patient_age := None;
     patient_gender := None; patient_phone_number := "+1555" |}.

Definition other_patient : Patient :=
  {| patient_id := Some 2; patient_name := "New Patient"; patient_age := None;
     patient_gender := None; patient_phone_number := "+1666" |}.

Definition sample_conversation (status : string) : Conversation :=
  {| conversation_id := 1; conversation_patient_id := Some 1;
     conversation_status := status; conversation_started_at := 0;
     conversation_ended_at := None; conversation_closed_reason := None |}.

Definition other_conversation : Conversation :=
  {| conversation_id := 2; conversation_patient_id := Some 2;
     conversation_status := "open"; conversation_started_at := 0;
     conversation_ended_at := None; conversation_closed_reason := None |}.

Definition sample_entry (id : Z) (sender text : string) : Message :=
  {| message_id := id; message_conversation_id := 1; message_sender := sender;
     message_message := text; message_created_at := id |}.

(** A store whose log of conversation 1 holds one tool result that is no
    JSON; conversation 2 has no history. *)
Definition corrupt_db : Db :=
  {| patients := [sample_patient; other_patient]; patients_seq := 2;
     conversations := [sample_conversation "open"; other_conversation];
     conversations_seq := 2;
     messages := [sample_entry 1 "user" "hi"; sample_entry 2 "tool" "{oops";
                  sample_entry 3 "agent" "hello"];
     messages_seq := 3 |}.

Definition sample_item (text : string) : QueueItem :=
  {| qi_conversation_id := 1; qi_patient := sample_patient; qi_message := text;
     qi_timestamp := 0 |}.

Definition other_item (text : string) : QueueItem :=
  {| qi_conversation_id := 2; qi_patient := other_patient; qi_message := text;
     qi_timestamp := 0 |}.

(** After a restart: the corrupt store, no checkpoint, two messages waiting,
    the first for conversation 1 and the second for conversation 2. *)
Definition corrupt_world : World :=
  {| db := corrupt_db; checkpoints := ∅;
     message_queue := [sample_item "again"; other_item "hi"];
     outbox := []; error_log := []; ticks := 10 |}.

(** A store with the log of one finished exchange, and no checkpoint. *)
Definition restart_world : World :=
  {| db := {| patients := [sample_patient]; patients_seq := 1;
              conversations := [sample_conversation "open"]; conversations_seq := 1;
              messages := [sample_entry 1 "user" "hi"; sample_entry 2 "agent" "hello"];
              messages_seq := 2 |};
     checkpoints := ∅; message_queue := []; outbox := []; error_log := [];
     ticks := 1 |}.

(** A checkpoint a failed turn left behind: a transcript, no interaction time. *)
Definition lingering_values : StateValues :=
  {| sv_messages := Some [HumanMessage "boom"]; sv_patient := Some sample_patient;
     sv_conversation_id := Some 1; sv_last_interaction_time := None |}.

Definition idle_values : StateValues :=
  {| sv_messages := Some [HumanMessage "hi"; AIMessage "hello" []];
     sv_patient := Some sample_patient;
     sv_conversation_id := Some 1; sv_last_interaction_time := Some 0 |}.

Definition sweep_world (v : StateValues) (status : string) : World :=
  {| db := {| patients := [sample_patient]; patients_seq := 1;
              conversations := [sample_conversation status]; conversations_seq := 1;
              messages := []; messages_seq := 0 |};
     checkpoints := {[ 1 := v ]}; message_queue := []; outbox := [];
     error_log := []; ticks := 2 |}.

(** ** Further properties of the engine: what they are stated with *)

(** What a sweep cycle that starts in [w] may do to a stored conversation:
    nothing, or close it as timed out, which it does only to an open
    conversation whose thread has a checkpoint. *)
Definition swept (w : World) (c c' : Conversation) : Prop :=
  c' = c \/
  (conversation_status c = "open" /\
   is_Some (checkpoints w !! conversation_id c) /\
   exists t, c' = close_row (conversation_id c) "timed_out" t c).

(** The primary key of the conversations table. *)
Definition conversation_ids_unique (d : Db) : Prop :=
  NoDup (map conversation_id (conversations d)).

(** The thread of [c] keeps its patient context. *)
Definition same_context (c : Z) (w w' : World) : Prop :=
  sv_patient (get_values c w') = sv_patient (get_values c w) /\
  sv_conversation_id (get_values c w') = sv_conversation_id (get_values c w).

(** The checkpoint of thread [c] is left as it is. *)
Definition same_thread (c : Z) (w w' : World) : Prop :=
  checkpoints w' !! c = checkpoints w !! c.

(** A checkpoint whose last interaction is the clock's reading number 1. *)
Definition active_values : StateValues :=
  {| sv_messages := Some [HumanMessage "hi"; AIMessage "hello" []];
     sv_patient := Some sample_patient;
     sv_conversation_id := Some 1; sv_last_interaction_time := Some 1000000000 |}.

(** The collaborators of [sample_env], with a model that cannot be reached. *)
Definition offline_env : Env :=
  {| clock := clock sample_env;
     llm := fun _ _ _ _ => Raise (ExternalError "model unreachable");
     call_tool := call_tool sample_env;
     channel := channel sample_env;
     interval_minutes := interval_minutes sample_env;
     recursion_limit := recursion_limit sample_env |}.

(** Time does not go back: the count of external events only grows. *)
Definition later (w w' : World) : Prop := (ticks w <= ticks w')%nat.

(** The collaborators of [sample_env], with an outbound channel that is down. *)
Definition undelivered_env : Env :=
  {| clock := clock sample_env;
     llm := llm sample_env;
     call_tool := call_tool sample_env;
     channel := fun _ _ _ => Raise (HTTPException 500);
     interval_minutes := interval_minutes sample_env;
     recursion_limit := recursion_limit sample_env |}.

(** ** shared/db.py: the other accessors of the three tables *)

(** [get_patient] *)
Definition get_patient (patient_id' : Z) (d : Db) : option Patient :=
  List.find (fun p => sql_eq (patient_id p) (Some patient_id')) (patients d).

(** [get_all_open_conversations] *)
Definition get_all_open_conversations (d : Db) : list Conversation :=
  List.filter (fun c => String.eqb (conversation_status c) "open") (conversations d).

(** [ORDER BY created_at DESC LIMIT 1] on the column [created_at] alone: the
    latest time of the rows. *)
Fixpoint latest_created_at (rows : list Message) : option datetime :=
  match rows with
  | [] => None
  | m :: rest =>
      match latest_created_at rest with
      | Some t => Some (Z.max (message_created_at m) t)
      | None => Some (message_created_at m)
      end
  end.

(** [get_last_message_time] *)
Definition get_last_message_time (conversation_id' : Z) (d : Db) : option datetime :=
  latest_created_at
    (List.filter (fun m => Z.eqb (message_conversation_id m) conversation_id') (messages d)).

(** [ORDER BY m.created_at DESC LIMIT 1] on whole rows: a row with the
    latest time, the first one met when several share it. *)
Fixpoint latest_message (rows : list Message) : option Message :=
  match rows with
  | [] => None
  | m :: rest =>
      match latest_message rest with
      | Some m' =>
          if Z.ltb (message_created_at m) (message_created_at m') then Some m' else Some m
      | None => Some m
      end
  end.

(** [FROM messages m JOIN conversations c ON m.conversation_id = c.id
    WHERE c.patient_id=?]: one row for every pair of a message and a
    conversation that match. *)
Definition messages_of_patient (patient_id' : Z) (d : Db) : list Message :=
  m ← messages d;
  c ← List.filter (fun c => Z.eqb (message_conversation_id m) (conversation_id c))
         (conversations d);
  if sql_eq (conversation_patient_id c) (Some patient_id') then [m] else [].

(** [get_last_message_for_patient] *)
Definition get_last_message_for_patient (patient_id' : Z) (d : Db) : option Message :=
  latest_message (messages_of_patient patient_id' d).

(** What [AUTOINCREMENT] and the primary keys give: every row has an id, no
    two rows of a table share one, and none is past the last one handed out. *)
Definition keys_ok {A : Type} (key : A -> option Z) (rows : list A) (seq : Z) : Prop :=
  NoDup (map key rows) /\
  Forall (fun r => exists id, key r = Some id /\ id <= seq) rows.

Definition db_ok (d : Db) : Prop :=
  keys_ok patient_id (patients d) (patients_seq d) /\
  keys_ok (fun c => Some (conversation_id c)) (conversations d) (conversations_seq d) /\
  keys_ok (fun m => Some (message_id m)) (messages d) (messages_seq d).
(** * Facts *)

(** ** The JSON codec: decoding what was encoded gives the value back *)

Module JsonFacts.
Import Json.

Lemma skip_ws_idem s : skip_ws (skip_ws s) = skip_ws s.
Proof.
  induction s as [|c r IH]; simpl; [done|].
  destruct (is_ws c) eqn:E; [done|]. simpl. by rewrite E.
Qed.

Lemma parse_value_skip f s : parse_value f (skip_ws s) = parse_value f s.
Proof. destruct f; simpl; [done|]. by rewrite skip_ws_idem. Qed.

Lemma parse_items_skip f s : parse_items f (skip_ws s) = parse_items f s.
Proof. destruct f; simpl; [done|]. by rewrite parse_value_skip. Qed.

Lemma parse_members_skip f s : parse_members f (skip_ws s) = parse_members f s.
Proof. destruct f; simpl; [done|]. by rewrite skip_ws_idem. Qed.

(** *** Strings *)

Lemma unhex_hex n : unhex (hex n) = Some n.
Proof. by destruct n as [[[[] []] []] []]. Qed.

Lemma unhex4_hex n1 n2 n3 n4 :
  unhex4 (hex n1) (hex n2) (hex n3) (hex n4) = Some (n1, n2, n3, n4).
Proof. unfold unhex4. by rewrite !unhex_hex. Qed.

(** One step of the decoder on an escape that is not the first half of a
    pair. *)
Lemma parse_chars_unit u tail :
  is_high_surrogate u = false ->
  parse_chars (u_escape u ++ tail) = decoded (utf8_unit u) (parse_chars tail).
Proof.
  intros Hu. destruct u as [[[n1 n2] n3] n4].
  change (parse_chars (u_escape (n1, n2, n3, n4) ++ tail))
    with (match unhex4 (hex n1) (hex n2) (hex n3) (hex n4) with
          | Some u =>
              let alone := decoded (utf8_unit u) (parse_chars tail) in
              if is_high_surrogate u then
                match tail with
                | b :: r5 =>
                    if Ascii.eqb b bs then
                      match r5 with
                      | u' :: r6 =>
                          if Ascii.eqb u' "u" then
                            match r6 with
                            | k1 :: k2 :: k3 :: k4 :: r10 =>
                                match unhex4 k1 k2 k3 k4 with
                                | Some u2 =>
                                    if is_low_surrogate u2
                                    then decoded (utf8_pair u u2) (parse_chars r10)
                                    else alone
                                | None => None
                                end
                            | _ => None
                            end
                          else alone
                      | [] => alone
                      end
                    else alone
                | [] => alone
                end
              else alone
          | None => None
          end).
  rewrite unhex4_hex. cbv zeta. by rewrite Hu.
Qed.

(** One step of the decoder on a surrogate pair. *)
Lemma parse_chars_pair hi lo tail :
  is_high_surrogate hi = true -> is_low_surrogate lo = true ->
  parse_chars (u_escape hi ++ u_escape lo ++ tail)
  = decoded (utf8_pair hi lo) (parse_chars tail).
Proof.
  intros Hhi Hlo. destruct hi as [[[n1 n2] n3] n4], lo as [[[m1 m2] m3] m4].
  change (parse_chars (u_escape (n1, n2, n3, n4) ++ u_escape (m1, m2, m3, m4) ++ tail))
    with (match unhex4 (hex n1) (hex n2) (hex n3) (hex n4) with
          | Some u =>
              let alone :=
                decoded (utf8_unit u)
                  (parse_chars (u_escape (m1, m2, m3, m4) ++ tail)) in
              if is_high_surrogate u then
                match unhex4 (hex m1) (hex m2) (hex m3) (hex m4) with
                | Some u2 =>
                    if is_low_surrogate u2
                    then decoded (utf8_pair u u2) (parse_chars tail)
                    else alone
                | None => None
                end
              else alone
          | None => None
          end).
  rewrite !unhex4_hex. cbv zeta. by rewrite Hhi, Hlo.
Qed.

(** One step of the decoder on a byte written on its own. *)
Lemma parse_chars_byte c tail :
  parse_chars (escape_byte c ++ tail) = decoded [c] (parse_chars tail).
Proof.
  destruct c as [[] [] [] [] [] [] [] []]; reflexivity.
Qed.

Lemma utf8_2_spec c1 c2 u :
  utf8_2 c1 c2 = Some u -> is_high_surrogate u = false /\ utf8_unit u = [c1; c2].
Proof.
  destruct c1 as [x0 x1 x2 x3 x4 [] [] []], c2 as [y0 y1 y2 y3 y4 y5 [] []];
    try discriminate.
  destruct x1, x2, x3, x4; try discriminate; intros [= <-]; by split.
Qed.

Lemma utf8_3_spec c1 c2 c3 u :
  utf8_3 c1 c2 c3 = Some u -> is_high_surrogate u = false /\ utf8_unit u = [c1; c2; c3].
Proof.
  destruct c1 as [z0 z1 z2 z3 [] [] [] []], c2 as [x0 x1 x2 x3 x4 x5 [] []],
    c3 as [y0 y1 y2 y3 y4 y5 [] []]; try discriminate.
  destruct z0, z1, z2, z3, x5; try discriminate; intros [= <-]; by split.
Qed.

Lemma utf8_4_spec c1 c2 c3 c4 hi lo :
  utf8_4 c1 c2 c3 c4 = Some (hi, lo) ->
  is_high_surrogate hi = true /\ is_low_surrogate lo = true /\
  utf8_pair hi lo = [c1; c2; c3; c4].
Proof.
  destruct c1 as [u2 u3 u4 [] [] [] [] []], c2 as [z0 z1 z2 z3 u0 u1 [] []],
    c3 as [x0 x1 x2 x3 x4 x5 [] []], c4 as [y0 y1 y2 y3 y4 y5 [] []];
    try discriminate.
  destruct u0, u1, u2, u3, u4; try discriminate; intros [= <- <-]; by repeat split.
Qed.

Lemma escape_unfold c1 r1 :
  escape (String c1 r1)
  = let single := escape_byte c1 ++ escape r1 in
    match r1 with
    | String c2 r2 =>
        match utf8_2 c1 c2 with
        | Some u => u_escape u ++ escape r2
        | None =>
            match r2 with
            | String c3 r3 =>
                match utf8_3 c1 c2 c3 with
                | Some u => u_escape u ++ escape r3
                | None =>
                    match r3 with
                    | String c4 r4 =>
                        match utf8_4 c1 c2 c3 c4 with
                        | Some (hi, lo) => u_escape hi ++ u_escape lo ++ escape r4
                        | None => single
                        end
                    | EmptyString => single
                    end
                end
            | EmptyString => single
            end
        end
    | EmptyString => single
    end.
Proof. reflexivity. Qed.

Lemma parse_chars_escape s rest :
  parse_chars (escape s ++ dq :: rest) = Some (s, rest).
Proof.
  remember (String.length s) as n eqn:Hn.
  assert (Hle : (String.length s <= n)%nat) by lia. clear Hn.
  revert s Hle. induction n as [|n IH]; intros s Hle.
  { destruct s; [done|simpl in Hle; lia]. }
  destruct s as [|c1 r1]; [done|].
  assert (Hsingle : parse_chars ((escape_byte c1 ++ escape r1) ++ dq :: rest)
                    = Some (String c1 r1, rest)).
  { rewrite <- app_assoc, parse_chars_byte, IH; [done|simpl in Hle; lia]. }
  rewrite escape_unfold. cbv zeta.
  destruct r1 as [|c2 r2]; [exact Hsingle|].
  destruct (utf8_2 c1 c2) as [u|] eqn:H2.
  { apply utf8_2_spec in H2 as [Hu Hb].
    rewrite <- app_assoc, parse_chars_unit, Hb, IH; [done|simpl in Hle; lia|done]. }
  destruct r2 as [|c3 r3]; [exact Hsingle|].
  destruct (utf8_3 c1 c2 c3) as [u|] eqn:H3.
  { apply utf8_3_spec in H3 as [Hu Hb].
    rewrite <- app_assoc, parse_chars_unit, Hb, IH; [done|simpl in Hle; lia|done]. }
  destruct r3 as [|c4 r4]; [exact Hsingle|].
  destruct (utf8_4 c1 c2 c3 c4) as [[hi lo]|] eqn:H4; [|exact Hsingle].
  apply utf8_4_spec in H4 as (Hhi & Hlo & Hb).
  rewrite <- !app_assoc, parse_chars_pair, Hb, IH; [done|simpl in Hle; lia|done|done].
Qed.

(** *** Numbers *)

Lemma is_stop_spec c :
  is_stop c = true ->
  char_digit c = None /\ Ascii.eqb c "." = false /\ Ascii.eqb c "e" = false /\
  Ascii.eqb c "E" = false.
Proof.
  destruct c as [[] [] [] [] [] [] [] []]; vm_compute; intros H;
    first [discriminate H | repeat split].
Qed.

Lemma char_digit_char d : char_digit (digit_char d) = Some d.
Proof. by destruct d. Qed.

Lemma span_digits_print ds rest :
  ends rest -> span_digits (print_digits ds ++ rest) = (ds, rest).
Proof.
  intros Hr. induction ds as [|d ds IH]; simpl.
  - destruct rest as [|c r]; [done|]. simpl in *. by rewrite Hr.
  - by rewrite char_digit_char, IH.
Qed.

Lemma uint_of_digits_of_uint u : uint_of_digits (digits_of_uint u) = u.
Proof. induction u; simpl; by rewrite ?IHu. Qed.

(** The decimal writing of a natural number has no leading zero. *)
Lemma to_uint_head n :
  N.to_uint n = Decimal.D0 Decimal.Nil \/
  exists d ds, digits_of_uint (N.to_uint n) = d :: ds /\ d <> d0.
Proof.
  pose proof (DecimalN.Unsigned.to_of (N.to_uint n)) as H.
  rewrite DecimalN.Unsigned.of_to in H. unfold Decimal.unorm in H.
  pose proof (DecimalFacts.nzhead_nonzero (N.to_uint n)) as Hnz.
  destruct (Decimal.nzhead (N.to_uint n)) eqn:E; rewrite H;
    first [by left | right; simpl; eexists _, _; by split | idtac].
  exfalso. by eapply Hnz.
Qed.

Lemma scan_int_print n rest :
  ends rest -> scan_int (print_N n ++ rest) = Some (n, rest).
Proof.
  intros Hr. unfold print_N.
  destruct (to_uint_head n) as [H0|(d & ds & Hd & Hne)].
  - rewrite H0. simpl.
    rewrite <- (DecimalN.Unsigned.of_to n), H0. done.
  - pose proof (uint_of_digits_of_uint (N.to_uint n)) as Hu.
    rewrite Hd in *. cbn [print_digits map app scan_int].
    rewrite char_digit_char.
    change (map digit_char ds) with (print_digits ds).
    rewrite span_digits_print by done.
    rewrite Hu, DecimalN.Unsigned.of_to. by destruct d.
Qed.

Lemma scan_frac_stop rest : stop rest -> scan_frac rest = None.
Proof.
  destruct rest as [|c r]; [done|]. simpl. intros H.
  apply is_stop_spec in H as (_ & -> & _). done.
Qed.

Lemma scan_exp_stop rest : stop rest -> scan_exp rest = None.
Proof.
  destruct rest as [|c r]; [done|]. simpl. intros H.
  apply is_stop_spec in H as (_ & _ & -> & ->). done.
Qed.

Lemma stop_ends rest : stop rest -> ends rest.
Proof.
  destruct rest as [|c r]; [done|]. simpl. intros H. by apply is_stop_spec in H as [-> _].
Qed.

Lemma digit_not_sign d :
  Ascii.eqb (digit_char d) "-" = false /\ Ascii.eqb (digit_char d) "+" = false.
Proof. by destruct d. Qed.

Lemma span_digits_cons d ds rest :
  ends rest -> span_digits (digit_char d :: print_digits ds ++ rest) = (d :: ds, rest).
Proof. intros Hr. exact (span_digits_print (d :: ds) rest Hr). Qed.

Lemma scan_exp_print e rest :
  ends rest -> scan_exp (print_exponent e ++ rest) = Some (e, rest).
Proof.
  intros Hr. destruct e as [capital sign d ds]. unfold print_exponent.
  cbn [exp_capital exp_sign exp_digit exp_digits].
  change (print_digits (d :: ds)) with (digit_char d :: print_digits ds).
  destruct (digit_not_sign d) as [Hm Hp].
  destruct capital, sign as [[]|]; cbn -[span_digits print_digits];
    rewrite ?Hm, ?Hp, span_digits_cons by done; done.
Qed.

Lemma scan_frac_print d ds tail :
  ends tail ->
  scan_frac ("."%char :: print_digits (d :: ds) ++ tail) = Some (d, ds, tail).
Proof. intros Ht. cbn [scan_frac Ascii.eqb]. simpl Ascii.eqb. by rewrite span_digits_print. Qed.

Lemma print_exponent_head e :
  exists c r, print_exponent e = c :: r /\ char_digit c = None /\ Ascii.eqb c "." = false.
Proof. destruct e as [[] ? ? ?]; eexists _, _; by repeat split. Qed.

Lemma scan_frac_exponent e rest : scan_frac (print_exponent e ++ rest) = None.
Proof. destruct (print_exponent_head e) as (c & r & -> & _ & Hc). simpl. by rewrite Hc. Qed.

Lemma ends_exponent e rest : ends (print_exponent e ++ rest).
Proof. by destruct (print_exponent_head e) as (c & r & -> & Hc & _). Qed.

(** The digits and the tail of a number, after its sign. *)
Lemma parse_unsigned negative n rest :
  stop rest ->
  match scan_int (print_N n ++ rest) with
  | Some (n, s2) =>
      match scan_frac s2 with
      | Some (d, ds, s3) =>
          match scan_exp s3 with
          | Some (e, s4) => Some (Float (Fraction negative n d ds (Some e)), s4)
          | None => Some (Float (Fraction negative n d ds None), s3)
          end
      | None =>
          match scan_exp s2 with
          | Some (e, s4) => Some (Float (Power negative n e), s4)
          | None => Some (Num (if negative then - Z.of_N n else Z.of_N n), s2)
          end
      end
  | None => None
  end = Some (Num (if negative then - Z.of_N n else Z.of_N n), rest).
Proof.
  intros Hr. rewrite scan_int_print by by apply stop_ends.
  by rewrite scan_frac_stop, scan_exp_stop.
Qed.

Lemma print_N_head n : exists d ds, print_N n = digit_char d :: ds.
Proof.
  unfold print_N. destruct (to_uint_head n) as [->|(d & ds & -> & _)].
  - by exists d0, [].
  - by exists d, (print_digits ds).
Qed.

Lemma digit_not_minus d : Ascii.eqb (digit_char d) "-" = false.
Proof. apply digit_not_sign. Qed.

Lemma parse_number_unsigned s :
  (exists d r, s = digit_char d :: r) ->
  parse_number s
  = match scan_int s with
    | Some (n, s2) =>
        match scan_frac s2 with
        | Some (d, ds, s3) =>
            match scan_exp s3 with
            | Some (e, s4) => Some (Float (Fraction false n d ds (Some e)), s4)
            | None => Some (Float (Fraction false n d ds None), s3)
            end
        | None =>
            match scan_exp s2 with
            | Some (e, s4) => Some (Float (Power false n e), s4)
            | None => Some (Num (Z.of_N n), s2)
            end
        end
    | None => None
    end.
Proof. intros (d & r & ->). unfold parse_number. by rewrite digit_not_minus. Qed.

Lemma parse_number_print n rest :
  stop rest -> parse_number (print_Z n ++ rest) = Some (Num n, rest).
Proof.
  intros Hr. unfold print_Z.
  destruct (Z.ltb_spec n 0) as [Hneg|Hpos]; cbn [print_sign app].
  - unfold parse_number. simpl Ascii.eqb. cbv iota.
    rewrite (parse_unsigned true) by done. f_equal. f_equal. f_equal. lia.
  - rewrite parse_number_unsigned.
    + rewrite (parse_unsigned false) by done. f_equal. f_equal. f_equal. lia.
    + destruct (print_N_head (Z.abs_N n)) as (d & ds & ->). simpl. eauto.
Qed.

Lemma parse_digits_float negative n d ds exp rest :
  stop rest ->
  match scan_int (print_N n ++ "."%char :: print_digits (d :: ds) ++
                    match exp with Some e => print_exponent e | None => [] end ++ rest) with
  | Some (n, s2) =>
      match scan_frac s2 with
      | Some (d, ds, s3) =>
          match scan_exp s3 with
          | Some (e, s4) => Some (Float (Fraction negative n d ds (Some e)), s4)
          | None => Some (Float (Fraction negative n d ds None), s3)
          end
      | None =>
          match scan_exp s2 with
          | Some (e, s4) => Some (Float (Power negative n e), s4)
          | None => Some (Num (if negative then - Z.of_N n else Z.of_N n), s2)
          end
      end
  | None => None
  end = Some (Float (Fraction negative n d ds exp), rest).
Proof.
  intros Hr. rewrite scan_int_print by done.
  destruct exp as [e|].
  - rewrite scan_frac_print by apply ends_exponent.
    by rewrite scan_exp_print by by apply stop_ends.
  - cbn [app]. rewrite scan_frac_print by by apply stop_ends.
    by rewrite scan_exp_stop.
Qed.

Lemma parse_digits_power negative n e rest :
  stop rest ->
  match scan_int (print_N n ++ print_exponent e ++ rest) with
  | Some (n, s2) =>
      match scan_frac s2 with
      | Some (d, ds, s3) =>
          match scan_exp s3 with
          | Some (e, s4) => Some (Float (Fraction negative n d ds (Some e)), s4)
          | None => Some (Float (Fraction negative n d ds None), s3)
          end
      | None =>
          match scan_exp s2 with
          | Some (e, s4) => Some (Float (Power negative n e), s4)
          | None => Some (Num (if negative then - Z.of_N n else Z.of_N n), s2)
          end
      end
  | None => None
  end = Some (Float (Power negative n e), rest).
Proof.
  intros Hr. rewrite scan_int_print by apply ends_exponent.
  rewrite scan_frac_exponent. by rewrite scan_exp_print by by apply stop_ends.
Qed.

Lemma digit_dispatch d :
  let c := digit_char d in
  is_ws c = false /\ Ascii.eqb c "[" = false /\ Ascii.eqb c "{" = false /\
  Ascii.eqb c dq = false /\ Ascii.eqb c "n" = false /\ Ascii.eqb c "t" = false /\
  Ascii.eqb c "f" = false /\ is_digit c = true /\
  Ascii.eqb c "]" = false /\ Ascii.eqb c "}" = false.
Proof. destruct d; vm_compute; repeat split. Qed.

(** A text that starts with a digit is read as a number. *)
Lemma parse_value_digit f d r :
  parse_value (S f) (digit_char d :: r) = parse_number (digit_char d :: r).
Proof.
  destruct (digit_dispatch d) as (Hw & H1 & H2 & H3 & H4 & H5 & H6 & H7 & _).
  cbn [parse_value skip_ws]. by rewrite Hw, H1, H2, H3, H4, H5, H6, H7.
Qed.

(** A text that starts with a minus sign is read as a number when a digit
    follows the sign. *)
Lemma parse_value_minus f d r :
  parse_value (S f) ("-"%char :: digit_char d :: r)
  = parse_number ("-"%char :: digit_char d :: r).
Proof.
  assert (H : exists x, parse_number ("-"%char :: digit_char d :: r) = Some x).
  { unfold parse_number. simpl Ascii.eqb. cbv iota. cbn [scan_int].
    rewrite char_digit_char.
    destruct d; [|destruct (span_digits r)..];
      (destruct (scan_frac _) as [[[? ?] ?]|]; destruct (scan_exp _) as [[? ?]|]; eauto). }
  destruct H as [x Hx].
  change (parse_value (S f) ("-"%char :: digit_char d :: r))
    with (match parse_number ("-"%char :: digit_char d :: r) with
          | Some number => Some number
          | None => keyword "Infinity" (Float (Infinity true)) (digit_char d :: r)
          end).
  by rewrite Hx.
Qed.

Lemma parse_value_Z f n rest :
  stop rest -> parse_value (S f) (print_Z n ++ rest) = Some (Num n, rest).
Proof.
  intros Hr. rewrite <- (parse_number_print n rest Hr). unfold print_Z.
  destruct (print_N_head (Z.abs_N n)) as (d & ds & ->).
  destruct (n <? 0); cbn [print_sign app].
  - apply parse_value_minus.
  - apply parse_value_digit.
Qed.

Lemma parse_signed negative n tail :
  parse_number (print_sign negative ++ print_N n ++ tail)
  = match scan_int (print_N n ++ tail) with
    | Some (n, s2) =>
        match scan_frac s2 with
        | Some (d, ds, s3) =>
            match scan_exp s3 with
            | Some (e, s4) => Some (Float (Fraction negative n d ds (Some e)), s4)
            | None => Some (Float (Fraction negative n d ds None), s3)
            end
        | None =>
            match scan_exp s2 with
            | Some (e, s4) => Some (Float (Power negative n e), s4)
            | None => Some (Num (if negative then - Z.of_N n else Z.of_N n), s2)
            end
        end
    | None => None
    end.
Proof.
  destruct negative; cbn [print_sign app].
  - reflexivity.
  - destruct (print_N_head n) as (d & ds & E). rewrite E. cbn [app].
    unfold parse_number. by rewrite digit_not_minus.
Qed.

Lemma parse_value_signed f negative n tail :
  parse_value (S f) (print_sign negative ++ print_N n ++ tail)
  = parse_number (print_sign negative ++ print_N n ++ tail).
Proof.
  destruct (print_N_head n) as (d & ds & ->).
  destruct negative; cbn [print_sign app].
  - apply parse_value_minus.
  - apply parse_value_digit.
Qed.

Lemma parse_value_float f x rest :
  stop rest -> parse_value (S f) (print_float x ++ rest) = Some (Float x, rest).
Proof.
  intros Hr. destruct x as [|[]|negative n d ds exp|negative n e]; try done.
  - cbn [print_float]. rewrite <- !app_assoc.
    rewrite parse_value_signed, parse_signed.
    rewrite <- app_comm_cons, <- !app_assoc.
    by apply parse_digits_float.
  - cbn [print_float]. rewrite <- !app_assoc.
    rewrite parse_value_signed, parse_signed.
    by apply parse_digits_power.
Qed.

Lemma print_number_head negative n tail :
  exists c r, print_sign negative ++ print_N n ++ tail = c :: r /\ opens c.
Proof.
  destruct negative; cbn [print_sign app]; [by eexists _, _|].
  destruct (print_N_head n) as (d & ds & ->). eexists _, _. split; [done|].
  destruct (digit_dispatch d) as (Hw & _ & _ & _ & _ & _ & _ & _ & H1 & H2). by split.
Qed.

Lemma print_float_head x : exists c r, print_float x = c :: r /\ opens c.
Proof.
  destruct x as [|[]|negative n d ds exp|negative n e];
    try (eexists _, _; split; [reflexivity|]; by vm_compute).
  - apply print_number_head.
  - apply print_number_head.
Qed.

Lemma print_head v : exists c r, print v = c :: r /\ opens c.
Proof.
  destruct v as [|[]|n|x|s|items|members]; simpl;
    try (eexists _, _; split; [reflexivity|]; by vm_compute).
  - unfold print_Z. rewrite <- (app_nil_r (print_N _)). apply print_number_head.
  - apply print_float_head.
Qed.

Lemma skip_ws_print v rest : skip_ws (print v ++ rest) = print v ++ rest.
Proof.
  destruct (print_head v) as (c & r & -> & Hc & _). simpl. by rewrite Hc.
Qed.

(** *** Lists and dicts *)

Lemma parse_items_print items :
  Forall parses items -> items <> [] ->
  forall rest f, (items_need items <= f)%nat ->
    parse_items f (join item_sep (map print items) ++ "]"%char :: rest) = Some (items, rest).
Proof.
  induction 1 as [|v vs Hv Hvs IH]; [done|]. intros _ rest f Hf.
  unfold items_need in Hf. simpl in Hf.
  destruct f as [|f]; [lia|]. 
  destruct vs as [|v2 vs].
  - simpl. rewrite Hv; [|simpl in *; lia|done]. simpl. done.
  - change (join item_sep (map print (v :: v2 :: vs)))
      with (print v ++ item_sep ++ join item_sep (map print (v2 :: vs))).
    rewrite <- !app_assoc. simpl.
    rewrite Hv; [|lia|done]. simpl.
    rewrite <- (parse_items_skip f). simpl.
    rewrite parse_items_skip.
    rewrite IH; [done|done|]. unfold items_need. simpl in *. lia.
Qed.

Lemma member_text k v tail :
  (quote k ++ key_sep ++ print v) ++ tail
  = dq :: escape k ++ dq :: ":"%char :: " "%char :: print v ++ tail.
Proof. unfold quote, key_sep. simpl. by rewrite <- !app_assoc. Qed.

Lemma parse_members_unfold f r :
  parse_members (S f) (dq :: r)
  = match parse_chars r with
    | Some (k, r1) =>
        match skip_ws r1 with
        | c1 :: r2 =>
            if Ascii.eqb c1 ":" then
              match parse_value f r2 with
              | Some (v, r3) =>
                  match skip_ws r3 with
                  | c3 :: r4 =>
                      if Ascii.eqb c3 "," then
                        match parse_members f r4 with
                        | Some (kvs, rest) => Some ((k, v) :: kvs, rest)
                        | None => None
                        end
                      else if Ascii.eqb c3 "}" then Some ([(k, v)], r4)
                      else None
                  | [] => None
                  end
              | None => None
              end
            else None
        | [] => None
        end
    | None => None
    end.
Proof. reflexivity. Qed.

Lemma parse_member_head k v tail f :
  parses v -> (need v <= f)%nat -> stop tail ->
  parse_members (S f) ((quote k ++ key_sep ++ print v) ++ tail)
  = match skip_ws tail with
    | c3 :: r4 =>
        if Ascii.eqb c3 "," then
          match parse_members f r4 with
          | Some (kvs, rest) => Some ((k, v) :: kvs, rest)
          | None => None
          end
        else if Ascii.eqb c3 "}" then Some ([(k, v)], r4)
        else None
    | [] => None
    end.
Proof.
  intros Hv Hf Ht. rewrite member_text, parse_members_unfold.
  rewrite parse_chars_escape. simpl.
  rewrite <- (parse_value_skip f). simpl. rewrite parse_value_skip.
  by rewrite Hv.
Qed.

Lemma parse_members_print members :
  Forall (fun kv => parses (snd kv)) members -> members <> [] ->
  forall rest f, (members_need members <= f)%nat ->
    parse_members f
      (join item_sep (map (fun kv => quote (fst kv) ++ key_sep ++ print (snd kv)) members)
         ++ "}"%char :: rest) = Some (members, rest).
Proof.
  induction 1 as [|[k v] kvs Hv Hkvs IH]; [done|]. intros _ rest f Hf.
  unfold members_need in Hf. simpl in Hf.
  destruct f as [|f]; [lia|].
  destruct kvs as [|kv2 kvs].
  - cbn [map join fst snd]. rewrite parse_member_head; [done|done|simpl in *; lia|done].
  - change (join item_sep (map (fun kv => quote (fst kv) ++ key_sep ++ print (snd kv))
                             ((k, v) :: kv2 :: kvs)))
      with ((quote k ++ key_sep ++ print v) ++ item_sep ++
            join item_sep (map (fun kv => quote (fst kv) ++ key_sep ++ print (snd kv))
                             (kv2 :: kvs))).
    rewrite <- (app_assoc (quote k ++ key_sep ++ print v)).
    rewrite parse_member_head; [|done|simpl in *; lia|done].
    rewrite <- !app_assoc. simpl.
    rewrite <- (parse_members_skip f). simpl. rewrite parse_members_skip.
    rewrite IH; [done|done|]. unfold members_need. simpl in *. lia.
Qed.

Lemma quote_text s tail : quote s ++ tail = dq :: escape s ++ dq :: tail.
Proof. unfold quote. simpl. by rewrite <- app_assoc. Qed.

Lemma parse_value_str f r :
  parse_value (S f) (dq :: r)
  = match parse_chars r with
    | Some (t, rest) => Some (Str t, rest)
    | None => None
    end.
Proof. reflexivity. Qed.

Lemma parse_value_arr f r :
  parse_value (S f) ("["%char :: r)
  = match skip_ws r with
    | c' :: r' =>
        if Ascii.eqb c' "]" then Some (Arr [], r')
        else match parse_items f r with
             | Some (vs, rest) => Some (Arr vs, rest)
             | None => None
             end
    | [] => None
    end.
Proof. reflexivity. Qed.

Lemma parse_value_obj f r :
  parse_value (S f) ("{"%char :: r)
  = match skip_ws r with
    | c' :: r' =>
        if Ascii.eqb c' "}" then Some (Obj [], r')
        else match parse_members f r with
             | Some (kvs, rest) => Some (Obj kvs, rest)
             | None => None
             end
    | [] => None
    end.
Proof. reflexivity. Qed.

Lemma parse_print v : parses v.
Proof.
  induction v as [|b|n|x|s|items IH|members IH] using value_ind;
    intros rest f Hf Hr; (destruct f as [|f]; [simpl in Hf; lia|]).
  - done.
  - by destruct b.
  - by apply parse_value_Z.
  - by apply parse_value_float.
  - cbn [print]. by rewrite quote_text, parse_value_str, parse_chars_escape.
  - destruct items as [|v vs]; [done|].
    cbn [print]. 
    change (("["%char :: join item_sep (map print (v :: vs)) ++ ["]"%char]) ++ rest)
      with ("["%char :: (join item_sep (map print (v :: vs)) ++ ["]"%char]) ++ rest).
    rewrite <- app_assoc.
    assert (Hsk : skip_ws (join item_sep (map print (v :: vs)) ++ ["]"%char] ++ rest)
                  = join item_sep (map print (v :: vs)) ++ ["]"%char] ++ rest).
    { destruct vs; cbn [map join]; rewrite <- ?app_assoc; apply skip_ws_print. }
    assert (Hhd : exists c r, join item_sep (map print (v :: vs)) ++ ["]"%char] ++ rest = c :: r
                              /\ Ascii.eqb c "]" = false).
    { destruct (print_head v) as (c & r & E & _ & Hc & _).
      destruct vs; cbn [map join]; rewrite E; simpl; eauto. }
    destruct Hhd as (c & r & E & Hc).
    rewrite parse_value_arr, Hsk, E, Hc, <- E.
    simpl in Hf.
    change (["]"%char] ++ rest) with ("]"%char :: rest).
    rewrite parse_items_print; [done|done|done|unfold items_need; simpl in *; lia].
  - destruct members as [|kv kvs]; [done|].
    cbn [print].
    set (txt := join item_sep (map (λ kv0, quote kv0.1 ++ key_sep ++ print kv0.2) (kv :: kvs))).
    change (("{"%char :: txt ++ ["}"%char]) ++ rest)
      with ("{"%char :: (txt ++ ["}"%char]) ++ rest).
    rewrite <- app_assoc.
    assert (Hhd : exists r, txt ++ ["}"%char] ++ rest = dq :: r).
    { subst txt. destruct kv as [k v].
      destruct kvs; cbn [map join fst snd]; unfold quote; simpl; eauto. }
    destruct Hhd as (r & E).
    rewrite parse_value_obj, E. simpl (skip_ws (dq :: r)). simpl (Ascii.eqb dq "}"). cbv iota.
    rewrite <- E. simpl in Hf.
    change (["}"%char] ++ rest) with ("}"%char :: rest). subst txt.
    rewrite parse_members_print; [done|done|done|unfold members_need; simpl in *; lia].
Qed.

Lemma join_need_le (A : Type) (txt : A -> chars) (nd : A -> nat) (l : list A) :
  Forall (fun x => (nd x <= List.length (txt x))%nat) l -> l <> [] ->
  (list_sum (map (fun x => S (nd x)) l) <= List.length (join item_sep (map txt l)) + 1)%nat.
Proof.
  induction 1 as [|x xs Hx Hxs IH]; [done|]. intros _.
  destruct xs as [|y ys].
  - simpl. lia.
  - change (join item_sep (map txt (x :: y :: ys)))
      with (txt x ++ item_sep ++ join item_sep (map txt (y :: ys))).
    rewrite !length_app. 
    change (list_sum (map (fun x => S (nd x)) (x :: y :: ys)))
      with (S (nd x) + list_sum (map (fun x => S (nd x)) (y :: ys)))%nat.
    specialize (IH ltac:(done)). simpl (List.length item_sep). lia.
Qed.

Lemma need_le_length v : (need v <= List.length (print v))%nat.
Proof.
  induction v as [|b|n|x|s|items IH|members IH] using value_ind.
  - simpl. lia.
  - destruct b; simpl; lia.
  - destruct (print_head (Num n)) as (c & r & -> & _). simpl. lia.
  - destruct (print_head (Float x)) as (c & r & -> & _). simpl. lia.
  - simpl. lia.
  - destruct items as [|v vs]; [simpl; lia|].
    cbn [print need]. cbn [List.length]. rewrite length_app. simpl (List.length ["]"%char]).
    pose proof (join_need_le _ print need (v :: vs) IH ltac:(done)). lia.
  - destruct members as [|kv kvs]; [simpl; lia|].
    cbn [print need]. cbn [List.length]. rewrite length_app. simpl (List.length ["}"%char]).
    pose proof (join_need_le _ (fun kv => quote kv.1 ++ key_sep ++ print kv.2)
                  (fun kv => need kv.2) (kv :: kvs)) as H.
    assert (Hm : Forall (fun x : string * value =>
                    (need x.2 <= List.length (quote x.1 ++ key_sep ++ print x.2))%nat) (kv :: kvs)).
    { eapply Forall_impl; [exact IH|]. intros [k x] Hx. cbn [fst snd] in *.
      rewrite !length_app. lia. }
    specialize (H Hm ltac:(done)). apply le_n_S. exact H.
Qed.

(** *** The codec on some texts

    Leading zeros and a bare minus sign are refused; a number with a
    fraction or an exponent is a float; an escape is read in either case
    of its digits, and a surrogate pair is one character; a control
    character is refused when it is written as it is, and written back as
    an escape, as is every character that is not ASCII. *)
Lemma conformance :
  loads "[007]" = None /\ loads "-01" = None /\ loads "-" = None /\
  loads "1." = None /\ loads "1e" = None /\ loads "[1,]" = None /\
  loads " [0, -0] " = Some (Arr [Num 0; Num 0]) /\
  loads "1.50" = Some (Float (Fraction false 1 d5 [d0] None)) /\
  loads "-2E+3" = Some (Float (Power true 2 (Exponent true (Some false) d3 []))) /\
  loads "[NaN, -Infinity]" = Some (Arr [Float NaN; Float (Infinity true)]) /\
  loads (quoted "\u00E9\u20ac\ud83d\ude00\/") = Some (Str "é€😀/") /\
  loads (quoted "\u12") = None /\ loads (quoted "\x") = None /\
  loads (quoted (String "010" "")) = None /\
  loads (quoted (String "127" "é")) = Some (Str (String "127" "é")) /\
  dumps (Str (String "010" (String "001" (String "127" "é€😀/"))))
  = quoted "\n\u0001\u007f\u00e9\u20ac\ud83d\ude00/" /\
  dumps (Obj [("a", Arr [Num (-12); Null; Bool true]); ("b", Obj [])])
  = "{" +:+ quoted "a" +:+ ": [-12, null, true], " +:+ quoted "b" +:+ ": {}}".
Proof. repeat split; vm_compute; reflexivity. Qed.

(** [json.loads(json.dumps(v))] is [v]. *)
Theorem loads_dumps v : loads (dumps v) = Some v.
Proof.
  unfold loads, dumps. rewrite list_ascii_of_string_of_list_ascii.
  rewrite <- (app_nil_r (print v)) at 2.
  rewrite parse_print; [done| |done].
  pose proof (need_le_length v). lia.
Qed.

End JsonFacts.

(** ** Computations *)

Lemma bind_unfold {A B : Type} (m : M A) (k : A -> M B) (w : World) :
  (m ≫= k) w = match m w with
               | (w', Ok a) => k a w'
               | (w', Raise e) => (w', Raise e)
               end.
Proof. reflexivity. Qed.

Lemma bind_inv {A B : Type} (m : M A) (k : A -> M B) (w w' : World) (r : result B) :
  (m ≫= k) w = (w', r) ->
  (exists a w1, m w = (w1, Ok a) /\ k a w1 = (w', r)) \/
  (exists e, m w = (w', Raise e) /\ r = Raise e).
Proof.
  rewrite bind_unfold. destruct (m w) as [w1 [a|e]]; intros H.
  - left. eauto.
  - right. exists e. by injection H as -> <-.
Qed.

Lemma bind_Ok_inv {A B : Type} (m : M A) (k : A -> M B) (w w' : World) (b : B) :
  (m ≫= k) w = (w', Ok b) ->
  exists a w1, m w = (w1, Ok a) /\ k a w1 = (w', Ok b).
Proof.
  intros H. apply bind_inv in H as [H|(e & _ & H)]; [done|discriminate].
Qed.

Section Preserves.

Context (R : World -> World -> Prop) `{!PreOrder R}.

Lemma preserves_ret {A : Type} (a : A) : preserves R (mret a).
Proof. intros w. simpl. reflexivity. Qed.

Lemma preserves_throw {A : Type} (e : exn) : preserves R (mthrow e : M A).
Proof. intros w. simpl. reflexivity. Qed.

Lemma preserves_gets {A : Type} (f : World -> A) : preserves R (gets f).
Proof. intros w. simpl. reflexivity. Qed.

Lemma preserves_lift {A : Type} (r : result A) : preserves R (lift r).
Proof. intros w. simpl. reflexivity. Qed.

Lemma preserves_modify (f : World -> World) :
  (forall w, R w (f w)) -> preserves R (modify f).
Proof. intros H w. apply H. Qed.

Lemma preserves_on_db {A : Type} (f : Db -> Db * A) :
  (forall w, R w (set_db (fst (f (db w))) w)) -> preserves R (on_db f).
Proof. intros H w. unfold on_db. specialize (H w). by destruct (f (db w)). Qed.

Lemma preserves_bind {A B : Type} (m : M A) (k : A -> M B) :
  preserves R m -> (forall a, preserves R (k a)) -> preserves R (m ≫= k).
Proof.
  intros Hm Hk w. rewrite bind_unfold.
  specialize (Hm w). destruct (m w) as [w1 [a|e]]; simpl in *.
  - etransitivity; [exact Hm|apply Hk].
  - done.
Qed.

End Preserves.

Create HintDb preserves.

(** One step through the structure of a computation. *)
Ltac preserves_step :=
  lazymatch goal with
  | |- preserves _ (mbind _ _) => refine (preserves_bind _ _ _ _ _); [ | intros ? ]
  | |- preserves _ (mret _) => refine (preserves_ret _ _)
  | |- preserves _ (mthrow _) => refine (preserves_throw _ _)
  | |- preserves _ (gets _) => refine (preserves_gets _ _)
  | |- preserves _ (lift _) => refine (preserves_lift _ _)
  | |- preserves _ (modify _) => refine (preserves_modify _ _ _); intros ?
  | |- preserves _ (on_db _) => refine (preserves_on_db _ _ _); intros ?
  | |- preserves _ (match ?x with _ => _ end) => destruct x
  end.

Ltac solve_preserves :=
  repeat first [ solve [eauto with preserves] | preserves_step ];
  try solve [hnf; simpl; repeat split; first [done | lia]].

(** *** What a turn never touches: the queue and the error log *)

#[local] Instance same_queue_preorder : PreOrder same_queue.
Proof.
  split.
  - by intros w.
  - intros w1 w2 w3 [H1 H2] [H3 H4]. split; congruence.
Qed.

Section Queue.
Context (E : Env).

Lemma tick_same_queue : preserves same_queue tick.
Proof. by intros w. Qed.
Hint Resolve tick_same_queue : preserves.

Lemma now_same_queue : preserves same_queue (now E).
Proof. unfold now. solve_preserves. Qed.
Hint Resolve now_same_queue : preserves.

Lemma db_add_message_same_queue c s t : preserves same_queue (db_add_message E c s t).
Proof. unfold db_add_message. solve_preserves. Qed.
Hint Resolve db_add_message_same_queue : preserves.

Lemma send_message_same_queue p t : preserves same_queue (send_message E p t).
Proof. unfold send_message. solve_preserves. Qed.
Hint Resolve send_message_same_queue : preserves.

Lemma aget_state_same_queue t : preserves same_queue (aget_state t).
Proof. unfold aget_state. solve_preserves. Qed.
Hint Resolve aget_state_same_queue : preserves.

Lemma update_values_same_queue t f : preserves same_queue (update_values t f).
Proof. unfold update_values. solve_preserves. Qed.
Hint Resolve update_values_same_queue : preserves.

Lemma delete_thread_same_queue t : preserves same_queue (delete_thread t).
Proof. unfold delete_thread. solve_preserves. Qed.
Hint Resolve delete_thread_same_queue : preserves.

Lemma run_tools_same_queue calls : preserves same_queue (run_tools E calls).
Proof. induction calls; simpl; unfold run_tool; solve_preserves. Qed.
Hint Resolve run_tools_same_queue : preserves.

Lemma run_graph_same_queue n t : preserves same_queue (run_graph E n t).
Proof.
  induction n; simpl; [solve_preserves|].
  unfold assistant, tools, update_timestamp_node. solve_preserves.
Qed.
Hint Resolve run_graph_same_queue : preserves.

Lemma save_turn_same_queue c p msgs : preserves same_queue (save_turn E c p msgs).
Proof. induction msgs; simpl; unfold save_generated; solve_preserves. Qed.
Hint Resolve save_turn_same_queue : preserves.

Lemma process_item_same_queue task : preserves same_queue (process_item E task).
Proof.
  unfold process_item, load_history, aupdate_state, ainvoke, process_response.
  solve_preserves.
Qed.

Lemma cleanup_threads_same_queue ts : preserves same_queue (cleanup_threads E ts).
Proof.
  induction ts; simpl; unfold cleanup_thread, db_close_conversation; solve_preserves.
Qed.
Hint Resolve cleanup_threads_same_queue : preserves.

Lemma cleanup_cycle_same_queue : preserves same_queue (conversation_cleanup_cycle E).
Proof. unfold conversation_cleanup_cycle. solve_preserves. Qed.

End Queue.

(** *** The message log and the outbox *)

#[local] Instance quiet_preorder : PreOrder quiet.
Proof.
  split.
  - by intros w.
  - intros w1 w2 w3 (H1 & H2 & H3) (H4 & H5 & H6). repeat split; [congruence..|lia].
Qed.

#[local] Instance log_grows_preorder c : PreOrder (log_grows c).
Proof.
  split.
  - intros w. exists []. by rewrite app_nil_r.
  - intros w1 w2 w3 (r1 & H1 & F1) (r2 & H2 & F2). exists (r1 ++ r2). split.
    + by rewrite H2, H1, app_assoc.
    + by apply Forall_app.
Qed.

Lemma quiet_grows {A : Type} c (m : M A) :
  preserves quiet m -> preserves (log_grows c) m.
Proof. intros H w. destruct (H w) as [Hm _]. exists []. by rewrite app_nil_r. Qed.

#[local] Instance same_checkpoints_preorder : PreOrder same_checkpoints.
Proof.
  split.
  - by intros w.
  - intros w1 w2 w3 [H1 H2] [H3 H4]. split; [congruence|lia].
Qed.

Section Log.
Context (E : Env).

Lemma tick_quiet : preserves quiet tick.
Proof. intros w. repeat split. simpl. lia. Qed.
Hint Resolve tick_quiet : preserves.

Lemma now_quiet : preserves quiet (now E).
Proof. unfold now. solve_preserves. Qed.
Hint Resolve now_quiet : preserves.

Lemma aget_state_quiet t : preserves quiet (aget_state t).
Proof. unfold aget_state. solve_preserves. Qed.
Hint Resolve aget_state_quiet : preserves.

Lemma update_values_quiet t f : preserves quiet (update_values t f).
Proof. unfold update_values. solve_preserves. Qed.
Hint Resolve update_values_quiet : preserves.

Lemma delete_thread_quiet t : preserves quiet (delete_thread t).
Proof. unfold delete_thread. solve_preserves. Qed.
Hint Resolve delete_thread_quiet : preserves.

Lemma enqueue_message_quiet p m : preserves quiet (enqueue_message E p m).
Proof.
  unfold enqueue_message, db_create_patient, db_create_conversation.
  solve_preserves.
Qed.

Lemma cleanup_threads_quiet ts : preserves quiet (cleanup_threads E ts).
Proof.
  induction ts; simpl; unfold cleanup_thread, db_close_conversation; solve_preserves.
Qed.
Hint Resolve cleanup_threads_quiet : preserves.

Lemma cleanup_cycle_quiet : preserves quiet (conversation_cleanup_cycle E).
Proof. unfold conversation_cleanup_cycle. solve_preserves. Qed.

Lemma load_history_quiet c p : preserves quiet (load_history c p).
Proof. unfold load_history, aupdate_state. solve_preserves. Qed.

Lemma tick_same_checkpoints : preserves same_checkpoints tick.
Proof. intros w. split; [done|simpl; lia]. Qed.
Hint Resolve tick_same_checkpoints : preserves.

Lemma now_same_checkpoints : preserves same_checkpoints (now E).
Proof. unfold now. solve_preserves. Qed.
Hint Resolve now_same_checkpoints : preserves.

Lemma db_add_message_same_checkpoints c s t :
  preserves same_checkpoints (db_add_message E c s t).
Proof. unfold db_add_message. solve_preserves. Qed.
Hint Resolve db_add_message_same_checkpoints : preserves.

Lemma send_message_same_checkpoints p t :
  preserves same_checkpoints (send_message E p t).
Proof. unfold send_message. solve_preserves. Qed.
Hint Resolve send_message_same_checkpoints : preserves.

Lemma save_turn_same_checkpoints c p msgs :
  preserves same_checkpoints (save_turn E c p msgs).
Proof. induction msgs; simpl; unfold save_generated; solve_preserves. Qed.
Hint Resolve save_turn_same_checkpoints : preserves.

Lemma process_response_same_checkpoints c p msgs :
  preserves same_checkpoints (process_response E c p msgs).
Proof. unfold process_response. solve_preserves. Qed.

Section Tools.
Context (Htools : tools_keep_messages E).

Lemma run_tool_quiet call : preserves quiet (run_tool E call).
Proof.
  unfold run_tool. solve_preserves.
  hnf. simpl. split; [apply Htools|done].
Qed.
Hint Resolve run_tool_quiet : preserves.

Lemma run_tools_quiet calls : preserves quiet (run_tools E calls).
Proof. induction calls; simpl; solve_preserves. Qed.
Hint Resolve run_tools_quiet : preserves.

Lemma run_graph_quiet n t : preserves quiet (run_graph E n t).
Proof.
  induction n; simpl; [solve_preserves|].
  unfold assistant, tools, update_timestamp_node. solve_preserves.
Qed.
Hint Resolve run_graph_quiet : preserves.

Lemma ainvoke_quiet t input : preserves quiet (ainvoke E t input).
Proof. unfold ainvoke. solve_preserves. Qed.

Lemma db_add_message_grows c s t : preserves (log_grows c) (db_add_message E c s t).
Proof.
  unfold db_add_message.
  refine (preserves_bind _ _ _ _ _); [apply quiet_grows; solve_preserves|intros now1].
  refine (preserves_bind _ _ _ _ _); [apply quiet_grows; solve_preserves|intros now2].
  intros w. cbn. eexists [_]. split; [reflexivity|]. by repeat constructor.
Qed.

Lemma send_message_grows c p t : preserves (log_grows c) (send_message E p t).
Proof.
  unfold send_message. solve_preserves; [apply quiet_grows; solve_preserves|].
  exists []. by rewrite app_nil_r.
Qed.

Lemma save_turn_grows c p msgs : preserves (log_grows c) (save_turn E c p msgs).
Proof.
  induction msgs as [|msg rest IH]; simpl; [solve_preserves|].
  refine (preserves_bind _ _ _ _ _); [|intros _; exact IH].
  unfold save_generated.
  pose proof db_add_message_grows. pose proof send_message_grows.
  solve_preserves.
Qed.

Lemma process_item_grows task :
  preserves (log_grows (qi_conversation_id task)) (process_item E task).
Proof.
  unfold process_item, process_response.
  pose proof db_add_message_grows. pose proof send_message_grows.
  pose proof save_turn_grows.
  pose proof (quiet_grows (qi_conversation_id task) _
                (load_history_quiet (qi_conversation_id task) (qi_patient task))).
  pose proof (fun i => quiet_grows (qi_conversation_id task) _
                (ainvoke_quiet (qi_conversation_id task) i)).
  solve_preserves.
Qed.

End Tools.
End Log.

#[local] Hint Resolve tick_quiet now_quiet aget_state_quiet update_values_quiet
  delete_thread_quiet tick_same_checkpoints now_same_checkpoints
  db_add_message_same_checkpoints send_message_same_checkpoints
  save_turn_same_checkpoints run_tool_quiet run_tools_quiet run_graph_quiet : preserves.

(** ** The worker loop *)

Section Worker.
Context (E : Env).

(** One iteration takes the head of the queue and leaves the rest, whatever
    the turn did; an exception of the turn is logged with the item's
    conversation id. *)
Lemma consume_one_spec w task rest :
  message_queue w = task :: rest ->
  exists w',
    consume_one E w = Some w' /\
    message_queue w' = rest /\
    match snd (process_item E task (set_message_queue rest w)) with
    | Ok _ => error_log w' = error_log w
    | Raise e => error_log w' = error_log w ++ [AgentError (qi_conversation_id task) e]
    end.
Proof.
  intros Hq. unfold consume_one. rewrite Hq.
  pose proof (process_item_same_queue E task (set_message_queue rest w)) as [H1 H2].
  destruct (process_item E task (set_message_queue rest w)) as [w1 [[]|e]];
    simpl in *; eexists; (split; [reflexivity|]); simpl; by rewrite ?H1, ?H2.
Qed.

Lemma consume_messages_queue n w :
  (n <= List.length (message_queue w))%nat ->
  message_queue (consume_messages E n w) = drop n (message_queue w).
Proof.
  revert w. induction n as [|n IH]; intros w Hn; simpl; [done|].
  destruct (message_queue w) as [|task rest] eqn:Hq; [simpl in Hn; lia|].
  destruct (consume_one_spec w task rest Hq) as (w' & -> & Hq' & _).
  rewrite IH; rewrite Hq'; [done|simpl in Hn; lia].
Qed.

(** C4.  Every exception a queue item raises is caught at the item's
    boundary: the item leaves the queue for good, the exception is logged
    with the conversation id, and the iterations that follow take the next
    items, one each, until the queue is drained. *)
Theorem C4_exception_per_item w task rest :
  message_queue w = task :: rest ->
  (exists w',
      consume_one E w = Some w' /\
      message_queue w' = rest /\
      match snd (process_item E task (set_message_queue rest w)) with
      | Ok _ => error_log w' = error_log w
      | Raise e => error_log w' = error_log w ++ [AgentError (qi_conversation_id task) e]
      end) /\
  (forall n, (n <= List.length (message_queue w))%nat ->
             message_queue (consume_messages E n w) = drop n (message_queue w)).
Proof.
  intros Hq. split.
  - by apply consume_one_spec.
  - intros n. apply consume_messages_queue.
Qed.

End Worker.

(** ** The queue is first in, first out, and turns run one after the other *)

Section Fifo.
Context (E : Env).

Lemma enqueue_message_queue p m w :
  exists item,
    message_queue (fst (enqueue_message E p m w)) = message_queue w ++ [item] /\
    qi_message item = m.
Proof.
  unfold enqueue_message, db_create_patient, db_create_conversation, now, on_db.
  cbv [mbind M_bind mret M_ret gets modify tick].
  destruct (get_patient_by_phone p (db w)); cbn -[get_open_conversation];
    match goal with
    | |- context [get_open_conversation ?i ?d] => destruct (get_open_conversation i d)
    end; cbn; eexists; split; reflexivity.
Qed.

Lemma drop_length_app {A : Type} (l k : list A) : drop (List.length l) (l ++ k) = k.
Proof. by rewrite drop_app_length. Qed.

Section Tools.
Context (Htools : tools_keep_messages E).

Lemma step_log ev w :
  messages (db (step E ev w))
  = messages (db w) ++
    match ev, message_queue w with
    | EvConsume, task :: _ =>
        drop (List.length (messages (db w))) (messages (db (step E ev w)))
    | _, _ => []
    end.
Proof.
  destruct ev as [p m| |]; simpl.
  - rewrite app_nil_r. apply (enqueue_message_quiet E p m w).
  - destruct (message_queue w) as [|task rest] eqn:Hq.
    + unfold consume_one. rewrite Hq. by rewrite app_nil_r.
    + unfold consume_one. rewrite Hq.
      pose proof (process_item_grows E Htools task (set_message_queue rest w))
        as (rows & Hrows & _).
      destruct (process_item E task (set_message_queue rest w)) as [w1 [[]|e]];
        simpl in *; rewrite Hrows; by rewrite drop_length_app.
  - rewrite app_nil_r. apply (cleanup_cycle_quiet E w).
Qed.

Lemma step_queue ev w :
  message_queue w ++
    match ev with
    | EvEnqueue _ _ => drop (List.length (message_queue w)) (message_queue (step E ev w))
    | _ => []
    end
  = match ev, message_queue w with
    | EvConsume, task :: _ => [task]
    | _, _ => []
    end ++ message_queue (step E ev w).
Proof.
  destruct ev as [p m| |]; simpl.
  - destruct (enqueue_message_queue p m w) as (item & -> & _).
    by rewrite drop_length_app.
  - rewrite app_nil_r. destruct (message_queue w) as [|task rest] eqn:Hq.
    + unfold consume_one. by rewrite Hq.
    + destruct (consume_one_spec E w task rest Hq) as (w' & -> & -> & _). done.
  - rewrite app_nil_r. symmetry. apply (cleanup_cycle_same_queue E w).
Qed.

Lemma step_turn_rows w task rest :
  message_queue w = task :: rest ->
  Forall (fun m => message_conversation_id m = qi_conversation_id task)
    (drop (List.length (messages (db w))) (messages (db (step E EvConsume w)))).
Proof.
  intros Hq. simpl. unfold consume_one. rewrite Hq.
  pose proof (process_item_grows E Htools task (set_message_queue rest w))
    as (rows & Hrows & Hall).
  destruct (process_item E task (set_message_queue rest w)) as [w1 [[]|e]];
    simpl in *; rewrite Hrows; by rewrite drop_length_app.
Qed.

(** C7.  Along every trace of enqueues, worker iterations and sweeps: the
    items are taken in the order they were put (the turns run so far, then
    the items still waiting, are the items that were waiting at the start,
    then the items enqueued since); the message log is the log of the start
    followed by the rows of the first turn, then the rows of the second, and
    so on, so a turn's rows are all stored before the next turn's first; and
    the rows of a turn are rows of its own conversation. *)
Theorem C7_fifo_turns evs w :
  message_queue w ++ trace_enqueued E evs w
  = map fst (trace_turns E evs w) ++ message_queue (run E evs w) /\
  messages (db (run E evs w))
  = messages (db w) ++ List.concat (map snd (trace_turns E evs w)) /\
  Forall (fun turn =>
            Forall (fun m => message_conversation_id m = qi_conversation_id (fst turn))
              (snd turn))
    (trace_turns E evs w).
Proof.
  revert w. induction evs as [|ev evs IH]; intros w.
  - simpl. by rewrite !app_nil_r.
  - destruct (IH (step E ev w)) as (IH1 & IH2 & IH3).
    change (run E (ev :: evs) w) with (run E evs (step E ev w)).
    cbn [trace_enqueued trace_turns]. split; [|split].
    + rewrite map_app, app_assoc, step_queue, <- !app_assoc.
      rewrite IH1. f_equal.
      destruct ev; try done. by destruct (message_queue w).
    + rewrite IH2, map_app, List.concat_app, app_assoc. f_equal.
      rewrite step_log at 1. f_equal.
      destruct ev; try done. destruct (message_queue w); [done|].
      simpl. by rewrite app_nil_r.
    + apply Forall_app. split; [|done].
      destruct ev; try done.
      destruct (message_queue w) as [|task rest] eqn:Hq; [done|].
      constructor; [|done]. simpl. eapply step_turn_rows. exact Hq.
Qed.

End Tools.
End Fifo.

(** ** The timeout sweep *)

#[local] Instance frame_preorder thread_id : PreOrder (frame thread_id).
Proof.
  split.
  - by intros w.
  - intros w1 w2 w3 [H1 H2] [H3 H4]. split; [congruence|lia].
Qed.

Lemma close_row_id other reason t c :
  conversation_id (close_row other reason t c) = conversation_id c.
Proof. unfold close_row. by destruct (Z.eqb _ _). Qed.

Lemma close_row_ne other reason t c :
  conversation_id c <> other -> close_row other reason t c = c.
Proof. intros H. unfold close_row. by destruct (Z.eqb_spec (conversation_id c) other). Qed.

Lemma get_conversation_close_ne thread_id other reason t d :
  other <> thread_id ->
  get_conversation thread_id (close_conversation other reason t d)
  = get_conversation thread_id d.
Proof.
  intros Hne. unfold get_conversation, close_conversation. simpl.
  induction (conversations d) as [|c rest IH]; simpl; [done|].
  rewrite close_row_id.
  destruct (Z.eqb_spec (conversation_id c) thread_id) as [Heq|Hneq]; [|done].
  f_equal. apply close_row_ne. congruence.
Qed.

Lemma get_conversation_close_eq thread_id reason t d :
  get_conversation thread_id (close_conversation thread_id reason t d)
  = close_row thread_id reason t <$> get_conversation thread_id d.
Proof.
  unfold get_conversation, close_conversation. simpl.
  induction (conversations d) as [|c rest IH]; simpl; [done|].
  rewrite close_row_id.
  by destruct (Z.eqb_spec (conversation_id c) thread_id).
Qed.

Section Sweep.
Context (E : Env).

Lemma cleanup_thread_frame thread_id other :
  other <> thread_id -> preserves (frame thread_id) (cleanup_thread E other).
Proof.
  intros Hne. unfold cleanup_thread, db_close_conversation, now, delete_thread, aget_state.
  assert (Htick : preserves (frame thread_id) tick).
  { intros w. split; [done|simpl; lia]. }
  assert (Hdel : forall w, frame thread_id w
                             (set_checkpoints (delete other (checkpoints w)) w)).
  { intros w. split; [|done]. unfold view. simpl. by rewrite lookup_delete_ne. }
  assert (Hclose : forall t w, frame thread_id w
             (set_db (close_conversation other "timed_out" t (db w)) w)).
  { intros t w. split; [|done]. unfold view. simpl.
    by rewrite get_conversation_close_ne. }
  solve_preserves; simpl; auto.
Qed.

Lemma cleanup_thread_ok thread_id w : snd (cleanup_thread E thread_id w) = Ok tt.
Proof.
  unfold cleanup_thread, db_close_conversation, now, delete_thread, aget_state, on_db.
  cbv [mbind M_bind mret M_ret gets modify tick].
  destruct (sv_last_interaction_time (get_values thread_id w)); simpl;
    destruct (values_truthy (get_values thread_id w)); simpl; try done.
  destruct (Z.ltb _ _); simpl; [|done].
  destruct (get_conversation _ _) as [c|]; simpl; [|done].
  destruct (String.eqb _ _); done.
Qed.

Lemma cleanup_threads_cons thread_id rest w :
  fst (cleanup_threads E (thread_id :: rest) w)
  = fst (cleanup_threads E rest (fst (cleanup_thread E thread_id w))).
Proof.
  simpl. rewrite bind_unfold. pose proof (cleanup_thread_ok thread_id w) as Hok.
  destruct (cleanup_thread E thread_id w) as [w1 r]. simpl in *. by subst r.
Qed.

Lemma cleanup_threads_frame thread_id ids :
  thread_id ∉ ids -> preserves (frame thread_id) (cleanup_threads E ids).
Proof.
  induction ids as [|other rest IH]; intros Hnot; simpl; [solve_preserves|].
  apply not_elem_of_cons in Hnot as [Hne Hnot].
  refine (preserves_bind _ _ _ _ _); [by apply cleanup_thread_frame|intros _; auto].
Qed.

(** Whatever the order in which the sweep visits the threads, what it does
    to one of them is what its visit of that thread does. *)
Lemma cleanup_threads_focus thread_id ids w
  (Post : option StateValues * option Conversation -> Prop) :
  NoDup ids -> thread_id ∈ ids ->
  (forall w1, view thread_id w1 = view thread_id w -> (ticks w <= ticks w1)%nat ->
              Post (view thread_id (fst (cleanup_thread E thread_id w1)))) ->
  Post (view thread_id (fst (cleanup_threads E ids w))).
Proof.
  intros Hnd Hin Hpost.
  enough (Hgen : forall w1, view thread_id w1 = view thread_id w ->
                            (ticks w <= ticks w1)%nat ->
                            Post (view thread_id (fst (cleanup_threads E ids w1))))
    by (apply Hgen; [done|lia]).
  induction ids as [|other rest IH]; intros w1 Hv Ht.
  - by apply elem_of_nil in Hin.
  - apply NoDup_cons in Hnd as [Hnot Hnd].
    rewrite cleanup_threads_cons.
    destruct (decide (other = thread_id)) as [->|Hne].
    + destruct (cleanup_threads_frame thread_id rest Hnot
                  (fst (cleanup_thread E thread_id w1))) as [-> _].
      by apply Hpost.
    + apply elem_of_cons in Hin as [Heq|Hin]; [congruence|].
      destruct (cleanup_thread_frame thread_id other Hne w1) as [Hv1 Ht1].
      apply IH; [done|done|congruence|lia].
Qed.

Lemma cleanup_cycle_focus thread_id w
  (Post : option StateValues * option Conversation -> Prop) :
  is_Some (checkpoints w !! thread_id) ->
  (forall w1, view thread_id w1 = view thread_id w -> (ticks w <= ticks w1)%nat ->
              Post (view thread_id (fst (cleanup_thread E thread_id w1)))) ->
  Post (view thread_id (fst (conversation_cleanup_cycle E w))).
Proof.
  intros Hin Hpost. unfold conversation_cleanup_cycle.
  rewrite bind_unfold. cbn [gets].
  assert (Hel : thread_id ∈ all_thread_ids w).
  { unfold all_thread_ids. by apply elem_of_elements, elem_of_dom. }
  destruct (all_thread_ids w) as [|t ts] eqn:Hids; [by apply elem_of_nil in Hel|].
  cbn [nonempty_list]. rewrite <- Hids in *.
  apply cleanup_threads_focus; [|done|done].
  unfold all_thread_ids. apply NoDup_elements.
Qed.

(** The visit of a thread whose checkpoint is idle past the threshold. *)
Lemma cleanup_thread_idle thread_id w v last_interaction :
  checkpoints w !! thread_id = Some v ->
  sv_last_interaction_time v = Some last_interaction ->
  idle_threshold E < clock E (ticks w) - last_interaction ->
  let w' := fst (cleanup_thread E thread_id w) in
  checkpoints w' !! thread_id = None /\
  match get_conversation thread_id (db w) with
  | Some c =>
      if String.eqb (conversation_status c) "open"
      then exists t, get_conversation thread_id (db w')
                     = Some (close_row thread_id "timed_out" t c)
      else get_conversation thread_id (db w') = Some c
  | None => get_conversation thread_id (db w') = None
  end.
Proof.
  intros Hcp Hlast Hidle.
  unfold cleanup_thread, db_close_conversation, now, delete_thread, aget_state, on_db.
  cbv [mbind M_bind mret M_ret gets modify tick].
  unfold get_values. rewrite Hcp, Hlast.
  assert (Htruthy : values_truthy v = true).
  { unfold values_truthy. rewrite Hlast. by destruct (sv_messages v), (sv_patient v),
      (sv_conversation_id v). }
  rewrite Htruthy. cbn [ticks set_ticks].
  destruct (Z.ltb_spec (idle_threshold E) (clock E (ticks w) - last_interaction));
    [|lia].
  cbn [db set_ticks].
  destruct (get_conversation thread_id (db w)) as [c|] eqn:Hc;
    cbn -[close_conversation get_conversation].
  - destruct (String.eqb (conversation_status c) "open") eqn:Hopen;
      cbn -[close_conversation get_conversation].
    + split; [apply lookup_delete_eq|].
      eexists. rewrite get_conversation_close_eq, Hc. reflexivity.
    + split; [apply lookup_delete_eq|done].
  - split; [apply lookup_delete_eq|done].
Qed.

(** C5.  In every sweep cycle, a checkpoint whose last interaction is older
    than the idle threshold is removed, whatever the state of the stored
    conversation; the stored conversation is closed with reason
    [timed_out] only if it is still open when the sweep looks at it, and is
    left exactly as it is when it is already closed (or missing). *)
Theorem C5_sweep_closes_only_open w thread_id v last_interaction :
  checkpoints w !! thread_id = Some v ->
  sv_last_interaction_time v = Some last_interaction ->
  (forall n, (ticks w <= n)%nat -> idle_threshold E < clock E n - last_interaction) ->
  let w' := fst (conversation_cleanup_cycle E w) in
  checkpoints w' !! thread_id = None /\
  match get_conversation thread_id (db w) with
  | Some c =>
      if String.eqb (conversation_status c) "open"
      then exists t,
          get_conversation thread_id (db w')
          = Some {| conversation_id := conversation_id c;
                    conversation_patient_id := conversation_patient_id c;
                    conversation_status := "closed";
                    conversation_started_at := conversation_started_at c;
                    conversation_ended_at := Some t;
                    conversation_closed_reason := Some "timed_out" |}
      else get_conversation thread_id (db w') = Some c
  | None => get_conversation thread_id (db w') = None
  end.
Proof.
  intros Hcp Hlast Hidle w'.
  pose (Post := fun vw : option StateValues * option Conversation =>
    fst vw = None /\
    match get_conversation thread_id (db w) with
    | Some c =>
        if String.eqb (conversation_status c) "open"
        then exists t, snd vw = Some (close_row thread_id "timed_out" t c)
        else snd vw = Some c
    | None => snd vw = None
    end).
  assert (HP : Post (view thread_id w')).
  { apply cleanup_cycle_focus; [by rewrite Hcp|].
    intros w1 Hv Ht. injection Hv as Hv1 Hv2.
    destruct (cleanup_thread_idle thread_id w1 v last_interaction) as [H1 H2].
    - by rewrite Hv1.
    - done.
    - by apply Hidle.
    - split; [exact H1|]. rewrite Hv2 in H2. exact H2. }
  destruct HP as [H1 H2]. split; [exact H1|].
  simpl in H2.
  destruct (get_conversation thread_id (db w)) as [c|] eqn:Hc; [|done].
  destruct (String.eqb (conversation_status c) "open"); [|done].
  destruct H2 as [t H2]. exists t. rewrite H2. unfold close_row.
  assert (conversation_id c = thread_id) as ->; [|by rewrite Z.eqb_refl].
  unfold get_conversation in Hc. apply find_some in Hc as [_ Hc]. by apply Z.eqb_eq.
Qed.

(** The visit of a thread whose checkpoint has no interaction time. *)
Lemma cleanup_thread_no_time thread_id w v :
  checkpoints w !! thread_id = Some v ->
  sv_last_interaction_time v = None ->
  let w' := fst (cleanup_thread E thread_id w) in
  get_conversation thread_id (db w') = get_conversation thread_id (db w) /\
  checkpoints w' !! thread_id = (if values_truthy v then Some v else None).
Proof.
  intros Hcp Hlast.
  unfold cleanup_thread, delete_thread, aget_state.
  cbv [mbind M_bind mret M_ret gets modify tick].
  unfold get_values. rewrite Hcp, Hlast.
  destruct (values_truthy v); cbn; [done|].
  split; [done|apply lookup_delete_eq].
Qed.

(** C6, as the code has it.  In every sweep cycle, a checkpoint without an
    interaction time is removed when its state is empty and kept when its
    state is not; the stored conversation is not touched in either case.
    The comment on the branch announces the eviction of threads "that have
    no state or interaction time"; its guard, [not state or not
    state.values], tests the state alone, so the second half of the
    comment is not what the code does. *)
Theorem C6_sweep_evicts_empty w thread_id v :
  checkpoints w !! thread_id = Some v ->
  sv_last_interaction_time v = None ->
  let w' := fst (conversation_cleanup_cycle E w) in
  get_conversation thread_id (db w') = get_conversation thread_id (db w) /\
  checkpoints w' !! thread_id = (if values_truthy v then Some v else None).
Proof.
  intros Hcp Hlast w'.
  pose (Post := fun vw : option StateValues * option Conversation =>
    snd vw = get_conversation thread_id (db w) /\
    fst vw = (if values_truthy v then Some v else None)).
  assert (HP : Post (view thread_id w')); [|exact HP].
  apply cleanup_cycle_focus; [by rewrite Hcp|].
  intros w1 Hv Ht. injection Hv as Hv1 Hv2.
  destruct (cleanup_thread_no_time thread_id w1 v) as [H1 H2]; [by rewrite Hv1|done|].
  split; simpl; [by rewrite H1|exact H2].
Qed.

End Sweep.

(** ** The intake path *)

Lemma latest_started_None rows : latest_started rows = None -> rows = [].
Proof.
  destruct rows as [|c rest]; [done|]. simpl.
  destruct (latest_started rest) as [c'|]; [|done].
  by destruct (Z.ltb _ _).
Qed.

Lemma latest_started_In rows c : latest_started rows = Some c -> In c rows.
Proof.
  revert c. induction rows as [|x rest IH]; intros c; simpl; [done|].
  destruct (latest_started rest) as [c'|].
  - destruct (Z.ltb _ _); intros [= <-]; auto.
  - intros [= <-]. auto.
Qed.

(** What [get_open_conversation] finds is an open conversation of the patient. *)
Lemma get_open_conversation_Some pid d c :
  get_open_conversation pid d = Some c ->
  In c (conversations d) /\ is_open_for pid c = true.
Proof.
  unfold get_open_conversation. intros H.
  apply latest_started_In in H. by apply filter_In in H.
Qed.

(** A new open conversation for a patient who has none keeps the invariant. *)
Lemma one_open_after_create pid now1 now2 d :
  one_open_per_patient d ->
  get_open_conversation pid d = None ->
  one_open_per_patient (fst (create_conversation pid now1 now2 d)).
Proof.
  intros Hinv Hnone pid'. unfold create_conversation. cbn [fst conversations set_conversations].
  rewrite List.filter_app, length_app. cbn [List.filter].
  unfold is_open_for at 2. cbn [conversation_patient_id conversation_status].
  destruct (sql_eq pid (Some pid')) eqn:Heq; cbn [andb].
  - assert (pid = Some pid') as ->.
    { destruct pid as [p|]; [|done]. simpl in Heq. by apply Z.eqb_eq in Heq as ->. }
    unfold get_open_conversation in Hnone. apply latest_started_None in Hnone.
    rewrite Hnone. simpl. lia.
  - simpl. specialize (Hinv pid'). lia.
Qed.

Section Intake.
Context (E : Env).

(** C9.  [enqueue_message] looks the patient up by the contact handle and
    creates one, named "New Patient", only when there is none; it then looks
    up that patient's open conversation and creates one only when there is
    none; the item it puts on the queue carries that patient and that
    conversation.  If no patient had two open conversations before, none has
    after. *)
Theorem C9_enqueue_find_or_create patient_phone message w :
  one_open_per_patient (db w) ->
  let w' := fst (enqueue_message E patient_phone message w) in
  exists patient conversation_id' timestamp,
    match get_patient_by_phone patient_phone (db w) with
    | Some p => patient = p /\ patients (db w') = patients (db w)
    | None =>
        patient = {| patient_id := Some (patients_seq (db w) + 1);
                     patient_name := "New Patient"; patient_age := None;
                     patient_gender := None; patient_phone_number := patient_phone |} /\
        patients (db w') = patients (db w) ++ [patient]
    end /\
    match get_open_conversation (patient_id patient) (db w) with
    | Some c =>
        conversation_id' = conversation_id c /\
        conversations (db w') = conversations (db w)
    | None =>
        exists started_at,
          conversations (db w')
          = conversations (db w) ++
            [{| conversation_id := conversation_id';
                conversation_patient_id := patient_id patient;
                conversation_status := "open";
                conversation_started_at := started_at;
                conversation_ended_at := None;
                conversation_closed_reason := None |}]
    end /\
    message_queue w'
    = message_queue w ++
      [{| qi_conversation_id := conversation_id'; qi_patient := patient;
          qi_message := message; qi_timestamp := timestamp |}] /\
    one_open_per_patient (db w').
Proof.
  intros Hinv.
  unfold enqueue_message, db_create_patient, db_create_conversation, now, on_db.
  cbv [mbind M_bind mret M_ret gets modify tick].
  destruct (get_patient_by_phone patient_phone (db w)) as [p|] eqn:Hp;
    cbn -[get_open_conversation].
  - destruct (get_open_conversation (patient_id p) (db w)) as [c|] eqn:Hc;
      cbn -[get_open_conversation].
    + exists p, (conversation_id c). eexists. rewrite Hc. by repeat split.
    + exists p. eexists. eexists. rewrite Hc.
      split; [done|]. split; [by eexists|]. split; [done|].
      exact (one_open_after_create _ (clock E (ticks w)) 0 _ Hinv Hc).
  - set (d1 := set_patients _ _ (db w)).
    assert (Hsame : forall pid, get_open_conversation pid d1 = get_open_conversation pid (db w))
      by done.
    rewrite Hsame.
    match goal with |- context [get_open_conversation ?i (db w)] =>
      destruct (get_open_conversation i (db w)) as [c|] eqn:Hc end;
      cbn -[get_open_conversation].
    + exists {| patient_id := Some (patients_seq (db w) + 1);
                patient_name := "New Patient"; patient_age := None;
                patient_gender := None; patient_phone_number := patient_phone |}.
      exists (conversation_id c). eexists. cbn [patient_id]. rewrite Hc.
      by repeat split.
    + exists {| patient_id := Some (patients_seq (db w) + 1);
                patient_name := "New Patient"; patient_age := None;
                patient_gender := None; patient_phone_number := patient_phone |}.
      eexists. eexists. cbn [patient_id]. rewrite Hc.
      split; [done|]. split; [by eexists|]. split; [done|].
      rewrite <- Hsame in Hc.
      exact (one_open_after_create _ (clock E (ticks w)) 0 d1 Hinv Hc).
Qed.

End Intake.

(** ** Rehydration *)

(** The loop body of the worker does to one entry what the typed form says. *)
Lemma rehydrate_entry_typed history_messages entry :
  rehydrate_entry history_messages entry
  = match typed_form entry with
    | Ok (Some turn) => Ok (history_messages ++ [turn])
    | Ok None => Ok history_messages
    | Raise e => Raise e
    end.
Proof.
  unfold rehydrate_entry, typed_form, sender_kind, decode_invocations, decode_outcome.
  destruct (String.eqb (message_sender entry) "user"); [done|].
  destruct (String.eqb (message_sender entry) "agent"); [done|].
  destruct (String.eqb (message_sender entry) "agent_tool_call").
  { destruct (Json.loads (message_message entry)) as [[]|]; done. }
  destruct (String.eqb (message_sender entry) "tool"); [|done].
  destruct (Json.loads (message_message entry)) as [[| | | | | |members]|]; try done.
  destruct (Json.get "content" members) as [content|]; [|done].
  destruct content; (destruct (Json.get "tool_call_id" members) as [id|]; [|done]);
    try done; by destruct id.
Qed.

Lemma rehydrate_from_typed log history_messages :
  rehydrate_from log history_messages
  = match typed_transcript log with
    | Ok turns => Ok (history_messages ++ turns)
    | Raise e => Raise e
    end.
Proof.
  revert history_messages. induction log as [|entry rest IH]; intros acc; simpl.
  - by rewrite app_nil_r.
  - rewrite rehydrate_entry_typed.
    destruct (typed_form entry) as [[turn|]|e]; [| |done].
    + rewrite IH. destruct (typed_transcript rest); [|done].
      by rewrite <- app_assoc.
    + rewrite IH. by destruct (typed_transcript rest).
Qed.

Lemma rehydrate_typed log : rehydrate log = typed_transcript log.
Proof.
  unfold rehydrate. rewrite rehydrate_from_typed. by destruct (typed_transcript log).
Qed.

(** With known senders only, the transcript has one turn per entry, in order. *)
Lemma typed_transcript_aligned log turns :
  Forall (fun entry => sender_kind (message_sender entry) <> None) log ->
  typed_transcript log = Ok turns ->
  Forall2 (fun entry turn => typed_form entry = Ok (Some turn)) log turns.
Proof.
  intros Hknown. revert turns. induction Hknown as [|entry rest Hk _ IH]; intros turns; simpl.
  - intros [= <-]. constructor.
  - destruct (typed_form entry) as [[turn|]|e] eqn:Hentry; [| |done].
    + destruct (typed_transcript rest) as [ts|]; [|done].
      intros [= <-]. constructor; auto.
    + exfalso. unfold typed_form in Hentry.
      destruct (sender_kind (message_sender entry)) as [[]|]; try done.
      * by destruct (decode_invocations _).
      * by destruct (decode_outcome _) as [[]|].
Qed.

(** One entry that does not deserialize makes the whole rehydration raise. *)
Lemma typed_transcript_raises log bad e :
  In bad log -> typed_form bad = Raise e ->
  exists e', typed_transcript log = Raise e'.
Proof.
  induction log as [|entry rest IH]; intros Hin Hbad; [done|]. simpl.
  destruct Hin as [->|Hin].
  - rewrite Hbad. eauto.
  - destruct (typed_form entry); [|eauto].
    destruct (IH Hin Hbad) as [e' ->]. eauto.
Qed.

(** *** The order of the stored log *)

Lemma insert_by_created_at_perm m sorted :
  Permutation (insert_by_created_at m sorted) (m :: sorted).
Proof.
  induction sorted as [|x rest IH]; simpl; [done|].
  destruct (Z.ltb _ _); [done|].
  rewrite IH. apply perm_swap.
Qed.

Lemma insert_by_created_at_sorted m sorted :
  StronglySorted created_le sorted ->
  StronglySorted created_le (insert_by_created_at m sorted).
Proof.
  induction 1 as [|x rest Hrest IH Hx]; simpl.
  - repeat constructor.
  - destruct (Z.ltb_spec (message_created_at m) (message_created_at x)) as [Hlt|Hge].
    + constructor; [by constructor|].
      constructor; [unfold created_le; lia|].
      eapply Forall_impl; [exact Hx|]. unfold created_le. intros; lia.
    + constructor; [done|].
      rewrite insert_by_created_at_perm. by constructor.
Qed.

Lemma order_by_created_at_from rows sorted :
  StronglySorted created_le sorted ->
  let result := fold_left (fun acc m => insert_by_created_at m acc) rows sorted in
  StronglySorted created_le result /\ Permutation result (sorted ++ rows).
Proof.
  revert sorted. induction rows as [|m rest IH]; intros sorted Hs; simpl.
  - by rewrite app_nil_r.
  - destruct (IH (insert_by_created_at m sorted)) as [H1 H2];
      [by apply insert_by_created_at_sorted|].
    split; [done|]. rewrite H2, insert_by_created_at_perm.
    simpl. apply Permutation_middle.
Qed.

Lemma order_by_created_at_spec rows :
  StronglySorted created_le (order_by_created_at rows) /\
  Permutation (order_by_created_at rows) rows.
Proof. apply (order_by_created_at_from rows []). constructor. Qed.

(** C8.  For every conversation id, rehydration reads all the stored
    entries of the conversation, in [created_at] order, and maps them, in
    that order, to their typed forms: a [user] entry to a user turn, an agent
    text to an assistant text turn, a tool request to an assistant turn with
    the deserialized invocation list, a tool result to a tool-outcome turn
    with the deserialized call id and payload; an empty log gives an empty
    transcript. *)
Theorem C8_rehydration_maps_log d conversation_id' :
  let log := get_messages conversation_id' d in
  Permutation log
    (List.filter (fun m => Z.eqb (message_conversation_id m) conversation_id') (messages d)) /\
  StronglySorted created_le log /\
  rehydrate log = typed_transcript log /\
  (forall turns,
      Forall (fun entry => sender_kind (message_sender entry) <> None) log ->
      rehydrate log = Ok turns ->
      Forall2 (fun entry turn => typed_form entry = Ok (Some turn)) log turns) /\
  (log = [] -> rehydrate log = Ok []).
Proof.
  intros log. destruct (order_by_created_at_spec
    (List.filter (fun m => Z.eqb (message_conversation_id m) conversation_id') (messages d)))
    as [Hs Hp].
  split; [exact Hp|]. split; [exact Hs|]. split; [apply rehydrate_typed|]. split.
  - intros turns Hknown Hok. rewrite rehydrate_typed in Hok.
    by apply typed_transcript_aligned.
  - by intros ->.
Qed.

(** ** A malformed stored entry *)

Section Malformed.
Context (E : Env).

(** When rehydration raises, the turn ends there: nothing is stored, the
    agent is not run, nothing is sent. *)
Lemma process_item_rehydrate_raises task w e :
  messages_of (get_values (qi_conversation_id task) w) = [] ->
  rehydrate (get_messages (qi_conversation_id task) (db w)) = Raise e ->
  process_item E task w = (w, Raise e).
Proof.
  intros Hempty Hraise.
  unfold process_item, load_history, aget_state.
  cbv [mbind M_bind mret M_ret gets modify lift].
  rewrite Hempty. cbn [negb nonempty_list]. by rewrite Hraise.
Qed.

(** C3, as the code has it.  When the checkpoint of a conversation is
    empty and one entry of its stored log has a payload that does not
    deserialize, rehydration raises and yields no transcript; the exception
    ends the turn at the item boundary: it is logged with the conversation
    id, the item is dropped, and the store, the checkpoints and the outbox
    are as they were. *)
Theorem C3_malformed_entry_aborts_turn w task rest bad e :
  message_queue w = task :: rest ->
  messages_of (get_values (qi_conversation_id task) w) = [] ->
  In bad (get_messages (qi_conversation_id task) (db w)) ->
  rehydrate_entry [] bad = Raise e ->
  exists e',
    rehydrate (get_messages (qi_conversation_id task) (db w)) = Raise e' /\
    consume_one E w
    = Some (set_error_log (error_log w ++ [AgentError (qi_conversation_id task) e'])
              (set_message_queue rest w)).
Proof.
  intros Hq Hempty Hin Hbad.
  rewrite rehydrate_entry_typed in Hbad.
  assert (Htyped : typed_form bad = Raise e).
  { by destruct (typed_form bad) as [[]|]; try discriminate; injection Hbad as ->. }
  destruct (typed_transcript_raises _ bad e Hin Htyped) as [e' He'].
  exists e'. rewrite rehydrate_typed. split; [done|].
  unfold consume_one. rewrite Hq.
  rewrite (process_item_rehydrate_raises task (set_message_queue rest w) e');
    [done|done|by rewrite rehydrate_typed].
Qed.

End Malformed.

(** ** The transcript of a turn *)

#[local] Instance transcript_grows_preorder c : PreOrder (transcript_grows c).
Proof.
  split.
  - intros w. exists []. by rewrite app_nil_r.
  - intros w1 w2 w3 (g1 & H1 & F1) (g2 & H2 & F2). exists (g1 ++ g2). split.
    + by rewrite H2, H1, app_assoc.
    + by apply Forall_app.
Qed.

Lemma get_values_update c f w :
  get_values c (set_checkpoints (<[c := f (get_values c w)]> (checkpoints w)) w)
  = f (get_values c w).
Proof. unfold get_values at 1. simpl. by rewrite lookup_insert_eq. Qed.

Lemma same_checkpoints_transcript {A : Type} c (m : M A) :
  preserves same_checkpoints m -> preserves (transcript_grows c) m.
Proof.
  intros H w. destruct (H w) as [Hc _]. exists []. rewrite app_nil_r.
  unfold get_values. by rewrite Hc.
Qed.

Lemma update_values_transcript c f :
  (forall v, exists generated,
      messages_of (f v) = messages_of v ++ generated /\
      Forall (fun msg => is_human msg = false) generated) ->
  preserves (transcript_grows c) (update_values c f).
Proof.
  intros Hf w. unfold update_values, modify. simpl.
  destruct (Hf (get_values c w)) as (g & Hg & Fg).
  exists g. by rewrite get_values_update.
Qed.

Section Transcript.
Context (E : Env).

Lemma run_tool_same_checkpoints call : preserves same_checkpoints (run_tool E call).
Proof. unfold run_tool. solve_preserves. Qed.
Hint Resolve run_tool_same_checkpoints : preserves.

Lemma run_tools_same_checkpoints calls : preserves same_checkpoints (run_tools E calls).
Proof. induction calls; simpl; solve_preserves. Qed.

(** The tools node answers with tool messages only. *)
Lemma run_tools_outcomes calls w w' outcomes :
  run_tools E calls w = (w', Ok outcomes) ->
  Forall (fun msg => is_human msg = false) outcomes.
Proof.
  revert w w' outcomes. induction calls as [|call rest IH]; intros w w' outcomes; simpl.
  - intros [= _ <-]. constructor.
  - intros H. apply bind_Ok_inv in H as (content & w1 & _ & H).
    apply bind_Ok_inv in H as (outs & w2 & Hrest & H).
    injection H as _ <-. constructor; [done|]. by eapply IH.
Qed.

Lemma tools_transcript c calls : preserves (transcript_grows c) (tools E c calls).
Proof.
  intros w. unfold tools. rewrite bind_unfold.
  pose proof (same_checkpoints_transcript c _ (run_tools_same_checkpoints calls) w) as H1.
  destruct (run_tools E calls w) as [w1 [outcomes|e]] eqn:Hrun; simpl in *; [|done].
  etransitivity; [exact H1|].
  refine (update_values_transcript c (fun state => add_messages state outcomes) _ w1).
  intros v. exists outcomes. split; [done|].
  by eapply run_tools_outcomes.
Qed.

Lemma assistant_transcript c : preserves (transcript_grows c) (assistant E c).
Proof.
  unfold assistant.
  pose proof (same_checkpoints_transcript c _ tick_same_checkpoints).
  solve_preserves.
  apply update_values_transcript. intros v. eexists [_]. split; [done|]. by constructor.
Qed.

Lemma update_timestamp_transcript c :
  preserves (transcript_grows c) (update_timestamp_node E c).
Proof.
  unfold update_timestamp_node.
  pose proof (same_checkpoints_transcript c _ (now_same_checkpoints E)).
  solve_preserves.
  apply update_values_transcript. intros v. exists []. by rewrite app_nil_r.
Qed.

Lemma run_graph_transcript n c : preserves (transcript_grows c) (run_graph E n c).
Proof.
  induction n as [|n IH]; simpl; [solve_preserves|].
  pose proof (assistant_transcript c). pose proof (tools_transcript c).
  pose proof (update_timestamp_transcript c).
  solve_preserves.
Qed.

(** What [ainvoke] answers with: the values of the thread as it leaves
    them, whose transcript is the one it found, then the input, then what
    the graph generated. *)
Lemma ainvoke_response c input w w' response :
  ainvoke E c input w = (w', Ok response) ->
  response = get_values c w' /\
  exists generated,
    messages_of response = messages_of (get_values c w) ++ input ++ generated /\
    Forall (fun msg => is_human msg = false) generated.
Proof.
  unfold ainvoke. intros H.
  apply bind_Ok_inv in H as ([] & w1 & H1 & H).
  apply bind_Ok_inv in H as ([] & w2 & H2 & H).
  injection H as <- <-. split; [done|].
  unfold update_values, modify in H1. injection H1 as <-.
  pose proof (run_graph_transcript (recursion_limit E) c
                (set_checkpoints
                   (<[c := add_messages (get_values c w) input]> (checkpoints w)) w))
    as (g & Hg & Fg).
  rewrite H2 in Hg. cbn [fst] in Hg.
  rewrite (get_values_update c (fun state => add_messages state input)) in Hg.
  exists g. split; [|done]. rewrite Hg. simpl. by rewrite app_assoc.
Qed.

End Transcript.

(** *** The last user turn of a transcript *)

Lemma first_human_none indexed :
  first_human indexed = -1 -> Forall (fun p => is_human (snd p) = false) indexed.
Proof.
  induction indexed as [|[i msg] rest IH]; simpl; [constructor|].
  destruct (is_human msg) eqn:Hh; [lia|]. intros H. constructor; auto.
Qed.

Lemma enumerate_snd {A : Type} (l : list A) : map snd (enumerate l) = l.
Proof.
  unfold enumerate. generalize 0%nat.
  induction l as [|x l IH]; intros k; simpl; [done|]. by rewrite IH.
Qed.

Lemma last_human_message_index_none msgs :
  last_human_message_index msgs = -1 -> Forall (fun msg => is_human msg = false) msgs.
Proof.
  unfold last_human_message_index. intros H. apply first_human_none in H.
  rewrite <- (enumerate_snd msgs). rewrite Forall_map.
  rewrite List.Forall_forall in *. intros p Hp. apply H. by apply in_rev in Hp.
Qed.

(** ** What a turn stores as text and what it sends *)

#[local] Instance speaks_preorder P : PreOrder (speaks P).
Proof.
  split.
  - intros w. exists [], []. by rewrite !app_nil_r.
  - intros w1 w2 w3 (r1 & s1 & H1 & H2 & H3 & H4) (r2 & s2 & H5 & H6 & H7 & H8).
    exists (r1 ++ r2), (s1 ++ s2). repeat split.
    + by rewrite H5, H1, app_assoc.
    + by rewrite H6, H2, app_assoc.
    + by apply Forall_app.
    + by apply Forall_app.
Qed.

Lemma speaks_weaken (P Q : string -> Prop) w w' :
  (forall t, P t -> Q t) -> speaks P w w' -> speaks Q w w'.
Proof.
  intros HPQ (r & s & H1 & H2 & H3 & H4). exists r, s. repeat split; [done..| |].
  - eapply Forall_impl; [exact H3|]. naive_solver.
  - eapply Forall_impl; [exact H4|]. naive_solver.
Qed.

Lemma quiet_speaks {A : Type} P (m : M A) :
  preserves quiet m -> preserves (speaks P) m.
Proof.
  intros H w. destruct (H w) as (H1 & H2 & _). exists [], [].
  by rewrite !app_nil_r.
Qed.

Section Speaks.
Context (E : Env).

Lemma db_add_message_speaks P c sender text :
  (sender = "agent" -> P text) ->
  preserves (speaks P) (db_add_message E c sender text).
Proof.
  intros HP. unfold db_add_message.
  refine (preserves_bind _ _ _ _ _); [apply quiet_speaks; solve_preserves|intros now1].
  refine (preserves_bind _ _ _ _ _); [apply quiet_speaks; solve_preserves|intros now2].
  intros w. cbn. eexists [_], []. rewrite app_nil_r.
  repeat split; [|constructor]. by repeat constructor.
Qed.

Lemma send_message_speaks (P : string -> Prop) phone text :
  P text -> preserves (speaks P) (send_message E phone text).
Proof.
  intros HP. unfold send_message.
  refine (preserves_bind _ _ _ _ _); [apply quiet_speaks; solve_preserves|intros n].
  destruct (channel E n phone text); [|solve_preserves].
  intros w. cbn. eexists [], [_]. rewrite app_nil_r.
  repeat split; [constructor|]. by repeat constructor.
Qed.

Lemma save_generated_speaks c phone msg :
  preserves (speaks (fun text => msg = AIMessage text [])) (save_generated E c phone msg).
Proof.
  unfold save_generated. destruct msg as [content|content tool_calls|content id].
  - solve_preserves.
  - destruct tool_calls as [|call rest]; cbn [nonempty_list].
    + destruct (nonempty_string content); [|solve_preserves].
      refine (preserves_bind _ _ _ _ _); [by apply db_add_message_speaks|intros _].
      by apply send_message_speaks.
    + refine (preserves_bind _ _ _ _ _); [by apply db_add_message_speaks|intros _].
      solve_preserves.
  - refine (preserves_bind _ _ _ _ _); [by apply db_add_message_speaks|intros _].
    solve_preserves.
Qed.

Lemma save_turn_speaks c phone msgs :
  preserves (speaks (fun text => In (AIMessage text []) msgs)) (save_turn E c phone msgs).
Proof.
  induction msgs as [|msg rest IH]; simpl; [solve_preserves|].
  refine (preserves_bind _ _ _ _ _); [|intros _].
  - intros w. eapply speaks_weaken; [|apply save_generated_speaks].
    intros t ->. by left.
  - intros w. eapply speaks_weaken; [|apply IH]. intros t Ht. by right.
Qed.

Lemma process_response_speaks c phone msgs :
  last_human_message_index msgs <> -1 ->
  preserves (speaks (fun text => In (AIMessage text []) (messages_this_turn msgs)))
    (process_response E c phone msgs).
Proof.
  intros Hidx. unfold process_response.
  destruct (Z.eqb_spec (last_human_message_index msgs) (-1)); [done|].
  apply save_turn_speaks.
Qed.

Section Tools.
Context (Htools : tools_keep_messages E).

(** The transcript [ainvoke] answers with holds the user turn it was given. *)
Lemma ainvoke_has_human c message w w' response :
  ainvoke E c [HumanMessage message] w = (w', Ok response) ->
  last_human_message_index (messages_of response) <> -1.
Proof.
  intros H Hidx. apply ainvoke_response in H as (_ & g & Hg & _).
  apply last_human_message_index_none in Hidx. rewrite Hg in Hidx.
  apply Forall_app in Hidx as [_ Hidx]. apply Forall_app in Hidx as [Hidx _].
  by apply Forall_cons in Hidx as [Hidx _].
Qed.

(** The text a turn stores or sends is the text of an assistant message of
    this turn that carries no tool call. *)
Lemma process_item_speaks task w :
  let c := qi_conversation_id task in
  let w' := fst (process_item E task w) in
  speaks (fun text =>
            In (AIMessage text []) (messages_this_turn (messages_of (get_values c w'))))
    w w'.
Proof.
  intros c w'. subst w'. unfold process_item. fold c.
  set (P := fun w' text =>
              In (AIMessage text []) (messages_this_turn (messages_of (get_values c w')))).
  change (speaks (P (fst ((load_history c (qi_patient task) ≫= fun _ =>
            db_add_message E c "user" (qi_message task) ≫= fun _ =>
            ainvoke E c [HumanMessage (qi_message task)] ≫= fun response =>
            process_response E c (patient_phone_number (qi_patient task))
              (messages_of response)) w))) w
          (fst ((load_history c (qi_patient task) ≫= fun _ =>
            db_add_message E c "user" (qi_message task) ≫= fun _ =>
            ainvoke E c [HumanMessage (qi_message task)] ≫= fun response =>
            process_response E c (patient_phone_number (qi_patient task))
              (messages_of response)) w))).
  rewrite bind_unfold.
  assert (H1 : forall Q, speaks Q w (fst (load_history c (qi_patient task) w))).
  { intros Q. apply quiet_speaks, load_history_quiet. }
  destruct (load_history c (qi_patient task) w) as [w1 [[]|e]]; simpl in H1; [|apply H1].
  rewrite bind_unfold.
  assert (H2 : forall Q, speaks Q w1 (fst (db_add_message E c "user" (qi_message task) w1))).
  { intros Q. by apply db_add_message_speaks. }
  destruct (db_add_message E c "user" (qi_message task) w1) as [w2 [msg|e]];
    simpl in H2; [|etransitivity; [apply H1|apply H2]].
  rewrite bind_unfold.
  assert (H3 : forall Q, speaks Q w2
                 (fst (ainvoke E c [HumanMessage (qi_message task)] w2))).
  { intros Q. by apply quiet_speaks, ainvoke_quiet. }
  destruct (ainvoke E c [HumanMessage (qi_message task)] w2) as [w3 [response|e]] eqn:Hinv;
    simpl in H3; [|etransitivity; [apply H1|]; etransitivity; [apply H2|apply H3]].
  pose proof (ainvoke_has_human _ _ _ _ _ Hinv) as Hidx.
  apply ainvoke_response in Hinv as [Hresp _].
  pose proof (process_response_speaks c (patient_phone_number (qi_patient task))
                (messages_of response) Hidx w3) as H4.
  destruct (process_response_same_checkpoints E c
              (patient_phone_number (qi_patient task)) (messages_of response) w3)
    as [Hcp _].
  set (w4 := fst (process_response E c (patient_phone_number (qi_patient task))
                    (messages_of response) w3)) in *.
  assert (Heq : get_values c w4 = response).
  { rewrite Hresp. unfold get_values. by rewrite Hcp. }
  unfold P. rewrite Heq.
  etransitivity; [apply H1|]. etransitivity; [apply H2|]. etransitivity; [apply H3|].
  exact H4.
Qed.

(** C10.  An assistant message that carries tool calls is stored as one
    [agent_tool_call] row holding the serialized call list, and nothing of
    it is sent: its text goes nowhere.  Over a whole turn, every text stored
    with sender [agent] and every text sent is the text of an assistant
    message of this turn that carries no tool call. *)
Theorem C10_tool_call_text_dropped task w content tool_calls phone :
  tool_calls <> [] ->
  let c := qi_conversation_id task in
  (exists row,
      db (fst (save_generated E c phone (AIMessage content tool_calls) w))
      = set_messages (messages (db w) ++ [row]) (messages_seq (db w) + 1) (db w) /\
      message_conversation_id row = c /\
      message_sender row = "agent_tool_call" /\
      message_message row = Json.dumps (Json.Arr tool_calls) /\
      outbox (fst (save_generated E c phone (AIMessage content tool_calls) w)) = outbox w /\
      snd (save_generated E c phone (AIMessage content tool_calls) w) = Ok tt) /\
  let w' := fst (process_item E task w) in
  exists rows sends,
    messages (db w') = messages (db w) ++ rows /\
    outbox w' = outbox w ++ sends /\
    Forall (fun m =>
              message_sender m = "agent" ->
              In (AIMessage (message_message m) [])
                (messages_this_turn (messages_of (get_values c w')))) rows /\
    Forall (fun s =>
              In (AIMessage (snd s) [])
                (messages_this_turn (messages_of (get_values c w')))) sends.
Proof.
  intros Hcalls c. split.
  - destruct tool_calls as [|call rest]; [done|].
    unfold save_generated, db_add_message, now, on_db.
    cbv [mbind M_bind mret M_ret gets modify tick]. cbn.
    eexists. repeat split.
  - apply process_item_speaks.
Qed.

End Tools.
End Speaks.

(** ** Persisting a turn, then rehydrating *)

Lemma enumerate_from_app {A : Type} (k : nat) (l1 l2 : list A) :
  combine (seq k (List.length (l1 ++ l2))) (l1 ++ l2)
  = combine (seq k (List.length l1)) l1
    ++ combine (seq (k + List.length l1) (List.length l2)) l2.
Proof.
  revert k. induction l1 as [|x l1 IH]; intros k; simpl.
  - by rewrite Nat.add_0_r.
  - rewrite IH. by rewrite Nat.add_succ_r.
Qed.

Lemma combine_seq_snd {A : Type} (k : nat) (l : list A) :
  map snd (combine (seq k (List.length l)) l) = l.
Proof. revert k. induction l as [|x l IH]; intros k; simpl; [done|]. by rewrite IH. Qed.

Lemma first_human_skip before i msg after :
  Forall (fun p => is_human (snd p) = false) before ->
  is_human msg = true ->
  first_human (before ++ (i, msg) :: after) = Z.of_nat i.
Proof.
  induction 1 as [|[j x] rest Hx _ IH]; intros Hh; simpl.
  - by rewrite Hh.
  - simpl in Hx. rewrite Hx. auto.
Qed.

(** The index the worker finds is the position of the user turn that
    [ainvoke] was given, and the messages of the turn are those after it. *)
Lemma last_human_message_index_app before message generated :
  Forall (fun msg => is_human msg = false) generated ->
  last_human_message_index (before ++ HumanMessage message :: generated)
  = Z.of_nat (List.length before).
Proof.
  intros Hg. unfold last_human_message_index, enumerate.
  rewrite enumerate_from_app. simpl. rewrite rev_app_distr. simpl.
  rewrite <- app_assoc. simpl.
  apply first_human_skip; [|done].
  rewrite List.Forall_forall. intros p Hp. apply in_rev in Hp.
  rewrite List.Forall_forall in Hg. apply Hg.
  rewrite <- (combine_seq_snd (S (List.length before)) generated).
  by apply in_map.
Qed.

Lemma messages_this_turn_app before message generated :
  Forall (fun msg => is_human msg = false) generated ->
  messages_this_turn (before ++ HumanMessage message :: generated) = generated.
Proof.
  intros Hg. unfold messages_this_turn.
  rewrite last_human_message_index_app by done.
  replace (Z.to_nat (Z.of_nat (List.length before) + 1)) with (S (List.length before)) by lia.
  change (HumanMessage message :: generated) with ([HumanMessage message] ++ generated).
  rewrite app_assoc.
  replace (S (List.length before)) with (List.length (before ++ [HumanMessage message]))
    by (rewrite length_app; simpl; lia).
  by rewrite drop_app_length.
Qed.

(** *** Reading back a log that was written in time order *)

Lemma insert_by_created_at_last m sorted :
  Forall (fun x => message_created_at x <= message_created_at m) sorted ->
  insert_by_created_at m sorted = sorted ++ [m].
Proof.
  induction 1 as [|x rest Hx _ IH]; simpl; [done|].
  destruct (Z.ltb_spec (message_created_at m) (message_created_at x)); [lia|].
  by rewrite IH.
Qed.

Lemma order_by_created_at_snoc rows m :
  Forall (fun x => message_created_at x <= message_created_at m) rows ->
  order_by_created_at (rows ++ [m]) = order_by_created_at rows ++ [m].
Proof.
  intros Hrows. unfold order_by_created_at. rewrite fold_left_app. simpl.
  apply insert_by_created_at_last.
  destruct (order_by_created_at_spec rows) as [_ Hperm].
  unfold order_by_created_at in Hperm. by rewrite Hperm.
Qed.

Lemma get_messages_add c c' sender text now1 now2 d :
  Forall (fun x => message_created_at x < now1) (messages d) ->
  get_messages c (fst (add_message c' sender text now1 now2 d))
  = get_messages c d ++
    (if Z.eqb c' c
     then [{| message_id := messages_seq d + 1; message_conversation_id := c';
              message_sender := sender; message_message := text;
              message_created_at := now1 |}]
     else []).
Proof.
  intros Hold. unfold get_messages, add_message. cbn [fst messages set_messages].
  rewrite List.filter_app. cbn [List.filter message_conversation_id].
  destruct (Z.eqb c' c); [|by rewrite !app_nil_r].
  apply order_by_created_at_snoc. simpl.
  rewrite List.Forall_forall in *. intros x Hx. apply filter_In in Hx as [Hx _].
  specialize (Hold x Hx). lia.
Qed.

Lemma rehydrate_from_app log1 log2 history_messages :
  rehydrate_from (log1 ++ log2) history_messages
  = match rehydrate_from log1 history_messages with
    | Ok history_messages' => rehydrate_from log2 history_messages'
    | Raise e => Raise e
    end.
Proof.
  revert history_messages. induction log1 as [|entry rest IH]; intros acc; simpl; [done|].
  destruct (rehydrate_entry acc entry); [apply IH|done].
Qed.

(** What rehydration makes of the rows the worker writes. *)
Lemma rehydrate_entry_tool_call history_messages entry tool_calls :
  message_sender entry = "agent_tool_call" ->
  message_message entry = Json.dumps (Json.Arr tool_calls) ->
  rehydrate_entry history_messages entry
  = Ok (history_messages ++ [AIMessage EmptyString tool_calls]).
Proof.
  intros Hs Hm. unfold rehydrate_entry. rewrite Hs, Hm. cbn [String.eqb Ascii.eqb Bool.eqb].
  by rewrite JsonFacts.loads_dumps.
Qed.

Lemma rehydrate_entry_tool history_messages entry content id :
  message_sender entry = "tool" ->
  message_message entry = Json.dumps (tool_data content id) ->
  rehydrate_entry history_messages entry = Ok (history_messages ++ [ToolMessage content id]).
Proof.
  intros Hs Hm. unfold rehydrate_entry. rewrite Hs, Hm. cbn [String.eqb Ascii.eqb Bool.eqb].
  by rewrite JsonFacts.loads_dumps.
Qed.

(** *** What a turn sends *)

Section Replies.
Context (E : Env).

Lemma db_add_message_outbox c sender text w :
  outbox (fst (db_add_message E c sender text w)) = outbox w.
Proof. reflexivity. Qed.

(** A turn that ends without an exception has sent one message per
    assistant text generated in it, and nothing else. *)
Lemma save_turn_outbox c phone msgs w w' :
  save_turn E c phone msgs w = (w', Ok tt) ->
  outbox w' = outbox w ++ map (fun text => (phone, text)) (replies msgs).
Proof.
  revert w. induction msgs as [|msg rest IH]; intros w; simpl.
  - intros [= <-]. by rewrite app_nil_r.
  - intros H. apply bind_Ok_inv in H as ([] & w1 & Hsave & Hrest).
    apply IH in Hrest. rewrite Hrest. clear IH Hrest.
    destruct msg as [content|content tool_calls|content id]; simpl in Hsave.
    + injection Hsave as <-. done.
    + destruct tool_calls as [|call calls]; cbn [nonempty_list] in Hsave.
      * destruct content as [|ch content]; cbn [nonempty_string] in Hsave.
        { injection Hsave as <-. done. }
        apply bind_Ok_inv in Hsave as (row & w2 & Hadd & Hsend).
        pose proof (db_add_message_outbox c "agent" (String ch content) w) as Hout.
        rewrite Hadd in Hout. simpl in Hout.
        unfold send_message in Hsend. rewrite bind_unfold in Hsend. cbn [tick] in Hsend.
        destruct (channel E (ticks w2) phone (String ch content)); [|done].
        injection Hsend as <-. simpl. rewrite Hout, <- app_assoc. reflexivity.
      * apply bind_Ok_inv in Hsave as (row & w2 & Hadd & Hret).
        injection Hret as <-.
        pose proof (db_add_message_outbox c "agent_tool_call"
                      (Json.dumps (Json.Arr (call :: calls))) w) as Hout.
        rewrite Hadd in Hout. simpl in Hout. rewrite Hout. by destruct content.
    + apply bind_Ok_inv in Hsave as (row & w2 & Hadd & Hret).
      injection Hret as <-.
      pose proof (db_add_message_outbox c "tool" (Json.dumps (tool_data content id)) w)
        as Hout.
      rewrite Hadd in Hout. simpl in Hout. by rewrite Hout.
Qed.

End Replies.

Section RoundTrip.
Context (E : Env) (Hclock : clock_increasing E).

Lemma clock_le i j : (i <= j)%nat -> clock E i <= clock E j.
Proof.
  intros H. destruct (decide (i = j)) as [->|Hne]; [lia|].
  assert (i < j)%nat by lia. specialize (Hclock i j). lia.
Qed.

Lemma logged_later c w w' transcript :
  logged E c w transcript ->
  messages (db w') = messages (db w) -> (ticks w <= ticks w')%nat ->
  logged E c w' transcript.
Proof.
  intros [Hlog Htime] Hm Ht. unfold logged, timely, get_messages in *. rewrite Hm.
  split; [done|]. eapply Forall_impl; [exact Htime|].
  intros m Hlt. simpl in *. pose proof (clock_le _ _ Ht). lia.
Qed.

Lemma logged_quiet c w w' transcript :
  logged E c w transcript -> quiet w w' -> logged E c w' transcript.
Proof. intros H (Hm & _ & Ht). by eapply logged_later. Qed.

Lemma db_add_message_run c sender text w :
  db_add_message E c sender text w
  = (set_db (fst (add_message c sender text (clock E (ticks w)) (clock E (S (ticks w)))
                    (db w)))
       (set_ticks (S (S (ticks w))) w),
     Ok (snd (add_message c sender text (clock E (ticks w)) (clock E (S (ticks w)))
                (db w)))).
Proof. reflexivity. Qed.

(** One more row of conversation [c] extends the transcript by what the
    rehydration loop makes of it. *)
Lemma logged_add c sender text w transcript transcript' :
  logged E c w transcript ->
  (forall entry, message_sender entry = sender -> message_message entry = text ->
                 rehydrate_entry transcript entry = Ok transcript') ->
  logged E c (fst (db_add_message E c sender text w)) transcript'.
Proof.
  intros [Hlog Htime] Hentry. rewrite db_add_message_run. cbn [fst].
  split.
  - cbn [db set_db]. rewrite get_messages_add by exact Htime.
    rewrite Z.eqb_refl. unfold rehydrate in *. rewrite rehydrate_from_app, Hlog.
    simpl. by rewrite Hentry.
  - unfold timely in *. cbn [db set_db ticks set_ticks].
    unfold add_message. cbn [fst messages set_messages].
    apply Forall_app. split.
    + eapply Forall_impl; [exact Htime|]. intros m Hlt. simpl in *.
      pose proof (Hclock (ticks w) (S (S (ticks w)))). lia.
    + constructor; [|constructor]. simpl. apply Hclock. lia.
Qed.

Lemma send_message_later phone text w :
  messages (db (fst (send_message E phone text w))) = messages (db w) /\
  (ticks w <= ticks (fst (send_message E phone text w)))%nat.
Proof.
  unfold send_message. rewrite bind_unfold. cbn [tick].
  destruct (channel E (ticks w) phone text); cbn; split; (done || lia).
Qed.

(** Storing the generated messages of a turn, in order, extends the
    transcript the log rehydrates to by exactly these messages. *)
Lemma save_turn_logged c phone generated w w' transcript :
  logged E c w transcript ->
  Forall faithful generated ->
  Forall (fun msg => is_human msg = false) generated ->
  save_turn E c phone generated w = (w', Ok tt) ->
  logged E c w' (transcript ++ generated).
Proof.
  intros Hlog Hfaith. revert w transcript Hlog.
  induction Hfaith as [|msg rest Hmsg _ IH]; intros w transcript Hlog Hnh; simpl.
  - intros [= <-]. by rewrite app_nil_r.
  - apply Forall_cons in Hnh as [Hh Hnh].
    intros H. apply bind_Ok_inv in H as ([] & w1 & Hsave & Hrest).
    replace (transcript ++ msg :: rest) with ((transcript ++ [msg]) ++ rest)
      by by rewrite <- app_assoc.
    eapply IH; [|done|exact Hrest]. clear IH Hrest.
    destruct msg as [content|content tool_calls|content id]; [done| |]; simpl in Hsave.
    + destruct Hmsg as [[Hcalls ->]|[-> Hcontent]].
      * destruct tool_calls as [|call calls]; [done|]. cbn [nonempty_list] in Hsave.
        apply bind_Ok_inv in Hsave as (row & w2 & Hadd & Hret).
        injection Hret as <-.
        replace w2 with (fst (db_add_message E c "agent_tool_call"
                                (Json.dumps (Json.Arr (call :: calls))) w))
          by by rewrite Hadd.
        eapply logged_add; [exact Hlog|].
        intros entry Hs Hm. by apply rehydrate_entry_tool_call.
      * cbn [nonempty_list] in Hsave.
        destruct content as [|ch content]; [done|]. cbn [nonempty_string] in Hsave.
        apply bind_Ok_inv in Hsave as (row & w2 & Hadd & Hsend).
        pose proof (send_message_later phone (String ch content) w2) as [Hm Ht].
        rewrite Hsend in Hm, Ht. simpl in Hm, Ht.
        eapply logged_later; [|exact Hm|exact Ht].
        replace w2 with (fst (db_add_message E c "agent" (String ch content) w))
          by by rewrite Hadd.
        eapply logged_add; [exact Hlog|].
        intros entry Hs Hm'. unfold rehydrate_entry. by rewrite Hs, Hm'.
    + apply bind_Ok_inv in Hsave as (row & w2 & Hadd & Hret).
      injection Hret as <-.
      replace w2 with (fst (db_add_message E c "tool"
                              (Json.dumps (tool_data content id)) w))
        by by rewrite Hadd.
      eapply logged_add; [exact Hlog|].
      intros entry Hs Hm. by apply rehydrate_entry_tool.
Qed.

(** After [load_history], the transcript of the checkpoint is what the log
    rehydrates to: it was just rebuilt from the log, or it was kept and
    agreed with the log before. *)
Lemma load_history_logged c patient w w' :
  timely E w ->
  (messages_of (get_values c w) <> [] ->
   rehydrate (get_messages c (db w)) = Ok (messages_of (get_values c w))) ->
  load_history c patient w = (w', Ok tt) ->
  logged E c w' (messages_of (get_values c w')).
Proof.
  intros Htime Hcons. unfold load_history, aget_state.
  rewrite bind_unfold. cbn [gets].
  destruct (messages_of (get_values c w)) as [|m ms] eqn:Hmsgs; cbn [nonempty_list negb].
  - rewrite bind_unfold. cbn [gets]. rewrite bind_unfold. unfold lift.
    destruct (rehydrate (get_messages c (db w))) as [history|e] eqn:Hre; [|done].
    unfold aupdate_state, update_values, modify. intros [= <-].
    split; [|done]. cbn [db set_checkpoints].
    rewrite (get_values_update c (fun state =>
      {| sv_messages := Some (messages_of state ++ history);
         sv_patient := Some patient; sv_conversation_id := Some c;
         sv_last_interaction_time := sv_last_interaction_time state |})).
    unfold messages_of at 1. cbn [sv_messages]. by rewrite Hmsgs.
  - intros [= <-]. split; [|done]. rewrite Hmsgs. by apply Hcons.
Qed.

Section Tools.
Context (Htools : tools_keep_messages E).

(** C2, as the code has it.  Take a turn that ends without an exception
    and whose generated assistant messages each carry tool calls and no
    text, or text and no tool call.  If the stored log was written in time
    order and the checkpoint was empty (as after a restart) or agreed with
    the log, then after the turn the stored log of the conversation, read in
    [created_at] order and rehydrated, is exactly the transcript the worker
    holds: texts, tool calls with their ids, tool payloads; and the log is
    still in time order, so the same holds turn after turn. *)
Theorem C2_persist_then_rehydrate task w w' :
  let c := qi_conversation_id task in
  timely E w ->
  (messages_of (get_values c w) <> [] ->
   rehydrate (get_messages c (db w)) = Ok (messages_of (get_values c w))) ->
  process_item E task w = (w', Ok tt) ->
  Forall faithful (messages_this_turn (messages_of (get_values c w'))) ->
  rehydrate (get_messages c (db w')) = Ok (messages_of (get_values c w')) /\
  timely E w'.
Proof.
  intros c Htime Hcons Hrun Hfaith. unfold process_item in Hrun. fold c in Hrun.
  apply bind_Ok_inv in Hrun as ([] & w1 & Hload & Hrun).
  apply bind_Ok_inv in Hrun as (row & w2 & Hadd & Hrun).
  apply bind_Ok_inv in Hrun as (response & w3 & Hinv & Hresp).
  pose proof (load_history_logged c (qi_patient task) w w1 Htime Hcons Hload) as Hlog1.
  assert (Hlog2 : logged E c w2 (messages_of (get_values c w1) ++ [HumanMessage (qi_message task)])).
  { replace w2 with (fst (db_add_message E c "user" (qi_message task) w1))
      by by rewrite Hadd.
    eapply logged_add; [exact Hlog1|]. intros entry Hs Hm.
    unfold rehydrate_entry. by rewrite Hs, Hm. }
  assert (Hcp12 : get_values c w2 = get_values c w1).
  { destruct (db_add_message_same_checkpoints E c "user" (qi_message task) w1) as [H _].
    rewrite Hadd in H. simpl in H. unfold get_values. by rewrite H. }
  pose proof (ainvoke_quiet E Htools c [HumanMessage (qi_message task)] w2) as Hquiet.
  rewrite Hinv in Hquiet. simpl in Hquiet.
  pose proof (logged_quiet _ _ _ _ Hlog2 Hquiet) as Hlog3.
  apply ainvoke_response in Hinv as (Hvalues & generated & Hgen & Hnh).
  rewrite Hcp12 in Hgen.
  assert (Hturn : messages_this_turn (messages_of response) = generated).
  { rewrite Hgen. simpl. by apply messages_this_turn_app. }
  assert (Hidx : last_human_message_index (messages_of response) <> -1).
  { rewrite Hgen. simpl. rewrite last_human_message_index_app by done. lia. }
  destruct (process_response_same_checkpoints E c
              (patient_phone_number (qi_patient task)) (messages_of response) w3)
    as [Hcp _].
  rewrite Hresp in Hcp. simpl in Hcp.
  assert (Hfinal : get_values c w' = response).
  { rewrite Hvalues. unfold get_values. by rewrite Hcp. }
  rewrite Hfinal in *. rewrite Hturn in Hfaith.
  unfold process_response in Hresp.
  destruct (Z.eqb_spec (last_human_message_index (messages_of response)) (-1)); [done|].
  cbn [negb] in Hresp. rewrite Hturn in Hresp.
  pose proof (save_turn_logged c _ generated w3 w' _ Hlog3 Hfaith Hnh Hresp) as [H1 H2].
  split; [|exact H2]. rewrite H1, Hgen. by rewrite <- app_assoc.
Qed.

End Tools.
End RoundTrip.

(** * The claims on concrete runs *)

Lemma sample_tools_keep_messages : tools_keep_messages sample_env.
Proof. by intros n call d. Qed.

Lemma sample_clock_increasing : clock_increasing sample_env.
Proof. intros i j Hij. simpl. lia. Qed.

(** C1 at the failing input.  The model answers "mute" with an empty text
    and no tool call: the turn ends without an exception, nothing is sent
    and nothing but the user message is stored.  More generally, whenever
    the transcript ends with the user turn followed by an assistant message
    without text and without tool call, or with the user turn itself, the
    worker neither stores nor sends anything: there is no fallback to the
    last message of the transcript. *)
Theorem C1_no_reply_no_fallback :
  (let w := run sample_env [EvEnqueue "+1555" "mute"; EvConsume] empty_world in
   messages_of (get_values 1 w) = [HumanMessage "mute"; AIMessage EmptyString []] /\
   outbox w = [] /\
   error_log w = [] /\
   message_queue w = [] /\
   map message_sender (messages (db w)) = ["user"]) /\
  (forall E c phone before message w,
      process_response E c phone (before ++ [HumanMessage message; AIMessage EmptyString []]) w
      = (w, Ok tt)) /\
  (forall E c phone before message w,
      process_response E c phone (before ++ [HumanMessage message]) w = (w, Ok tt)).
Proof.
  split; [by repeat split|]. split.
  - intros E c phone before message w. unfold process_response.
    assert (Hnh : Forall (fun msg => is_human msg = false) [AIMessage EmptyString []])
      by by repeat constructor.
    rewrite (messages_this_turn_app before message _ Hnh).
    rewrite (last_human_message_index_app before message _ Hnh).
    destruct (Z.eqb_spec (Z.of_nat (List.length before)) (-1)); [lia|]. done.
  - intros E c phone before message w. unfold process_response.
    assert (Hnh : Forall (fun msg : Msg => is_human msg = false) []) by constructor.
    rewrite (messages_this_turn_app before message _ Hnh).
    rewrite (last_human_message_index_app before message _ Hnh).
    destruct (Z.eqb_spec (Z.of_nat (List.length before)) (-1)); [lia|]. done.
Qed.

(** C2 fails as stated: the model answers "check" with a text next to its
    tool call; the turn ends well, and the rehydrated log differs from the
    transcript the worker holds, the text being gone. *)
Lemma C2_counterexample :
  let w := run sample_env [EvEnqueue "+1555" "check"; EvConsume] empty_world in
  error_log w = [] /\
  messages_of (get_values 1 w)
  = [HumanMessage "check"; AIMessage "Let me check" [list_dentists_call];
     ToolMessage "5 dentists" "call_1"; AIMessage "done" []] /\
  rehydrate (get_messages 1 (db w))
  = Ok [HumanMessage "check"; AIMessage EmptyString [list_dentists_call];
        ToolMessage "5 dentists" "call_1"; AIMessage "done" []] /\
  rehydrate (get_messages 1 (db w)) <> Ok (messages_of (get_values 1 w)).
Proof. vm_compute. repeat split. discriminate. Qed.

(** A restart (empty checkpoint, a stored history), then a turn with a tool
    round: the log rehydrates to the transcript held. *)
Lemma C2_witness :
  let w' := fst (process_item sample_env (sample_item "book") restart_world) in
  messages_of (get_values 1 w')
  = [HumanMessage "hi"; AIMessage "hello" []; HumanMessage "book";
     AIMessage EmptyString [list_dentists_call]; ToolMessage "5 dentists" "call_1";
     AIMessage "done" []] /\
  rehydrate (get_messages 1 (db w')) = Ok (messages_of (get_values 1 w')).
Proof.
  intros w'.
  assert (Hturn : messages_this_turn (messages_of (get_values 1 w'))
                  = [AIMessage EmptyString [list_dentists_call];
                     ToolMessage "5 dentists" "call_1"; AIMessage "done" []])
    by (vm_compute; reflexivity).
  split; [vm_compute; reflexivity|].
  pose proof (C2_persist_then_rehydrate sample_env sample_clock_increasing
                sample_tools_keep_messages (sample_item "book") restart_world w') as H.
  cbv zeta in H. change (qi_conversation_id (sample_item "book")) with 1 in H.
  apply H.
  - unfold timely. repeat constructor.
  - intros Hne. by contradict Hne.
  - subst w'. vm_compute. reflexivity.
  - rewrite Hturn. repeat (apply Forall_cons; split); [| | |done].
    + left. split; [discriminate|reflexivity].
    + exact I.
    + right. split; [reflexivity|discriminate].
Defined.

(** C3 fails as stated: the log of conversation 1 holds one tool result that
    is no JSON, and rehydration yields no transcript at all, not the
    transcript of the two other entries; the turn is dropped and nothing is
    stored or sent. *)
Lemma C3_counterexample :
  rehydrate (get_messages 1 (db corrupt_world)) = Raise JSONDecodeError /\
  rehydrate (get_messages 1 (db corrupt_world))
  <> Ok [HumanMessage "hi"; AIMessage "hello" []] /\
  db (consume_messages sample_env 1 corrupt_world) = db corrupt_world /\
  outbox (consume_messages sample_env 1 corrupt_world) = [].
Proof. vm_compute. repeat split. discriminate. Qed.

Lemma C3_witness :
  In (sample_entry 2 "tool" "{oops") (get_messages 1 (db corrupt_world)) /\
  exists e',
    consume_one sample_env corrupt_world
    = Some (set_error_log [AgentError 1 e']
              (set_message_queue [other_item "hi"] corrupt_world)).
Proof.
  assert (Hin : In (sample_entry 2 "tool" "{oops") (get_messages 1 (db corrupt_world))).
  { vm_compute. auto. }
  split; [exact Hin|].
  destruct (C3_malformed_entry_aborts_turn sample_env corrupt_world
              (sample_item "again") [other_item "hi"]
              (sample_entry 2 "tool" "{oops") JSONDecodeError
              eq_refl eq_refl Hin eq_refl) as (e' & _ & H).
  exists e'. exact H.
Defined.

(** A first item whose stored history is corrupt is logged and dropped; the
    second item, of another conversation, is answered. *)
Lemma C4_witness :
  message_queue corrupt_world = [sample_item "again"; other_item "hi"] /\
  error_log (consume_messages sample_env 1 corrupt_world) = [AgentError 1 JSONDecodeError] /\
  message_queue (consume_messages sample_env 2 corrupt_world) = [] /\
  outbox (consume_messages sample_env 2 corrupt_world) = [("+1666", "hello")].
Proof.
  split; [reflexivity|].
  destruct (C4_exception_per_item sample_env corrupt_world
              (sample_item "again") [other_item "hi"] eq_refl)
    as [(w' & H1 & H2 & H3) H4].
  split; [|split].
  - simpl. rewrite H1. exact H3.
  - exact (H4 2%nat (le_n 2)).
  - reflexivity.
Defined.

Lemma sample_idle n : (2 <= n)%nat -> idle_threshold sample_env < clock sample_env n - 0.
Proof. intros H. unfold idle_threshold. simpl. lia. Qed.

(** An idle checkpoint whose conversation was closed by another path, and
    one whose conversation is still open. *)
Lemma C5_witness :
  (let w' := fst (conversation_cleanup_cycle sample_env (sweep_world idle_values "closed")) in
   checkpoints w' !! 1 = None /\
   get_conversation 1 (db w') = Some (sample_conversation "closed")) /\
  (let w' := fst (conversation_cleanup_cycle sample_env (sweep_world idle_values "open")) in
   checkpoints w' !! 1 = None /\
   exists t, get_conversation 1 (db w')
             = Some {| conversation_id := 1; conversation_patient_id := Some 1;
                       conversation_status := "closed"; conversation_started_at := 0;
                       conversation_ended_at := Some t;
                       conversation_closed_reason := Some "timed_out" |}).
Proof.
  split.
  - exact (C5_sweep_closes_only_open sample_env (sweep_world idle_values "closed") 1
             idle_values 0 eq_refl eq_refl sample_idle).
  - exact (C5_sweep_closes_only_open sample_env (sweep_world idle_values "open") 1
             idle_values 0 eq_refl eq_refl sample_idle).
Defined.

(** The input on which the sweep departs from C6 and from the comment on
    its own branch: the checkpoint a failed first turn leaves (a transcript,
    no interaction time) is still there, unchanged, after the cycle. *)
Lemma C6_failing_input :
  sv_last_interaction_time lingering_values = None /\
  checkpoints (fst (conversation_cleanup_cycle sample_env
                      (sweep_world lingering_values "open"))) !! 1
  = Some lingering_values.
Proof. split; reflexivity. Qed.

Lemma C6_witness :
  (let w' := fst (conversation_cleanup_cycle sample_env (sweep_world empty_values "open")) in
   get_conversation 1 (db w') = Some (sample_conversation "open") /\
   checkpoints w' !! 1 = None) /\
  (let w' := fst (conversation_cleanup_cycle sample_env
                    (sweep_world lingering_values "open")) in
   get_conversation 1 (db w') = Some (sample_conversation "open") /\
   checkpoints w' !! 1 = Some lingering_values).
Proof.
  split.
  - exact (C6_sweep_evicts_empty sample_env (sweep_world empty_values "open") 1
             empty_values eq_refl eq_refl).
  - exact (C6_sweep_evicts_empty sample_env (sweep_world lingering_values "open") 1
             lingering_values eq_refl eq_refl).
Defined.

(** Two patients: the items are taken in the order they were put, those of
    the two conversations interleaved, and the rows of each turn follow
    those of the turn before. *)
Lemma C7_witness :
  let evs := [EvEnqueue "+1555" "hi"; EvEnqueue "+1666" "yo"; EvEnqueue "+1555" "book";
              EvConsume; EvConsume; EvSweep; EvConsume] in
  map (fun turn => (qi_conversation_id (fst turn), qi_message (fst turn),
                    map message_sender (snd turn)))
    (trace_turns sample_env evs empty_world)
  = [(1, "hi", ["user"; "agent"]); (2, "yo", ["user"; "agent"]);
     (1, "book", ["user"; "agent_tool_call"; "tool"; "agent"])] /\
  messages (db (run sample_env evs empty_world))
  = messages (db empty_world) ++ List.concat (map snd (trace_turns sample_env evs empty_world)).
Proof.
  intros evs. split; [vm_compute; reflexivity|].
  exact (proj1 (proj2 (C7_fifo_turns sample_env sample_tools_keep_messages evs empty_world))).
Defined.

Lemma C8_witness :
  rehydrate (get_messages 1 (db restart_world))
  = Ok [HumanMessage "hi"; AIMessage "hello" []] /\
  Forall2 (fun entry turn => typed_form entry = Ok (Some turn))
    (get_messages 1 (db restart_world)) [HumanMessage "hi"; AIMessage "hello" []].
Proof.
  split; [reflexivity|].
  refine (proj1 (proj2 (proj2 (proj2
            (C8_rehydration_maps_log (db restart_world) 1)))) _ _ _).
  - vm_compute. repeat constructor; discriminate.
  - reflexivity.
Defined.

Lemma C9_witness :
  one_open_per_patient (db empty_world) /\
  one_open_per_patient (db (fst (enqueue_message sample_env "+1555" "hi" empty_world))) /\
  one_open_per_patient
    (db (run sample_env [EvEnqueue "+1555" "hi"; EvEnqueue "+1555" "again"] empty_world)).
Proof.
  assert (H0 : one_open_per_patient (db empty_world)) by (intros pid; simpl; lia).
  destruct (C9_enqueue_find_or_create sample_env "+1555" "hi" empty_world H0)
    as (p1 & c1 & t1 & _ & _ & _ & H1).
  destruct (C9_enqueue_find_or_create sample_env "+1555" "again" _ H1)
    as (p2 & c2 & t2 & _ & _ & _ & H2).
  split; [exact H0|]. split; [exact H1|exact H2].
Defined.

Lemma C10_witness :
  let w := run sample_env [EvEnqueue "+1555" "check"] empty_world in
  let w' := fst (process_item sample_env (sample_item "check") w) in
  outbox w' = [("+1555", "done")] /\
  exists rows sends,
    messages (db w') = messages (db w) ++ rows /\
    outbox w' = outbox w ++ sends /\
    Forall (fun m => message_sender m = "agent" ->
                     In (AIMessage (message_message m) [])
                       (messages_this_turn (messages_of (get_values 1 w')))) rows /\
    Forall (fun s => In (AIMessage (snd s) [])
                       (messages_this_turn (messages_of (get_values 1 w')))) sends.
Proof.
  intros w w'. split; [reflexivity|].
  exact (proj2 (C10_tool_call_text_dropped sample_env sample_tools_keep_messages
                  (sample_item "check") w "Let me check" [list_dentists_call] "+1555"
                  ltac:(discriminate))).
Defined.

(** * Further properties of the engine *)

(** ** The sweep and a conversation that is still active *)

Section SweepActive.
Context (E : Env).

Lemma cleanup_thread_ticks thread_id w :
  (ticks w <= ticks (fst (cleanup_thread E thread_id w)))%nat.
Proof.
  pose proof (cleanup_threads_quiet E [thread_id] w) as (_ & _ & H).
  rewrite cleanup_threads_cons in H. exact H.
Qed.

(** As [cleanup_threads_focus], with the moment of the visit placed inside
    the cycle. *)
Lemma cleanup_threads_focus_within thread_id ids w
  (Post : option StateValues * option Conversation -> Prop) :
  NoDup ids -> thread_id ∈ ids ->
  (forall w1, view thread_id w1 = view thread_id w -> (ticks w <= ticks w1)%nat ->
              (ticks (fst (cleanup_thread E thread_id w1))
               <= ticks (fst (cleanup_threads E ids w)))%nat ->
              Post (view thread_id (fst (cleanup_thread E thread_id w1)))) ->
  Post (view thread_id (fst (cleanup_threads E ids w))).
Proof.
  intros Hnd Hin Hpost.
  enough (Hgen : forall w1 wf,
             view thread_id w1 = view thread_id w -> (ticks w <= ticks w1)%nat ->
             wf = fst (cleanup_threads E ids w1) ->
             (forall w2, view thread_id w2 = view thread_id w -> (ticks w <= ticks w2)%nat ->
                         (ticks (fst (cleanup_thread E thread_id w2)) <= ticks wf)%nat ->
                         Post (view thread_id (fst (cleanup_thread E thread_id w2)))) ->
             Post (view thread_id wf))
    by (eapply Hgen; [done|lia|done|done]).
  clear Hpost.
  induction ids as [|other rest IH]; intros w1 wf Hv Ht -> Hpost.
  - by apply elem_of_nil in Hin.
  - apply NoDup_cons in Hnd as [Hnot Hnd].
    rewrite cleanup_threads_cons in *.
    destruct (decide (other = thread_id)) as [->|Hne].
    + destruct (cleanup_threads_frame E thread_id rest Hnot
                  (fst (cleanup_thread E thread_id w1))) as [Hview Hticks].
      rewrite Hview. by apply Hpost.
    + apply elem_of_cons in Hin as [Heq|Hin]; [congruence|].
      destruct (cleanup_thread_frame E thread_id other Hne w1) as [Hv1 Ht1].
      eapply (IH Hnd Hin (fst (cleanup_thread E other w1)));
        [congruence|lia|reflexivity|done].
Qed.

(** The visit of a thread whose last interaction is within the threshold. *)
Lemma cleanup_thread_active thread_id w v last_interaction :
  checkpoints w !! thread_id = Some v ->
  sv_last_interaction_time v = Some last_interaction ->
  let w' := fst (cleanup_thread E thread_id w) in
  (ticks w < ticks w')%nat /\
  (clock E (ticks w) - last_interaction <= idle_threshold E ->
   view thread_id w' = view thread_id w).
Proof.
  intros Hcp Hlast.
  unfold cleanup_thread, db_close_conversation, now, delete_thread, aget_state, on_db.
  cbv [mbind M_bind mret M_ret gets modify tick].
  unfold get_values. rewrite Hcp, Hlast.
  assert (Htruthy : values_truthy v = true).
  { unfold values_truthy. rewrite Hlast. by destruct (sv_messages v), (sv_patient v),
      (sv_conversation_id v). }
  rewrite Htruthy. cbn [ticks set_ticks].
  destruct (Z.ltb_spec (idle_threshold E) (clock E (ticks w) - last_interaction)).
  - split; [|lia]. cbn [db set_ticks].
    destruct (get_conversation thread_id (db w)) as [c|];
      cbn -[close_conversation get_conversation]; [|lia].
    destruct (String.eqb (conversation_status c) "open");
      cbn -[close_conversation get_conversation]; lia.
  - split; [simpl; lia|done].
Qed.


End SweepActive.


(** ** All that a sweep cycle writes *)

Lemma NoDup_fmap_eq {A B : Type} (f : A -> B) (l : list A) x y :
  NoDup (map f l) -> x ∈ l -> y ∈ l -> f x = f y -> x = y.
Proof.
  induction l as [|a l IH]; simpl; intros Hnd Hx Hy Hf; [by apply elem_of_nil in Hx|].
  apply NoDup_cons in Hnd as [Hnot Hnd].
  apply elem_of_cons in Hx as [->|Hx]; apply elem_of_cons in Hy as [->|Hy]; [done| | |by apply IH].
  - exfalso. apply Hnot. rewrite Hf. by apply (list_elem_of_fmap_2 f).
  - exfalso. apply Hnot. rewrite <- Hf. by apply (list_elem_of_fmap_2 f).
Qed.

Lemma swept_ids w l l' :
  Forall2 (swept w) l l' -> map conversation_id l' = map conversation_id l.
Proof.
  induction 1 as [|c c' l l' Hc _ IH]; simpl; [done|]. f_equal; [|done].
  destruct Hc as [->|(_ & _ & t & ->)]; [done|apply close_row_id].
Qed.

Lemma swept_refl w l : Forall2 (swept w) l l.
Proof. induction l; constructor; [by left|done]. Qed.

(** Closing thread [thread_id] in a table the sweep has worked on. *)
Lemma swept_close w thread_id t l l' :
  Forall2 (swept w) l l' ->
  is_Some (checkpoints w !! thread_id) ->
  (forall c', c' ∈ l' -> conversation_id c' = thread_id -> conversation_status c' = "open") ->
  Forall2 (swept w) l (map (close_row thread_id "timed_out" t) l').
Proof.
  intros HF Hcp. induction HF as [|c c' l l' Hc _ IH]; simpl; intros Hopen; [constructor|].
  constructor.
  - destruct (Z.eq_dec (conversation_id c') thread_id) as [Hid|Hid].
    + assert (Hst : conversation_status c' = "open") by (apply Hopen; [left|done]).
      destruct Hc as [->|(_ & _ & t' & ->)].
      * right. split; [done|]. rewrite Hid. split; [done|]. by exists t.
      * exfalso. unfold close_row in Hst. rewrite Z.eqb_refl in Hst. discriminate.
    + by rewrite close_row_ne.
  - apply IH. intros c'' Hin. apply Hopen. by right.
Qed.

Section SweepFrame.
Context (E : Env).

(** One visit keeps what the visits before it have established. *)
Lemma cleanup_thread_effect w0 w1 thread_id :
  conversation_ids_unique (db w0) ->
  patients (db w1) = patients (db w0) /\ messages (db w1) = messages (db w0) /\
  message_queue w1 = message_queue w0 /\ outbox w1 = outbox w0 /\
  error_log w1 = error_log w0 /\ checkpoints w1 ⊆ checkpoints w0 /\
  Forall2 (swept w0) (conversations (db w0)) (conversations (db w1)) ->
  let w2 := fst (cleanup_thread E thread_id w1) in
  patients (db w2) = patients (db w0) /\ messages (db w2) = messages (db w0) /\
  message_queue w2 = message_queue w0 /\ outbox w2 = outbox w0 /\
  error_log w2 = error_log w0 /\ checkpoints w2 ⊆ checkpoints w0 /\
  Forall2 (swept w0) (conversations (db w0)) (conversations (db w2)).
Proof.
  intros Hnd (Hp & Hm & Hq & Ho & He & Hc & Hs).
  assert (Hdel : delete thread_id (checkpoints w1) ⊆ checkpoints w0).
  { etransitivity; [apply delete_subseteq|done]. }
  unfold cleanup_thread, db_close_conversation, now, delete_thread, aget_state, on_db.
  cbv [mbind M_bind mret M_ret gets modify tick].
  destruct (sv_last_interaction_time (get_values thread_id w1)) as [last|] eqn:Hlast.
  - assert (Hcp : is_Some (checkpoints w0 !! thread_id)).
    { unfold get_values in Hlast.
      destruct (checkpoints w1 !! thread_id) as [v|] eqn:Hv; [|done].
      exists v. by eapply lookup_weaken. }
    destruct (values_truthy (get_values thread_id w1)); cbn [negb]; [|by cbn].
    cbn [ticks set_ticks fst snd].
    destruct (Z.ltb _ _); [|by cbn].
    cbn [db set_ticks].
    destruct (get_conversation thread_id (db w1)) as [cf|] eqn:Hcf;
      cbn -[close_conversation get_conversation]; [|done].
    destruct (String.eqb (conversation_status cf) "open") eqn:Hopen;
      cbn -[close_conversation get_conversation]; [|done].
    repeat split; try done.
    simpl. apply swept_close; [done|done|].
    intros c' Hin Hid.
    unfold get_conversation in Hcf. apply find_some in Hcf as [Hcfin Hcfid].
    apply Z.eqb_eq in Hcfid. apply String.eqb_eq in Hopen.
    assert (c' = cf) as ->; [|done].
    apply (NoDup_fmap_eq conversation_id (conversations (db w1))).
    + rewrite (swept_ids _ _ _ Hs). exact Hnd.
    + done.
    + by apply list_elem_of_In.
    + congruence.
  - destruct (values_truthy (get_values thread_id w1)); cbn; done.
Qed.

Lemma cleanup_threads_effect w0 ids w1 :
  conversation_ids_unique (db w0) ->
  patients (db w1) = patients (db w0) /\ messages (db w1) = messages (db w0) /\
  message_queue w1 = message_queue w0 /\ outbox w1 = outbox w0 /\
  error_log w1 = error_log w0 /\ checkpoints w1 ⊆ checkpoints w0 /\
  Forall2 (swept w0) (conversations (db w0)) (conversations (db w1)) ->
  let w2 := fst (cleanup_threads E ids w1) in
  patients (db w2) = patients (db w0) /\ messages (db w2) = messages (db w0) /\
  message_queue w2 = message_queue w0 /\ outbox w2 = outbox w0 /\
  error_log w2 = error_log w0 /\ checkpoints w2 ⊆ checkpoints w0 /\
  Forall2 (swept w0) (conversations (db w0)) (conversations (db w2)).
Proof.
  intros Hnd. revert w1. induction ids as [|thread_id rest IH]; intros w1 H; [done|].
  cbv zeta. rewrite cleanup_threads_cons. apply IH. by apply cleanup_thread_effect.
Qed.


End SweepFrame.


(** ** What a turn does to the checkpoints *)

#[local] Instance same_thread_preorder c : PreOrder (same_thread c).
Proof.
  split.
  - by intros w.
  - intros w1 w2 w3 H1 H2. unfold same_thread in *. congruence.
Qed.

#[local] Instance same_context_preorder c : PreOrder (same_context c).
Proof.
  split.
  - by intros w.
  - intros w1 w2 w3 [H1 H2] [H3 H4]. split; congruence.
Qed.

#[local] Instance later_preorder : PreOrder later.
Proof.
  split.
  - intros w. unfold later. lia.
  - intros w1 w2 w3. unfold later. lia.
Qed.

Lemma same_checkpoints_thread {A : Type} c (m : M A) :
  preserves same_checkpoints m -> preserves (same_thread c) m.
Proof. intros H w. destruct (H w) as [Hc _]. unfold same_thread. by rewrite Hc. Qed.

Lemma same_checkpoints_context {A : Type} c (m : M A) :
  preserves same_checkpoints m -> preserves (same_context c) m.
Proof.
  intros H w. destruct (H w) as [Hc _]. unfold same_context, get_values. by rewrite Hc.
Qed.

Lemma same_checkpoints_later {A : Type} (m : M A) :
  preserves same_checkpoints m -> preserves later m.
Proof. intros H w. by destruct (H w) as [_ Ht]. Qed.

Lemma update_values_same_thread c other f :
  other <> c -> preserves (same_thread other) (update_values c f).
Proof.
  intros Hne w. unfold update_values, modify, same_thread. simpl.
  by rewrite lookup_insert_ne.
Qed.

Lemma update_values_same_context c f :
  (forall v, sv_patient (f v) = sv_patient v /\
             sv_conversation_id (f v) = sv_conversation_id v) ->
  preserves (same_context c) (update_values c f).
Proof.
  intros Hf w. unfold update_values, modify, same_context. cbn [fst].
  rewrite get_values_update. apply Hf.
Qed.

Lemma update_values_later c f : preserves later (update_values c f).
Proof. intros w. unfold later. simpl. lia. Qed.

Section Turn.
Context (E : Env).

Lemma run_graph_same_thread n c other :
  other <> c -> preserves (same_thread other) (run_graph E n c).
Proof.
  intros Hne.
  pose proof (update_values_same_thread c other) as Hupd.
  pose proof (fun A => @same_checkpoints_thread A other) as Hsame.
  pose proof (run_tools_same_checkpoints E) as Htools.
  induction n as [|n IH]; simpl; [solve_preserves|].
  unfold assistant, tools, update_timestamp_node, aget_state. solve_preserves.
Qed.


End Turn.


(** ** The patient context of a thread *)

Section Context.
Context (E : Env).

Lemma run_graph_same_context n c : preserves (same_context c) (run_graph E n c).
Proof.
  pose proof (fun A => @same_checkpoints_context A c) as Hsame.
  pose proof (run_tools_same_checkpoints E) as Htools.
  assert (Hupd : forall f,
             (forall v, sv_patient (f v) = sv_patient v /\
                        sv_conversation_id (f v) = sv_conversation_id v) ->
             preserves (same_context c) (update_values c f))
    by apply update_values_same_context.
  induction n as [|n IH]; simpl; [solve_preserves|].
  unfold assistant, tools, update_timestamp_node, aget_state.
  solve_preserves; apply Hupd; done.
Qed.

(** The part of a turn that follows the loading of the history. *)
Lemma turn_same_context c phone message :
  preserves (same_context c)
    (db_add_message E c "user" message;;
     response ← ainvoke E c [HumanMessage message];
     process_response E c phone (messages_of response)).
Proof.
  pose proof (fun A => @same_checkpoints_context A c) as Hsame.
  pose proof (run_graph_same_context (recursion_limit E) c) as Hgraph.
  pose proof (process_response_same_checkpoints E) as Hresp.
  assert (Hupd : forall f,
             (forall v, sv_patient (f v) = sv_patient v /\
                        sv_conversation_id (f v) = sv_conversation_id v) ->
             preserves (same_context c) (update_values c f))
    by apply update_values_same_context.
  unfold ainvoke, aget_state. solve_preserves.
Qed.


End Context.


(** ** The interaction time of a thread *)

Section Stamp.
Context (E : Env).

Lemma tick_later : preserves later tick.
Proof. intros w. unfold later. simpl. lia. Qed.

Lemma run_tools_later calls : preserves later (run_tools E calls).
Proof. apply same_checkpoints_later, run_tools_same_checkpoints. Qed.

Lemma assistant_later c : preserves later (assistant E c).
Proof.
  pose proof tick_later. pose proof update_values_later.
  unfold assistant, aget_state. solve_preserves.
Qed.

Lemma tools_later c calls : preserves later (tools E c calls).
Proof.
  pose proof run_tools_later. pose proof update_values_later.
  unfold tools. solve_preserves.
Qed.

Lemma load_history_later c patient : preserves later (load_history c patient).
Proof.
  pose proof update_values_later.
  unfold load_history, aupdate_state, aget_state. solve_preserves.
Qed.

(** A run of the graph that ends well ends in [update_timestamp]. *)
Lemma run_graph_stamp steps c w w' :
  run_graph E steps c w = (w', Ok tt) ->
  exists n, (ticks w <= n < ticks w')%nat /\
            sv_last_interaction_time (get_values c w') = Some (clock E n).
Proof.
  revert w. induction steps as [|steps IH]; intros w; simpl; [discriminate|].
  intros H. apply bind_Ok_inv in H as (response & w1 & Hassistant & H).
  pose proof (assistant_later c w) as Hl1. rewrite Hassistant in Hl1.
  unfold later in Hl1. cbn [fst] in Hl1.
  destruct (tools_condition response).
  - apply bind_Ok_inv in H as ([] & w2 & Htools & H).
    pose proof (tools_later c (tool_calls_of response) w1) as Hl2.
    rewrite Htools in Hl2. unfold later in Hl2. cbn [fst] in Hl2.
    destruct (IH _ H) as (n & Hn & Hstamp). exists n. split; [lia|done].
  - unfold update_timestamp_node, now, update_values, modify in H.
    cbv [mbind M_bind mret M_ret tick] in H. injection H as <-.
    exists (ticks w1). split; [simpl; lia|].
    unfold get_values. simpl. by rewrite lookup_insert_eq.
Qed.


End Stamp.


(** ** A turn during which the model cannot be reached *)

Section Offline.
Context (E : Env) (e : exn).
Context (Hdown : forall n p c msgs, llm E n p c msgs = Raise e).
Context (Hlimit : (0 < recursion_limit E)%nat).

Lemma ainvoke_offline c input w :
  ainvoke E c input w
  = (set_ticks (S (ticks w))
       (set_checkpoints (<[c := add_messages (get_values c w) input]> (checkpoints w)) w),
     Raise e).
Proof.
  unfold ainvoke. destruct (recursion_limit E) as [|steps]; [lia|].
  unfold update_values, modify, run_graph, assistant, aget_state, lift.
  cbv [mbind M_bind mret M_ret gets tick]. by rewrite Hdown.
Qed.


End Offline.


(** ** What the intake path leaves to the worker *)

Section IntakeFrame.
Context (E : Env).

Lemma enqueue_message_same_checkpoints p m :
  preserves same_checkpoints (enqueue_message E p m).
Proof.
  unfold enqueue_message, db_create_patient, db_create_conversation.
  solve_preserves.
Qed.


(** ** A reply that cannot be delivered *)


End IntakeFrame.


(** * The store *)

(** ** Insert, then look up *)

Lemma find_snoc {A : Type} (f : A -> bool) (l : list A) (x : A) :
  List.find f (l ++ [x])
  = match List.find f l with Some y => Some y | None => if f x then Some x else None end.
Proof.
  induction l as [|a l IH]; simpl; [done|]. by destruct (f a).
Qed.

Lemma find_none_fresh {A : Type} (key : A -> option Z) (rows : list A) (seq id : Z) :
  Forall (fun r => exists i, key r = Some i /\ i <= seq) rows -> seq < id ->
  List.find (fun r => sql_eq (key r) (Some id)) rows = None.
Proof.
  induction 1 as [|r rows (i & Hi & Hle) _ IH]; intros Hlt; simpl; [done|].
  rewrite Hi. simpl. destruct (Z.eqb_spec i id); [lia|]. by apply IH.
Qed.

Lemma keys_ok_snoc {A : Type} (key : A -> option Z) (rows : list A) (seq : Z) (r : A) :
  keys_ok key rows seq -> key r = Some (seq + 1) -> keys_ok key (rows ++ [r]) (seq + 1).
Proof.
  intros [Hnd Hle] Hr. split.
  - rewrite map_app. simpl. apply NoDup_app. split; [done|]. split; [|apply NoDup_singleton].
    intros k Hk Hk'. apply list_elem_of_singleton in Hk'. subst k. rewrite Hr in Hk.
    apply list_elem_of_fmap in Hk as (r' & Hkey & Hin).
    rewrite List.Forall_forall in Hle. apply list_elem_of_In in Hin.
    destruct (Hle r' Hin) as (i & Hi & Hi').
    assert (i = seq + 1) by congruence. lia.
  - apply Forall_app. split.
    + eapply Forall_impl; [exact Hle|]. intros r' (i & Hi & Hi'). exists i. split; [done|lia].
    + constructor; [|constructor]. exists (seq + 1). split; [done|lia].
Qed.


Ltac keys_ok_by_computation :=
  split;
  [ apply (bool_decide_unpack _); vm_compute; reflexivity
  | simpl;
    repeat (apply List.Forall_cons; [eexists; split; [reflexivity|by vm_compute]|]);
    apply List.Forall_nil ].

Lemma corrupt_db_ok : db_ok corrupt_db.
Proof. unfold db_ok, corrupt_db. split; [|split]; keys_ok_by_computation. Qed.



